(** * pathtree: a path trie with wildcard edges, lookup by priority and reversal

    Shallow embedding of the package [pathtree] (the variant with
    [Edge] values, bounded wildcards [:[min,max]name;], padding
    alternatives and [Reverse]) and the properties of its three
    operations [Add], [Find] and [Reverse].

    Conventions of the embedding.
    - Go strings are byte strings: [string].  [len], indexing and slicing
      count bytes.
    - Go [int] is a 64-bit integer, modelled in [Z]; the only arithmetic
      that can leave the range is the insertion counter [n.leafs++], whose
      wrap-around is written out ([int_wrap]).
    - A run-time panic (index out of range) is the outcome [Panic].
    - Slices are modelled by lists and [append] by concatenation.
    - [Add] mutates the tree through the receiver pointer; the embedding
      passes the tree in and out.  The [variables] map of [Reverse] is a
      reference into a store of maps, since the caller observes the
      mutation.
    - Parent pointers are only ever followed upwards and the fields read
      through them never change after creation; a pointer to a node is
      modelled by the chain of edges met on the way up ([NodeRef]). *)

From Stdlib Require Import ZArith Ascii DecimalString DecimalPos.
From stdpp Require Import gmap strings list fin_maps.

Local Open Scope Z_scope.

(** ** Outcomes: a value or a run-time panic *)

Inductive result (A : Type) : Type :=
  | Ok (a : A)
  | Panic.
Arguments Ok {A} a.
Arguments Panic {A}.

#[global] Instance result_bind : MBind result := fun A B f m =>
  match m with
  | Ok a => f a
  | Panic => Panic
  end.
#[global] Instance result_ret : MRet result := fun A a => Ok a.

(** [for _, x := range l { s = body(s, x) }] with a body that may panic. *)
Fixpoint rfold {A S : Type} (body : S -> A -> result S) (s : S) (l : list A)
  : result S :=
  match l with
  | [] => Ok s
  | x :: l' => s' ← body s x; rfold body s' l'
  end.

(** ** The Go built-ins and library functions the package calls *)

Module Go.

Definition max_int : Z := 2 ^ 63 - 1.
Definition min_int : Z := - 2 ^ 63.

(** Two's complement wrap-around of [int] arithmetic. *)
Definition int_wrap (z : Z) : Z := (z + 2 ^ 63) mod 2 ^ 64 - 2 ^ 63.

(** [len(s)] *)
Definition len (s : string) : Z := Z.of_nat (String.length s).

(** [s[i:]] *)
Fixpoint from (i : nat) (s : string) : string :=
  match i, s with
  | O, _ => s
  | S i', String _ s' => from i' s'
  | S _, EmptyString => EmptyString
  end.

(** [s[:j]] *)
Fixpoint upto (j : nat) (s : string) : string :=
  match j, s with
  | O, _ => EmptyString
  | S j', String c s' => String c (upto j' s')
  | S _, EmptyString => EmptyString
  end.

(** [s[i:j]] *)
Definition slice (i j : nat) (s : string) : string := upto (j - i) (from i s).

(** [s[:len(s)-1]] *)
Definition chop (s : string) : string := upto (String.length s - 1) s.

(** [s[len(s)-1]], for a non-empty [s]. *)
Fixpoint last_byte (s : string) : option ascii :=
  match s with
  | EmptyString => None
  | String c EmptyString => Some c
  | String _ s' => last_byte s'
  end.

(** [len(s) > 0 && s[0] == c] *)
Definition begins (c : ascii) (s : string) : bool :=
  match s with
  | EmptyString => false
  | String x _ => bool_decide (x = c)
  end.

(** [strings.Index(s, substr)]; [None] stands for [-1]. *)
Fixpoint Index (s substr : string) : option nat :=
  if String.prefix substr s then Some O
  else match s with
       | EmptyString => None
       | String _ s' => S <$> Index s' substr
       end.

(** [strings.Count(s, sep)] for a one-byte [sep]. *)
Fixpoint Count (s : string) (sep : ascii) : nat :=
  match s with
  | EmptyString => O
  | String c s' => ((if decide (c = sep) then 1 else 0) + Count s' sep)%nat
  end.

(** [strings.Split(s, sep)] for a one-byte [sep]. *)
Fixpoint Split (s : string) (sep : ascii) : list string :=
  match s with
  | EmptyString => [EmptyString]
  | String c s' =>
      if decide (c = sep) then EmptyString :: Split s' sep
      else match Split s' sep with
           | [] => [String c EmptyString]
           | x :: xs => String c x :: xs
           end
  end.

(** [strings.Join(elems, sep)] *)
Definition Join (elems : list string) (sep : string) : string :=
  String.concat sep elems.

Definition digit (c : ascii) : option Z :=
  let n := Z.of_nat (nat_of_ascii c) in
  if (48 <=? n) && (n <=? 57) then Some (n - 48) else None.

Fixpoint digits (s : string) (acc : Z) : option Z :=
  match s with
  | EmptyString => Some acc
  | String c s' =>
      match digit c with
      | Some d => digits s' (acc * 10 + d)
      | None => None
      end
  end.

(** [strconv.Atoi(s)]: an optional sign and at least one decimal digit,
    and the value must fit [int]; [None] stands for [err != nil]. *)
Definition Atoi (s : string) : option Z :=
  match s with
  | EmptyString => None
  | String c s' =>
      let neg := bool_decide (c = "-"%char) in
      let body := if neg || bool_decide (c = "+"%char) then s' else s in
      match body with
      | EmptyString => None
      | _ =>
          match digits body 0 with
          | Some n =>
              let v := if neg then - n else n in
              if (min_int <=? v) && (v <=? max_int) then Some v else None
          | None => None
          end
      end
  end.

(** [strconv.Itoa(i)] *)
Definition Itoa (i : Z) : string := NilZero.string_of_int (Z.to_int i).

End Go.

Import Go.

(** ** Data model *)

(** [type Wildcard struct { Name string; Min, Max int }]; a bound of [0]
    means no bound. *)
Record Wildcard : Type := mkWildcard {
  Name : string;
  Min : Z;
  Max : Z
}.

#[global] Instance Wildcard_eq_dec : EqDecision Wildcard.
Proof. solve_decision. Defined.

(** What [reverse] reads of an [Edge] when it follows [n.parent]: the
    padding groups, the wildcards and [wildend].  These fields are set by
    [addEdge] and never written again. *)
Record EdgeUp : Type := mkEdgeUp {
  up_padding : list (list string);
  up_wildcards : list Wildcard;
  up_wildend : bool
}.

(** A [*Node] as [reverse] sees it: the edges met by following
    [n.parent], [edge.parent.parent], ... up to the root, nearest first.
    The root, whose [parent] is [nil], is the empty chain. *)
Abbreviation NodeRef := (list EdgeUp).

(** A Go map is a reference: [variables] is a location in a store of
    maps, and [delete] updates the store.  A location outside the store
    behaves like the [nil] map: every lookup fails and [delete] does
    nothing. *)
Abbreviation mapref := nat.
Abbreviation store := (gmap nat (gmap string string)).

(** Go [error] values made by [errors.New]: the message. *)
Definition error : Type := string.
Definition ErrInvalidPattern : error := "Path must begin with /".
Definition ErrDuplicatePath : error := "duplicate path".

Section PathTree.

(** The caller's payload, [interface{}] in the source; never inspected. *)
Context {V : Type}.

(** [type Leaf struct]; [parent] is a [*Node], [None] when [nil]. *)
Record Leaf : Type := mkLeaf {
  Value : V;
  Wildcards : list Wildcard;
  order : Z;
  parent : option NodeRef;
  slashend : bool
}.

(** [type Node struct] and [type Edge struct].  [edges] holds [Edge]
    values, not pointers.  [nparent] is the field [parent] of [Node];
    the field [parent] of [Edge] is the node whose [edges] hold it. *)
Inductive Node : Type := mkNode {
  edges : gmap string Edge;
  leaf : option Leaf;
  star : option Leaf;
  leafs : Z;
  nparent : NodeRef
}
with Edge : Type := mkEdge {
  node : Node;
  padding : list (list string);
  wildcards : list Wildcard;
  wildend : bool;
  minorder : Z
}.

Definition set_edges (n : Node) (es : gmap string Edge) : Node :=
  mkNode es (leaf n) (star n) (leafs n) (nparent n).
Definition set_leaf (n : Node) (l : Leaf) : Node :=
  mkNode (edges n) (Some l) (star n) (leafs n) (nparent n).
Definition set_star (n : Node) (l : Leaf) : Node :=
  mkNode (edges n) (leaf n) (Some l) (leafs n) (nparent n).
Definition set_leafs (n : Node) (c : Z) : Node :=
  mkNode (edges n) (leaf n) (star n) c (nparent n).
Definition set_node (e : Edge) (child : Node) : Edge :=
  mkEdge child (padding e) (wildcards e) (wildend e) (minorder e).
Definition set_minorder (e : Edge) (o : Z) : Edge :=
  mkEdge (node e) (padding e) (wildcards e) (wildend e) o.

Definition edge_up (e : Edge) : EdgeUp :=
  mkEdgeUp (padding e) (wildcards e) (wildend e).

(** [func New() *Node] *)
Definition New : Node := mkNode ∅ None None 0 [].

(** ** Pattern compiler *)

(** [func splitPath(key string) (parts []string, slashend bool)].
    [elements[len(elements)-1]] panics when nothing is left, which
    happens for the empty key only. *)
Definition splitPath (key : string) : result (list string * bool) :=
  let elements := Split key "/" in
  let elements :=
    match elements with
    | "" :: rest => rest
    | _ => elements
    end in
  match last elements with
  | None => Panic
  | Some "" => Ok (removelast elements, true)
  | Some _ => Ok (elements, false)
  end.

(** The loop of [splitInput]: [i] is the index of the first byte of
    [rest] in [s]; a [':'] outside a wildcard and a [';'] inside one
    close the current part. *)
Fixpoint splitInput_loop (n : nat) (s rest : string) (i start na : nat)
    (inside : bool) (a : list string) : list string * nat * nat :=
  match rest with
  | EmptyString => (a, na, start)
  | String c rest' =>
      if (na + 1 <? n)%nat then
        if (bool_decide (c = ":"%char) && negb inside)
           || (bool_decide (c = ";"%char) && inside)
        then splitInput_loop n s rest' (i + 1) (i + 1) (na + 1)
               (negb inside) (<[na := slice start i s]> a)
        else splitInput_loop n s rest' (i + 1) start na inside a
      else (a, na, start)
  end.

(** [func splitInput(s string) []string] *)
Definition splitInput (s : string) : list string :=
  if decide (s = "") then [s]
  else
    let n := (Count s ":" + Count s ";" + 1)%nat in
    let a := replicate n "" in
    let '(a, na, start) := splitInput_loop n s s 0 0 0 false a in
    let a := <[na := from start s]> a in
    take (na + 1) a.

Fixpoint splitPad_loop (n : nat) (s rest : string) (i start na : nat)
    (a : list string) : list string * nat * nat :=
  match rest with
  | EmptyString => (a, na, start)
  | String c rest' =>
      if (na + 1 <? n)%nat then
        if bool_decide (c = "|"%char)
        then splitPad_loop n s rest' (i + 1) (i + 1) (na + 1)
               (<[na := slice start i s]> a)
        else splitPad_loop n s rest' (i + 1) start na a
      else (a, na, start)
  end.

(** [func splitPad(s string) []string] *)
Definition splitPad (s : string) : list string :=
  if decide (s = "") then [s]
  else
    let n := (Count s "|" + 1)%nat in
    let a := replicate n "" in
    let '(a, na, start) := splitPad_loop n s s 0 0 0 a in
    let a := <[na := from start s]> a in
    take (na + 1) a.

(** [func decodeWildcard(s string) Wildcard]; [s[0]] panics on the
    empty string. *)
Definition decodeWildcard (s : string) : result Wildcard :=
  match s with
  | EmptyString => Panic
  | String c _ =>
      let plain := mkWildcard s 0 0 in
      if bool_decide (c = "["%char) && (2 <? String.length s)%nat then
        let pos1 := Index (from 1 s) "," in
        let pos2 := Index (from 1 s) "]" in
        let exact :=
          match pos1, pos2 with
          | None, Some p2 =>
              if (0 <? p2)%nat && (p2 + 2 <? String.length s)%nat then
                min ← Atoi (slice 1 (p2 + 1) s);
                Some (mkWildcard (from (p2 + 2) s) min min)
              else None
          | _, _ => None
          end in
        let ranged :=
          match pos1, pos2 with
          | Some p1, Some p2 =>
              if (0 <? p1)%nat && (p1 + 1 <? p2)%nat
                 && (p2 + 2 <? String.length s)%nat then
                min ← Atoi (slice 1 (p1 + 1) s);
                max ← Atoi (slice (p1 + 2) (p2 + 1) s);
                Some (mkWildcard (from (p2 + 2) s) min max)
              else None
          | _, _ => None
          end in
        match exact with
        | Some w => Ok w
        | None => Ok (default plain ranged)
        end
      else Ok plain
  end.

(** The state of the loop of [add] that separates padding from
    variables: the two arrays, [key] and [in]. *)
Definition parts_state : Type :=
  list (list string) * list Wildcard * nat * bool.

Definition parts_step (st : parts_state) (value : string)
  : result parts_state :=
  let '(paddings, variables, key, inside) := st in
  if negb inside then
    if (key <? length paddings)%nat
    then Ok (<[key := splitPad value]> paddings, variables, key, true)
    else Panic
  else
    w ← decodeWildcard value;
    if (key <? length variables)%nat
    then Ok (paddings, <[key := w]> variables, S key, false)
    else Panic.

(** The segment compiler inside [add]: from the parts of an element to
    its padding groups and wildcards. *)
Definition compile (parts : list string)
  : result (list (list string) * list Wildcard) :=
  let variables := replicate (length parts / 2) (mkWildcard "" 0 0) in
  let paddings :=
    replicate (length variables + length parts mod 2)%nat ([] : list string) in
  '(paddings, variables, _, _) ← rfold parts_step
      (paddings, variables, O, false) parts;
  Ok (paddings, variables).

(** The map key of an element: its text without one trailing [';']. *)
Definition edge_key (el : string) : string :=
  if decide (last_byte el = Some ";"%char) then chop el else el.

(** ** Trie builder *)

(** [func (n *Node) addEdge(...) *Node]: the edge is stored under
    [representation]; the new node's [parent] points to the edge. *)
Definition addEdge (n : Node) (padding : list (list string))
    (wildcards : list Wildcard) (representation : string) (wildend : bool)
    (order : Z) : Node * Edge :=
  let child :=
    mkNode ∅ None None 0 (mkEdgeUp padding wildcards wildend :: nparent n) in
  let element := mkEdge child padding wildcards wildend order in
  (set_edges n (<[representation := element]> (edges n)), element).

(** [len(el) > 0 && el[0] == '*']: the name [el[1:]] of a star element. *)
Definition star_name (el : string) : option string :=
  match el with
  | String c name => if bool_decide (c = "*"%char) then Some name else None
  | EmptyString => None
  end.

(** [func (n *Node) add(order, elements, wildcards, slashend, val)].
    The result is the node after the call, the returned leaf and the
    returned error. *)
Fixpoint add (elements : list string) (n : Node) (order : Z)
    (wildcards : list Wildcard) (slashend : bool) (val : V)
  : result (Node * option Leaf * option error) :=
  match elements with
  | [] =>
      match leaf n with
      | Some _ => Ok (n, None, Some ErrDuplicatePath)
      | None =>
          let l := mkLeaf val wildcards order (Some (nparent n)) slashend in
          Ok (set_leaf n l, Some l, None)
      end
  | el :: elements' =>
      match star_name el with
      | Some name =>
          match star n with
          | Some _ => Ok (n, None, Some ErrDuplicatePath)
          | None =>
              let l := mkLeaf val (wildcards ++ [mkWildcard name 0 0]) order
                         (Some (nparent n)) slashend in
              Ok (set_star n l, Some l, None)
          end
      | None =>
          let el := edge_key el in
          '(paddings, variables) ← compile (splitInput el);
          let wildend := bool_decide (length paddings = length variables) in
          let '(n, item) :=
            match edges n !! el with
            | Some item => (n, item)
            | None => addEdge n paddings variables el wildend order
            end in
          (* [item] is a copy of the map entry: lowering [item.minorder]
             changes the copy, never the entry of [n.edges] *)
          let item' :=
            if order <? minorder item then set_minorder item order
            else item in
          '(child, l, err) ← add elements' (node item') order
              (wildcards ++ variables) slashend val;
          (* the entry's [node] pointer sees the mutated child *)
          Ok (set_edges n (<[el := set_node item child]> (edges n)), l, err)
      end
  end.

(** [func (n *Node) Add(key string, val interface{})]; [key[0]]
    panics on the empty key. *)
Definition Add (n : Node) (key : string) (val : V)
  : result (Node * option Leaf * option error) :=
  match key with
  | EmptyString => Panic
  | String c _ =>
      if bool_decide (c ≠ "/"%char) then Ok (n, None, Some ErrInvalidPattern)
      else
        let n := set_leafs n (int_wrap (leafs n + 1)) in
        '(elements, slashend) ← splitPath key;
        add elements n (leafs n) [] slashend val
  end.

(** ** Matcher *)

(** [range n.edges] visits the entries in an unspecified order, which
    may differ from one run to the next.  An iteration order is any
    enumeration of the entries; [find] takes it as a parameter. *)
Record MapOrder : Type := mkMapOrder {
  range : gmap string Edge -> list (string * Edge);
  range_perm : forall m, range m ≡ₚ map_to_list m
}.

(** [(item.Min != 0 && x < item.Min) || (item.Max != 0 && x > item.Max)] *)
Definition out_of_bounds (item : Wildcard) (x : Z) : bool :=
  (negb (Min item =? 0) && (x <? Min item))
  || (negb (Max item =? 0) && (Max item <? x)).

(** [leaf == nil || leaf.order > cand.order] *)
Definition improves (leaf : option Leaf) (cand : Leaf) : bool :=
  match leaf with
  | None => true
  | Some l => order cand <? order l
  end.

(** The state of the padding loops of [find]: [input], [variables]
    and [found]. *)
Definition pad_state : Type := string * list string * bool.

(** [for _, pad := range pads]: the alternatives of padding group
    [count], tried in order until one is accepted. *)
Fixpoint find_pads (value : Edge) (count : nat) (pads : list string)
    (st : pad_state) : result pad_state :=
  match pads with
  | [] => Ok st
  | pad :: pads' =>
      let '(input, variables, _) := st in
      match Index input pad with
      | None => find_pads value count pads' (input, variables, false)
      | Some pos =>
          if bool_decide (count = O) && (0 <? pos)%nat
          then find_pads value count pads' (input, variables, false)
          else if bool_decide (count ≠ O) then
            match wildcards value !! (count - 1)%nat with
            | None => Panic
            | Some item =>
                if out_of_bounds item (Z.of_nat pos)
                then find_pads value count pads' (input, variables, false)
                else Ok (from (pos + String.length pad) input,
                         variables ++ [upto pos input], true)
            end
          else Ok (from (pos + String.length pad) input, variables, true)
      end
  end.

(** [for count, pads := range value.padding], left at the first group
    none of whose alternatives is accepted. *)
Fixpoint find_padding (value : Edge) (count : nat)
    (padding : list (list string)) (st : pad_state) : result pad_state :=
  match padding with
  | [] => Ok st
  | pads :: padding' =>
      st ← find_pads value count pads st;
      if (st : pad_state).2 then find_padding value (S count) padding' st
      else Ok st
  end.

(** The body of the edge loop of [find] up to the recursive call: the
    values bound by [value] in the element [el], if it accepts [el]. *)
Definition find_edge (value : Edge) (el : string)
  : result (option (list string)) :=
  '(input, variables, found) ←
    find_padding value 0 (padding value) (el, [], false);
  if negb found then Ok None
  else if wildend value then
    match wildcards value !! (length (wildcards value) - 1)%nat with
    | None => Panic
    | Some item =>
        if out_of_bounds item (len input) then Ok None
        else Ok (Some (variables ++ [input]))
    end
  else Ok (Some variables).

(** The best match so far: the named results [leaf] and [expansions]. *)
Definition match_state : Type := option Leaf * list string.

(** The body of [for _, value := range n.edges]; [recur] is the call
    [value.node.find(elements, _)] on the remaining elements. *)
Definition find_step
    (recur : Node -> list string -> result match_state)
    (el : string) (exp : list string)
    (best : match_state) (kv : string * Edge) : result match_state :=
  let value := kv.2 in
  if match best.1 with
     | Some l => order l <? minorder value
     | None => false
     end
  then Ok best
  else
    m ← find_edge value el;
    match m with
    | None => Ok best
    | Some variables =>
        '(testleaf, testexpansions) ← recur (node value) (exp ++ variables);
        match testleaf with
        | Some tl =>
            if improves best.1 tl then Ok (Some tl, testexpansions)
            else Ok best
        | None => Ok best
        end
    end.

(** The star of [n], taken before the edges: [leaf] is still [nil]
    there, so a star is always the first candidate. *)
Definition find_star (n : Node) (elements exp : list string) : match_state :=
  let starExpansion :=
    match star n with
    | Some _ => Join elements "/"
    | None => ""
    end in
  let best : match_state := (None, []) in
  match star n with
  | Some s =>
      if improves best.1 s then (Some s, exp ++ [starExpansion]) else best
  | None => best
  end.

(** [func (n *Node) find(elements, exp []string)].  Expansions are
    lists here and [append(exp, ...)] is concatenation, so that two
    edges of one node each extend a copy of their own of [exp].  In Go
    they share the backing array of [exp], and the values of a leaf
    found first can be written over by an edge visited later.  This
    model is exact for the leaf that [find] returns and for the number
    of expansions; for their values see [Slices.find] below, which has
    the backing arrays. *)
Fixpoint find (R : MapOrder) (elements : list string) (n : Node)
    (exp : list string) : result match_state :=
  match elements with
  | [] => Ok (leaf n, exp)
  | el :: elements' =>
      rfold (find_step (find R elements') el exp)
        (find_star n elements exp) (range R (edges n))
  end.

(** [func (n *Node) Find(key string)] *)
Definition Find (R : MapOrder) (n : Node) (key : string)
  : result match_state :=
  match key with
  | EmptyString => Ok (None, [])
  | String c _ =>
      if bool_decide (c ≠ "/"%char) then Ok (None, [])
      else
        '(elements, _) ← splitPath key;
        find R elements n []
  end.

(** ** Reverser *)


Definition map_get (h : store) (r : mapref) (k : string) : option string :=
  m ← h !! r; m !! k.
Definition map_delete (h : store) (r : mapref) (k : string) : store :=
  alter (delete k) r h.

(** ["[" + Itoa(Min) + "," + Itoa(Max) + "]" + Name] *)
Definition descriptor (value : Wildcard) : string :=
  "[" +:+ Itoa (Min value) +:+ "," +:+ Itoa (Max value) +:+ "]"
      +:+ Name value.

(** [groups[i][0]] *)
Definition first_of {A : Type} (groups : list (list A)) (i : nat) : result A :=
  match groups !! i with
  | Some (x :: _) => Ok x
  | _ => Panic
  end.

(** The state of the wildcard loop of [reverse]: [output], [missed],
    the store and the index [key]. *)
Definition rev_state : Type := string * list string * store * nat.

(** The body of [for key, value := range edge.wildcards]. *)
Definition reverse_step (edge : EdgeUp) (variables : mapref)
    (st : rev_state) (value : Wildcard) : result rev_state :=
  let '(output, missed, h, key) := st in
  let '(item, ok, missed) :=
    match map_get h variables (Name value) with
    | Some item =>
        if out_of_bounds value (len item)
        then ("", false, missed ++ [descriptor value])
        else (item, true, missed)
    | None => ("", false, missed ++ [descriptor value])
    end in
  pad ← first_of (up_padding edge) key;
  let output := (output +:+ pad) +:+ item in
  let h := if (ok : bool) then map_delete h variables (Name value) else h in
  Ok (output, missed, h, S key).

(** [func (n *Node) reverse(exp, variables, missed, slashend)] *)
Fixpoint reverse (n : NodeRef) (exp : string) (variables : mapref)
    (missed : list string) (slashend : bool) (h : store)
  : result (string * mapref * list string * store) :=
  match n with
  | [] => Ok (if slashend then exp +:+ "/" else exp, variables, missed, h)
  | edge :: up =>
      '(output, missed, h, _) ←
        rfold (reverse_step edge variables) ("", missed, h, O)
          (up_wildcards edge);
      exp ←
        (if up_wildend edge then Ok (("/" +:+ output) +:+ exp)
         else
           pad ← first_of (up_padding edge) (length (up_padding edge) - 1);
           Ok ((("/" +:+ output) +:+ pad) +:+ exp));
      reverse up exp variables missed slashend h
  end.

(** [func (n *Node) Reverse(leaf *Leaf, variables map[string]string)];
    the receiver is not used. *)
Definition Reverse (n : Node) (leaf : option Leaf) (variables : mapref)
    (h : store) : result (string * mapref * list string * store) :=
  match leaf with
  | None => Ok ("", variables, [], h)
  | Some l =>
      match parent l with
      | None => Ok ("", variables, [], h)
      | Some p => reverse p "" variables [] (slashend l) h
      end
  end.

End PathTree.

(** * Properties *)

(** ** The outcome monad and loops *)

Lemma bind_Ok {A B : Type} (m : result A) (f : A -> result B) (b : B) :
  m ≫= f = Ok b -> exists a, m = Ok a /\ f a = Ok b.
Proof. destruct m as [a|]; [eauto | discriminate]. Qed.

Ltac inv_bind H :=
  let a := fresh "a" in
  let Ha := fresh "Ha" in
  apply bind_Ok in H; destruct H as (a & Ha & H).

(** A loop invariant indexed by the number of iterations done. *)
Lemma rfold_ind {A S : Type} (P : nat -> S -> Prop)
    (body : S -> A -> result S) (l : list A) (s s' : S) :
  P O s ->
  (forall j s x s', l !! j = Some x -> P j s -> body s x = Ok s' -> P (Datatypes.S j) s') ->
  rfold body s l = Ok s' ->
  P (length l) s'.
Proof.
  revert P s. induction l as [|x l IH]; intros P s H0 Hstep Hrun; simpl in *.
  - by injection Hrun as <-.
  - inv_bind Hrun.
    apply (IH (fun j => P (Datatypes.S j)) a); [| |done].
    + by apply (Hstep O s x a).
    + intros j s1 y s2 Hj. by apply (Hstep (Datatypes.S j)).
Qed.

(** A loop whose body cannot panic on the states of an invariant
    returns. *)
Lemma rfold_total {A S : Type} (P : nat -> S -> Prop)
    (body : S -> A -> result S) (l : list A) (s : S) :
  P O s ->
  (forall j s x, l !! j = Some x -> P j s ->
     exists s', body s x = Ok s' /\ P (Datatypes.S j) s') ->
  exists s', rfold body s l = Ok s' /\ P (length l) s'.
Proof.
  revert P s. induction l as [|x l IH]; intros P s H0 Hstep; simpl.
  - eauto.
  - destruct (Hstep O s x eq_refl H0) as (s1 & -> & H1). simpl.
    apply (IH (fun j => P (Datatypes.S j)) s1); [done|].
    intros j s2 y Hj. by apply (Hstep (Datatypes.S j)).
Qed.

(** ** Byte strings *)

Lemma prefix_Index (s p : string) : String.prefix p s = true -> Index s p = Some O.
Proof. intros H. destruct s; simpl in *; by rewrite H. Qed.

Lemma prefix_refl (s : string) : String.prefix s s = true.
Proof. induction s as [|c s IH]; simpl; [done|]. by destruct (ascii_dec c c). Qed.

Lemma prefix_upto (j : nat) (s : string) : String.prefix (upto j s) s = true.
Proof.
  revert s. induction j as [|j IH]; intros [|c s]; simpl; try done.
  destruct (ascii_dec c c); [apply IH | done].
Qed.

Lemma prefix_trans (a b c : string) :
  String.prefix a b = true -> String.prefix b c = true -> String.prefix a c = true.
Proof.
  revert b c. induction a as [|x a IH]; intros [|y b] [|z c]; simpl; try done.
  destruct (ascii_dec x y) as [->|]; [|done].
  destruct (ascii_dec y z) as [->|]; [|done].
  apply IH.
Qed.

Lemma from_0 (s : string) : from 0 s = s.
Proof. by destruct s. Qed.

Lemma slice_0 (j : nat) (s : string) : slice 0 j s = upto j s.
Proof. unfold slice. by rewrite Nat.sub_0_r, from_0. Qed.

(** ** The pattern compiler *)

Section Compiler.

(** What the loop of [splitPad] keeps true of the first slot: before
    the first ['|'] nothing is written and [start] is [0]; afterwards
    the first slot holds a prefix of [s]. *)
Definition head_inv (s : string) (na start : nat) (a : list string) : Prop :=
  (na = O /\ start = O) \/ (1 <= na /\ exists j, a !! O = Some (upto j s))%nat.

Lemma splitPad_loop_inv n s rest i start na a a' na' start' :
  length a = n -> (na < n)%nat -> head_inv s na start a ->
  splitPad_loop n s rest i start na a = (a', na', start') ->
  length a' = n /\ (na' < n)%nat /\ head_inv s na' start' a'.
Proof.
  revert i start na a. induction rest as [|c rest IH]; intros i start na a Hlen Hna Hh Hrun;
    simpl in Hrun.
  - by simplify_eq.
  - destruct (na + 1 <? n)%nat eqn:Hlt; [|by simplify_eq].
    apply Nat.ltb_lt in Hlt.
    destruct (bool_decide (c = "|"%char)).
    + apply IH in Hrun; [done| by rewrite length_insert | lia |].
      right. split; [lia|].
      destruct Hh as [[-> ->]|[Hge [j Hj]]].
      * exists i. rewrite slice_0. apply list_lookup_insert_eq. lia.
      * exists j. rewrite list_lookup_insert_ne; [done | lia].
    + by apply IH in Hrun.
Qed.

(** [splitPad] returns at least one alternative, and the first one is
    a prefix of its argument. *)
Lemma splitPad_head (s : string) :
  exists p ps, splitPad s = p :: ps /\ String.prefix p s = true.
Proof.
  unfold splitPad. destruct (decide (s = "")) as [->|_]; [by exists "", []|].
  set (n := (Count s "|" + 1)%nat).
  destruct (splitPad_loop n s s 0 0 0 (replicate n "")) as [[a na] start] eqn:Hrun.
  apply splitPad_loop_inv in Hrun as (Hlen & Hna & Hh);
    [| by rewrite length_replicate | unfold n; lia | by left].
  destruct Hh as [[-> ->]|[Hge [j Hj]]].
  - destruct a as [|x a]; [simpl in Hlen; lia|].
    exists s, []. simpl. rewrite take_0. split; [done | apply prefix_refl].
  - destruct a as [|x a]; [simpl in Hlen; lia|].
    destruct na as [|na]; [lia|]. simpl in *. simplify_eq.
    eexists _, _. split; [done | apply prefix_upto].
Qed.

Lemma splitPad_nonempty (s : string) : splitPad s <> [].
Proof. destruct (splitPad_head s) as (p & ps & -> & _). done. Qed.

Lemma splitInput_loop_length n s rest i start na inside a a' na' start' :
  splitInput_loop n s rest i start na inside a = (a', na', start') ->
  length a' = length a.
Proof.
  revert i start na inside a. induction rest as [|c rest IH];
    intros i start na inside a Hrun; simpl in Hrun.
  - by simplify_eq.
  - destruct (na + 1 <? n)%nat; [|by simplify_eq].
    destruct (_ || _); apply IH in Hrun; [by rewrite length_insert in Hrun | done].
Qed.

(** [splitInput] returns at least one part. *)
Lemma splitInput_nonempty (s : string) : splitInput s <> [].
Proof.
  unfold splitInput. destruct (decide (s = "")) as [|_]; [done|].
  set (n := (_ + 1)%nat).
  destruct (splitInput_loop n s s 0 0 0 false (replicate n "")) as [[a na] start] eqn:Hrun.
  apply splitInput_loop_length in Hrun. rewrite length_replicate in Hrun.
  destruct a as [|x a]; [simpl in Hrun; lia|].
  destruct na; simpl; done.
Qed.

(** Without a [':'] the loop of [splitInput] never leaves the padding
    state, so nothing is split off. *)
Lemma splitInput_loop_plain n s rest i start na a :
  Count rest ":" = O ->
  splitInput_loop n s rest i start na false a = (a, na, start).
Proof.
  revert i. induction rest as [|c rest IH]; intros i Hc; simpl in *; [done|].
  destruct (decide (c = ":"%char)) as [->|Hne]; [lia|].
  destruct (na + 1 <? n)%nat; [|done].
  rewrite (bool_decide_eq_false_2 _ Hne). rewrite andb_false_r. simpl.
  apply IH. lia.
Qed.

Lemma splitInput_plain (s : string) : Count s ":" = O -> splitInput s = [s].
Proof.
  intros Hc. unfold splitInput. destruct (decide (s = "")) as [->|_]; [done|].
  rewrite splitInput_loop_plain by done.
  rewrite Hc. simpl. rewrite Nat.add_1_r. simpl. by rewrite take_0.
Qed.

(** The invariant of the loop of [add] after [j] parts: the arrays
    keep their lengths, [key] and [in] count the parts seen, and every
    padding slot below the current one holds a non-empty group. *)
Definition parts_inv (np nv : nat) (j : nat) (st : parts_state) : Prop :=
  let '(paddings, variables, key, inside) := st in
  length paddings = np /\ length variables = nv /\
  (2 * key + (if inside then 1 else 0) = j)%nat /\
  forall i, (i < key + (if inside then 1 else 0))%nat ->
    exists g, paddings !! i = Some g /\ g <> [].

Lemma parts_step_inv np nv j st value st' :
  parts_inv np nv j st -> parts_step st value = Ok st' ->
  parts_inv np nv (S j) st'.
Proof.
  destruct st as [[[paddings variables] key] inside].
  intros (Hp & Hv & Hj & Hg) Hstep. unfold parts_step in Hstep.
  destruct inside; simpl in Hstep.
  - inv_bind Hstep. destruct (key <? length variables)%nat; [|done].
    simplify_eq. simpl. rewrite length_insert.
    repeat split; try done; try lia.
    intros i Hi. apply Hg. lia.
  - destruct (key <? length paddings)%nat eqn:Hlt; [|done].
    apply Nat.ltb_lt in Hlt. simplify_eq. simpl. rewrite length_insert.
    repeat split; try done; try lia.
    intros i Hi. destruct (decide (i = key)) as [->|Hne].
    + exists (splitPad value). split; [by apply list_lookup_insert_eq | apply splitPad_nonempty].
    + rewrite list_lookup_insert_ne by done. apply Hg. lia.
Qed.

(** The shape of a compiled segment. *)
Definition edge_ok (padding : list (list string)) (wildcards : list Wildcard)
    (wildend : bool) : Prop :=
  length padding = (length wildcards + (if wildend then 0 else 1))%nat /\
  padding <> [] /\
  Forall (fun g => g <> []) padding.

Lemma compile_ok parts paddings variables :
  parts <> [] ->
  compile parts = Ok (paddings, variables) ->
  edge_ok paddings variables (bool_decide (length paddings = length variables)).
Proof.
  intros Hne Hc. unfold compile in Hc. inv_bind Hc.
  destruct a as [[[p v] key] inside]. simplify_eq.
  set (nv := (length parts / 2)%nat) in *.
  set (np := (length (replicate nv (mkWildcard "" 0 0)) + length parts mod 2)%nat) in *.
  apply (rfold_ind (parts_inv np nv)) in Ha.
  2:{ simpl. rewrite !length_replicate. repeat split; try done. intros i Hi. lia. }
  2:{ intros j s x s' _. apply parts_step_inv. }
  destruct Ha as (Hp & Hv & Hj & Hg).
  unfold np in Hp. rewrite length_replicate in Hp. fold nv in Hp.
  assert (Hlen : (0 < length parts)%nat) by (destruct parts; [done | simpl; lia]).
  pose proof (Nat.div_mod_eq (length parts) 2) as Hdm.
  pose proof (Nat.mod_upper_bound (length parts) 2) as Hmod.
  assert (Hfill : (key + (if inside then 1 else 0) = length paddings)%nat).
  { destruct inside; unfold nv in *; lia. }
  split; [|split].
  - case_bool_decide; unfold nv in *; lia.
  - destruct paddings; [|done]. simpl in *. unfold nv in *. lia.
  - apply Forall_lookup. intros i g Hi.
    destruct (Hg i) as (g' & Hg' & Hne'); [apply lookup_lt_Some in Hi; lia|].
    by simplify_eq.
Qed.

(** A segment without [':'] compiles to one padding group and no
    wildcard. *)
Lemma compile_plain (s : string) :
  compile [s] = Ok ([splitPad s], []).
Proof. done. Qed.

End Compiler.

(** ** Invariants of the trie *)

Section Invariants.

Context {V : Type}.
Implicit Types (n : @Node V) (e : @Edge V) (l : @Leaf V).

Definition up_ok (u : EdgeUp) : Prop :=
  edge_ok (up_padding u) (up_wildcards u) (up_wildend u).

(** The edge stored under a key is the compilation of that key. *)
Definition compiled (k : string) e : Prop :=
  compile (splitInput k) = Ok (padding e, wildcards e) /\
  wildend e = bool_decide (length (padding e) = length (wildcards e)).

(** The wildcards met from the root down to the node a chain starts at. *)
Definition chain_wildcards (p : NodeRef) : list Wildcard :=
  concat (up_wildcards <$> rev p).

(** [wf lo hi n]: every order stored in the subtree of [n] lies in
    [lo..hi]; the [minorder] of an edge is a lower bound of the orders
    below it; edges are the compilation of their keys; parent chains
    and wildcard lists agree with the position in the tree. *)
Inductive wf (lo hi : Z) : Node -> Prop :=
  | wf_intro n :
      Forall up_ok (nparent n) ->
      (forall l, leaf n = Some l ->
         lo <= order l <= hi /\ parent l = Some (nparent n) /\
         Wildcards l = chain_wildcards (nparent n)) ->
      (forall l, star n = Some l ->
         lo <= order l <= hi /\ parent l = Some (nparent n) /\
         exists name,
           Wildcards l = chain_wildcards (nparent n) ++ [mkWildcard name 0 0]) ->
      (forall k e, edges n !! k = Some e ->
         compiled k e /\ Count k "/" = O /\ lo <= minorder e <= hi /\
         nparent (node e) = edge_up e :: nparent n) ->
      (forall k e, edges n !! k = Some e -> wf (minorder e) hi (node e)) ->
      wf lo hi n.

Lemma wf_mono lo hi lo' hi' n :
  wf lo hi n -> lo' <= lo -> hi <= hi' -> wf lo' hi' n.
Proof.
  intros Hwf. revert lo'. induction Hwf as [lo hi n Hup Hl Hs He Hc IH].
  intros lo' Hlo Hhi. constructor; [done | | | |].
  - intros l Hll. destruct (Hl l Hll) as (? & ? & ?). split; [lia | done].
  - intros l Hll. destruct (Hs l Hll) as (? & ? & ?). split; [lia | done].
  - intros k e Hk. destruct (He k e Hk) as (? & ? & ? & ?).
    split; [done|]. split; [done|]. split; [lia | done].
  - intros k e Hk. apply (IH k e Hk); lia.
Qed.

Lemma wf_edge lo hi n k e :
  wf lo hi n -> edges n !! k = Some e ->
  compiled k e /\ lo <= minorder e <= hi /\ wf (minorder e) hi (node e).
Proof.
  intros Hwf Hk. inversion Hwf as [? _ _ _ He Hc]; subst.
  destruct (He k e Hk) as (? & ? & ? & ?). eauto.
Qed.

Lemma compiled_ok k e : compiled k e -> edge_ok (padding e) (wildcards e) (wildend e).
Proof.
  intros [Hc ->]. apply (compile_ok (splitInput k)); [apply splitInput_nonempty | done].
Qed.

Lemma wf_New lo hi p : Forall up_ok p -> wf lo hi (mkNode ∅ None None 0 p).
Proof. intros Hp. constructor; simpl; try done. Qed.

(** The edge [addEdge] stores for a compiled segment. *)
Definition new_edge n (paddings : list (list string))
    (variables : list Wildcard) (o : Z) : @Edge V :=
  let wildend := bool_decide (length paddings = length variables) in
  mkEdge (mkNode ∅ None None 0 (mkEdgeUp paddings variables wildend :: nparent n))
    paddings variables wildend o.

(** One level of [add] on an element that is not a star: the edge
    taken is the stored one if there is one, a new one otherwise, and
    the entry is rewritten with the child the recursive call returns. *)
Lemma add_edge_eq el els n o ws se (v : V) :
  star_name el = None ->
  add (el :: els) n o ws se v =
    ('(paddings, variables) ← compile (splitInput (edge_key el));
     let item := default (new_edge n paddings variables o)
                   (edges n !! edge_key el) in
     '(child, l, err) ← add els (node item) o (ws ++ variables) se v;
     Ok (set_edges n (<[edge_key el := set_node item child]> (edges n)), l, err)).
Proof.
  intros Hs. simpl. rewrite Hs.
  destruct (compile (splitInput (edge_key el))) as [[paddings variables]|]; [|done].
  simpl. destruct (edges n !! edge_key el) as [item|] eqn:Hk; simpl.
  - by destruct (o <? minorder item).
  - rewrite Z.ltb_irrefl. simpl.
    destruct (add els _ o (ws ++ variables) se v) as [[[child l] err]|]; [|done].
    simpl. by rewrite insert_insert_eq.
Qed.

Lemma add_nil_eq n o ws se (v : V) :
  add [] n o ws se v =
    match leaf n with
    | Some _ => Ok (n, None, Some ErrDuplicatePath)
    | None =>
        let l := mkLeaf v ws o (Some (nparent n)) se in
        Ok (set_leaf n l, Some l, None)
    end.
Proof. done. Qed.

Lemma add_star_eq el name els n o ws se (v : V) :
  star_name el = Some name ->
  add (el :: els) n o ws se v =
    match star n with
    | Some _ => Ok (n, None, Some ErrDuplicatePath)
    | None =>
        let l := mkLeaf v (ws ++ [mkWildcard name 0 0]) o (Some (nparent n)) se in
        Ok (set_star n l, Some l, None)
    end.
Proof. intros Hs. simpl. by rewrite Hs. Qed.

(** The three cases of [add], for proofs by induction on the elements. *)
Lemma add_cases els n o ws se (v : V) n' ol err :
  add els n o ws se v = Ok (n', ol, err) ->
  (els = [] /\
     ((exists l0, leaf n = Some l0 /\ n' = n /\ ol = None /\
                  err = Some ErrDuplicatePath) \/
      (leaf n = None /\ ol = Some (mkLeaf v ws o (Some (nparent n)) se) /\
       n' = set_leaf n (mkLeaf v ws o (Some (nparent n)) se) /\ err = None))) \/
  (exists el els' name, els = el :: els' /\ star_name el = Some name /\
     ((exists l0, star n = Some l0 /\ n' = n /\ ol = None /\
                  err = Some ErrDuplicatePath) \/
      (star n = None /\
       ol = Some (mkLeaf v (ws ++ [mkWildcard name 0 0]) o (Some (nparent n)) se) /\
       n' = set_star n
              (mkLeaf v (ws ++ [mkWildcard name 0 0]) o (Some (nparent n)) se) /\
       err = None))) \/
  (exists el els' paddings variables item child,
     els = el :: els' /\ star_name el = None /\
     compile (splitInput (edge_key el)) = Ok (paddings, variables) /\
     item = default (new_edge n paddings variables o) (edges n !! edge_key el) /\
     add els' (node item) o (ws ++ variables) se v = Ok (child, ol, err) /\
     n' = set_edges n (<[edge_key el := set_node item child]> (edges n))).
Proof.
  destruct els as [|el els'].
  - rewrite add_nil_eq. intros H. left. split; [done|].
    destruct (leaf n) as [l0|] eqn:Hl; cbv zeta in H; simplify_eq;
      [left; eauto | right; eauto].
  - destruct (star_name el) as [name|] eqn:Hs.
    + rewrite (add_star_eq _ name) by done. intros H. right; left.
      exists el, els', name. do 2 (split; [done|]).
      destruct (star n) as [l0|] eqn:Hl; cbv zeta in H; simplify_eq;
        [left; eauto | right; eauto].
    + rewrite add_edge_eq by done. intros H. right; right.
      inv_bind H. destruct a as [paddings variables]. simpl in H.
      inv_bind H. destruct a as [[child l0] err0]. simplify_eq.
      eexists el, els', paddings, variables, _, child. eauto 10.
Qed.

(** [add] never touches the [parent] of its receiver. *)
Lemma add_nparent els n o ws se (v : V) n' ol err :
  add els n o ws se v = Ok (n', ol, err) -> nparent n' = nparent n.
Proof.
  intros H. apply add_cases in H.
  destruct H as [(_ & [H|H]) | [(el & els' & name & _ & _ & [H|H]) | H]].
  - by destruct H as (? & ? & -> & ?).
  - by destruct H as (? & ? & -> & ?).
  - by destruct H as (? & ? & -> & ?).
  - by destruct H as (? & ? & -> & ?).
  - by destruct H as (? & ? & ? & ? & ? & ? & ? & ? & ? & ? & ? & ->).
Qed.

Lemma chain_wildcards_cons (u : EdgeUp) (p : NodeRef) :
  chain_wildcards (u :: p) = chain_wildcards p ++ up_wildcards u.
Proof.
  unfold chain_wildcards. simpl. rewrite fmap_app, concat_app. simpl.
  by rewrite app_nil_r.
Qed.

Lemma Count_upto (j : nat) (s : string) (c : ascii) :
  Count s c = O -> Count (upto j s) c = O.
Proof.
  revert s. induction j as [|j IH]; intros [|x s]; simpl; try done.
  destruct (decide (x = c)); [lia|]. simpl. apply IH.
Qed.

Lemma Count_edge_key (el : string) (c : ascii) :
  Count el c = O -> Count (edge_key el) c = O.
Proof.
  intros H. unfold edge_key. destruct (decide _); [|done]. by apply Count_upto.
Qed.

(** The edge [add] descends through: stored or new, it satisfies the
    invariant of the edges of [n]. *)
Lemma add_item_wf lo hi n k paddings variables o item :
  wf lo hi n -> lo <= o -> hi <= o ->
  compile (splitInput k) = Ok (paddings, variables) ->
  item = default (new_edge n paddings variables o) (edges n !! k) ->
  compiled k item /\ lo <= minorder item <= o /\
  nparent (node item) = edge_up item :: nparent n /\
  wf (minorder item) o (node item) /\ variables = wildcards item.
Proof.
  intros Hwf Hlo Hhi Hc ->. inversion Hwf as [? Hup Hl Hs He Hch]; subst.
  destruct (edges n !! k) as [e0|] eqn:Hk; simpl.
  - destruct (He k e0 Hk) as ([Hc0 Hw0] & _ & Hb & Hp).
    rewrite Hc in Hc0. simplify_eq.
    split; [by split|]. split; [lia|]. split; [done|]. split; [|done].
    eapply wf_mono; [by apply (Hch k) | lia | done].
  - split; [by split|]. split; [lia|]. split; [done|]. split; [|done].
    apply wf_New. constructor; [|done].
    apply (compile_ok (splitInput k)); [apply splitInput_nonempty | done].
Qed.

(** [add] with an order at least as large as every stored one keeps
    the invariant. *)
Lemma add_wf els n o ws se (v : V) lo hi n' ol err :
  wf lo hi n -> lo <= o -> hi <= o ->
  ws = chain_wildcards (nparent n) ->
  Forall (fun el => Count el "/" = O) els ->
  add els n o ws se v = Ok (n', ol, err) ->
  wf lo o n'.
Proof.
  revert n ws lo hi n' ol err.
  induction els as [|el0 els0 IH]; intros n ws lo hi n' ol err Hwf Hlo Hhi Hws Hsl Hadd.
  all: assert (Hwf' : wf lo o n) by (eapply wf_mono; [done | lia | done]).
  all: inversion Hwf' as [? Hup Hl Hs He Hch]; subst.
  all: apply add_cases in Hadd.
  all: destruct Hadd as [(Hnil & [H|H]) | [(el & els' & name & Hcons & ? & [H|H])
                                          | (el & els' & H)]].
  all: try discriminate Hnil; try discriminate Hcons.
  - by destruct H as (? & ? & -> & ?).
  - destruct H as (Hnone & -> & -> & ->).
    constructor; simpl; try done.
    intros l ?. simplify_eq. simpl. split; [lia | done].
  - destruct H as (? & ? & ? & ? & H & _). discriminate H.
  - by destruct H as (? & ? & -> & ?).
  - destruct H as (Hnone & -> & -> & ->).
    constructor; simpl; try done.
    intros l ?. simplify_eq. simpl. split; [lia|]. split; [done|]. by exists name.
  - destruct H as (paddings & variables & item & child
                     & ? & Hst & Hc & Hitem & Hrec & ->).
    simplify_eq. apply Forall_cons in Hsl as [Hel Hels].
    destruct (add_item_wf lo hi n (edge_key el) paddings variables o _
                Hwf Hlo Hhi Hc eq_refl) as (Hcomp & Hb & Hp & Hwfi & Hv).
    set (item := default _ _) in *.
    assert (Hchild : wf (minorder item) o child).
    { eapply (IH (node item)); [apply Hwfi | lia | lia | | done | apply Hrec].
      rewrite Hp, chain_wildcards_cons. by rewrite Hv. }
    pose proof (add_nparent _ _ _ _ _ _ _ _ _ Hrec) as Hnp.
    constructor; simpl; [done | done | done | |].
    + intros k e Hk. destruct (decide (k = edge_key el)) as [->|Hne].
      * rewrite lookup_insert_eq in Hk. simplify_eq. simpl.
        split; [done|]. split; [by apply Count_edge_key|]. split; [done|].
        by rewrite Hnp, Hp.
      * rewrite lookup_insert_ne in Hk by done. by apply He.
    + intros k e Hk. destruct (decide (k = edge_key el)) as [->|Hne].
      * rewrite lookup_insert_eq in Hk. by simplify_eq.
      * rewrite lookup_insert_ne in Hk by done. by apply (Hch k).
Qed.

End Invariants.

(** ** Tries built by [Add] *)

Section Built.

Context {V : Type}.
Implicit Types (n t : @Node V) (e : @Edge V) (l : @Leaf V).

(** The tries reachable from [New()] by calls of [Add] on the root
    that return (with or without an error), fewer than [2^63] of them
    so that the insertion counter does not wrap around. *)
Inductive built : Node -> Prop :=
  | built_New : built New
  | built_Add t key (val : V) t' ol err :
      built t -> leafs t < max_int ->
      Add t key val = Ok (t', ol, err) ->
      built t'.

Lemma Split_no_sep (s : string) (sep : ascii) :
  Forall (fun x => Count x sep = O) (Split s sep).
Proof.
  induction s as [|c s IH]; simpl; [by constructor|].
  destruct (decide (c = sep)) as [->|Hne]; [by constructor|].
  destruct (Split s sep) as [|x xs]; simpl.
  - constructor; [|done]. simpl. by rewrite decide_False.
  - apply Forall_cons in IH as [Hx Hxs]. constructor; [|done].
    simpl. by rewrite decide_False.
Qed.

Lemma Forall_removelast {A : Type} (P : A -> Prop) (l : list A) :
  Forall P l -> Forall P (removelast l).
Proof.
  induction 1 as [|x l Hx Hl IH]; simpl; [done|].
  destruct l; [done|]. by constructor.
Qed.

Lemma splitPath_no_slash key elements se :
  splitPath key = Ok (elements, se) ->
  Forall (fun el => Count el "/" = O) elements.
Proof.
  unfold splitPath. intros H.
  pose proof (Split_no_sep key "/") as Hall.
  set (els := match Split key "/" with "" :: rest => rest | _ => Split key "/" end) in *.
  assert (Hels : Forall (fun el => Count el "/" = O) els).
  { unfold els. destruct (Split key "/") as [|x xs]; [done|].
    destruct x; [by apply Forall_cons in Hall as [_ ?] | done]. }
  destruct (last els) as [x|]; [|done].
  destruct x; simplify_eq; [by apply Forall_removelast | done].
Qed.

Lemma add_leafs els n o ws se (v : V) n' ol err :
  add els n o ws se v = Ok (n', ol, err) -> leafs n' = leafs n.
Proof.
  intros H. apply add_cases in H.
  destruct H as [(_ & [H|H]) | [(el & els' & name & _ & _ & [H|H]) | H]].
  - by destruct H as (? & ? & -> & ?).
  - by destruct H as (? & ? & -> & ?).
  - by destruct H as (? & ? & -> & ?).
  - by destruct H as (? & ? & -> & ?).
  - by destruct H as (? & ? & ? & ? & ? & ? & ? & ? & ? & ? & ? & ->).
Qed.

Lemma wf_set_leafs lo hi n c : wf lo hi n -> wf lo hi (set_leafs n c).
Proof. intros Hwf. inversion Hwf; subst. by constructor. Qed.

Lemma int_wrap_small (z : Z) : min_int <= z <= max_int -> int_wrap z = z.
Proof.
  unfold int_wrap, min_int, max_int. intros H.
  rewrite Z.mod_small; lia.
Qed.

(** The cases of a call of [Add] that returns. *)
Lemma Add_cases t key (val : V) t' ol err :
  Add t key val = Ok (t', ol, err) ->
  (t' = t /\ ol = None /\ err = Some ErrInvalidPattern /\
   begins "/" key = false) \/
  (exists elements se,
     begins "/" key = true /\
     splitPath key = Ok (elements, se) /\
     add elements (set_leafs t (int_wrap (leafs t + 1)))
       (int_wrap (leafs t + 1)) [] se val = Ok (t', ol, err)).
Proof.
  unfold Add. destruct key as [|c key]; [done|].
  case_bool_decide as Hc.
  - intros ?. simplify_eq. left. repeat split; try done.
    simpl. by apply bool_decide_eq_false_2.
  - intros H. right. subst c.
    inv_bind H. destruct a as [elements se]. exists elements, se.
    split; [by apply bool_decide_eq_true_2 | by split].
Qed.

(** What holds of every built trie: the counter is the number of
    calls so far that passed the check of the leading ['/'], and the
    invariant holds with the counter as the upper bound. *)
Definition root_inv t : Prop :=
  wf 1 (leafs t) t /\ 0 <= leafs t <= max_int /\ nparent t = [].

Lemma built_inv t : built t -> root_inv t.
Proof.
  induction 1 as [|t key val t' ol err Hb IH Hlt Hadd].
  - split; [|done]. by apply wf_New.
  - destruct IH as (Hwf & Hc & Hp).
    apply Add_cases in Hadd as [(-> & _)|(elements & se & _ & Hsp & Hadd)]; [done|].
    rewrite int_wrap_small in Hadd by (unfold min_int, max_int in *; lia).
    pose proof (add_leafs _ _ _ _ _ _ _ _ _ Hadd) as Hleafs.
    pose proof (add_nparent _ _ _ _ _ _ _ _ _ Hadd) as Hnp.
    simpl in Hleafs, Hnp. unfold root_inv. rewrite Hleafs, Hnp.
    split; [|split; [unfold max_int in *; lia | done]].
    eapply add_wf; [by apply wf_set_leafs, Hwf | lia | lia | by simpl; rewrite Hp
                   | by eapply splitPath_no_slash | done].
Qed.

End Built.

(** ** The matcher returns the earliest candidate *)

Section Matcher.

Context {V : Type}.
Implicit Types (n t : @Node V) (e value : @Edge V) (l : @Leaf V).
Implicit Types (best : @match_state V).

(** [matches n elements exp l exps]: the registered pattern of leaf
    [l] can match the elements below [n] — every element is accepted
    by the edge taken for it and the elements end at a node holding
    [l], or a star of a node on the way takes all that remains — and
    [exps] are the values bound on the way, after [exp]. *)
Inductive matches : Node -> list string -> list string -> Leaf -> list string -> Prop :=
  | matches_leaf n exp l :
      leaf n = Some l ->
      matches n [] exp l exp
  | matches_star n el els exp l :
      star n = Some l ->
      matches n (el :: els) exp l (exp ++ [Join (el :: els) "/"])
  | matches_edge n el els exp k e vars l exps :
      edges n !! k = Some e ->
      find_edge e el = Ok (Some vars) ->
      matches (node e) els (exp ++ vars) l exps ->
      matches n (el :: els) exp l exps.

Lemma find_pads_total value count pads (st : pad_state) :
  (count <> O -> is_Some (wildcards value !! (count - 1)%nat)) ->
  exists st', find_pads value count pads st = Ok st'.
Proof.
  intros Hw. revert st. induction pads as [|pad pads IH]; intros [[input variables] found];
    simpl; [eauto|].
  destruct (Index input pad) as [pos|]; [|apply IH].
  destruct (bool_decide (count = O) && (0 <? pos)%nat); [apply IH|].
  case_bool_decide as Hc; simpl; [|eauto].
  destruct (Hw Hc) as [item ->].
  destruct (out_of_bounds item (Z.of_nat pos)); [apply IH | eauto].
Qed.

Lemma find_padding_total value count padding (st : pad_state) :
  (count + length padding <= length (wildcards value) + 1)%nat ->
  exists st', find_padding value count padding st = Ok st'.
Proof.
  revert count st. induction padding as [|pads padding IH]; intros count st Hlen;
    simpl in *; [eauto|].
  destruct (find_pads_total value count pads st) as [st' ->].
  { intros Hc. apply lookup_lt_is_Some. lia. }
  simpl. destruct st' as [[input variables] found]. simpl.
  destruct found; [|eauto]. apply IH. lia.
Qed.

(** On a compiled edge the matcher never indexes out of range. *)
Lemma find_edge_total value el :
  edge_ok (padding value) (wildcards value) (wildend value) ->
  exists r, find_edge value el = Ok r.
Proof.
  intros (Hlen & Hne & _). unfold find_edge.
  destruct (find_padding_total value 0 (padding value) (el, [], false)) as [st ->].
  { destruct (wildend value); lia. }
  simpl. destruct st as [[input variables] found]. simpl.
  destruct found; simpl; [|eauto].
  destruct (wildend value) eqn:Hw; [|eauto].
  assert (Hs : is_Some (wildcards value !! (length (wildcards value) - 1)%nat)).
  { apply lookup_lt_is_Some. destruct (padding value); [done|]. simpl in Hlen. lia. }
  destruct Hs as [item ->].
  destruct (out_of_bounds item (len input)); eauto.
Qed.

(** Every leaf that can match below a node has an order of at least
    the lower bound of the node. *)
Lemma matches_lower lo hi n els exp l exps :
  wf lo hi n -> matches n els exp l exps -> lo <= order l.
Proof.
  intros Hwf Hm. revert lo Hwf.
  induction Hm as [n exp l Hl|n el els exp l Hs|n el els exp k e vars l exps Hk Hf Hm IH];
    intros lo Hwf.
  - inversion Hwf as [? _ H _ _ _]; subst. destruct (H l Hl) as (? & _). lia.
  - inversion Hwf as [? _ _ H _ _]; subst. destruct (H l Hs) as (? & _). lia.
  - destruct (wf_edge _ _ _ _ _ Hwf Hk) as (_ & Hb & Hwfe).
    specialize (IH _ Hwfe). lia.
Qed.

(** [lower best l']: the best match so far is at least as early as [l']. *)
Definition lower best l' : Prop :=
  exists l, best.1 = Some l /\ order l <= order l'.

Definition sound n els exp best : Prop :=
  forall l, best.1 = Some l -> matches n els exp l best.2.

(** What [find] returns: the earliest of the leaves that can match,
    with the values bound on the way to it; no leaf when none can. *)
Definition earliest n els exp best : Prop :=
  match best.1 with
  | Some l =>
      matches n els exp l best.2 /\
      forall l' exps', matches n els exp l' exps' -> order l <= order l'
  | None => forall l' exps', ~ matches n els exp l' exps'
  end.

(** One turn of the edge loop keeps the best match sound, never makes
    it later, and accounts for every leaf below the edge. *)
Lemma find_step_spec (recur : Node -> list string -> result match_state)
    lo hi n el els exp k e best :
  (forall exp', exists res, recur (node e) exp' = Ok res /\
                            earliest (node e) els exp' res) ->
  wf lo hi n -> edges n !! k = Some e ->
  sound n (el :: els) exp best ->
  exists best',
    find_step recur el exp best (k, e) = Ok best' /\
    sound n (el :: els) exp best' /\
    (forall l', lower best l' -> lower best' l') /\
    (forall vars l' exps',
       find_edge e el = Ok (Some vars) ->
       matches (node e) els (exp ++ vars) l' exps' -> lower best' l').
Proof.
  intros Hrec Hwf Hk Hsound.
  destruct (wf_edge _ _ _ _ _ Hwf Hk) as (Hcomp & Hb & Hwfe).
  unfold find_step. simpl.
  destruct best as [[lb|] eb]; simpl.
  - destruct (order lb <? minorder e) eqn:Hprune.
    + (* pruned: nothing below the edge is earlier than the best *)
      exists (Some lb, eb). split; [done|]. split; [done|]. split; [done|].
      intros vars l' exps' _ Hm. exists lb. split; [done|].
      apply Z.ltb_lt in Hprune.
      pose proof (matches_lower _ _ _ _ _ _ _ Hwfe Hm). lia.
    + destruct (find_edge_total e el (compiled_ok _ _ Hcomp)) as [[vars|] Hfe];
        rewrite Hfe; simpl.
      2:{ exists (Some lb, eb). split; [done|]. split; [done|]. split; [done|].
          intros vars l' exps' Hfe' _. congruence. }
      destruct (Hrec (exp ++ vars)) as ([[tl|] te] & -> & Hbest); simpl.
      * destruct Hbest as [Hmt Hmin]. simpl in Hmt, Hmin.
        destruct (order tl <? order lb) eqn:Hcmp.
        -- apply Z.ltb_lt in Hcmp. exists (Some tl, te). split; [done|].
           split; [|split].
           ++ intros l ?. simplify_eq/=. by eapply matches_edge.
           ++ intros l' (l & ? & ?). simplify_eq/=. exists tl. split; [done|]. lia.
           ++ intros vars' l' exps' Hfe' Hm. simplify_eq.
              exists tl. split; [done|]. by eapply Hmin.
        -- apply Z.ltb_ge in Hcmp. exists (Some lb, eb). split; [done|].
           split; [done|]. split; [done|].
           intros vars' l' exps' Hfe' Hm. simplify_eq.
           exists lb. split; [done|]. specialize (Hmin _ _ Hm). lia.
      * exists (Some lb, eb). split; [done|]. split; [done|]. split; [done|].
        intros vars' l' exps' Hfe' Hm. simplify_eq. by destruct (Hbest _ _ Hm).
  - destruct (find_edge_total e el (compiled_ok _ _ Hcomp)) as [[vars|] Hfe];
      rewrite Hfe; simpl.
    2:{ exists (None, eb). split; [done|]. split; [done|]. split; [done|].
        intros vars l' exps' Hfe' _. congruence. }
    destruct (Hrec (exp ++ vars)) as ([[tl|] te] & -> & Hbest); simpl.
    + destruct Hbest as [Hmt Hmin]. simpl in Hmt, Hmin.
      exists (Some tl, te). split; [done|]. split; [|split].
      * intros l ?. simplify_eq/=. by eapply matches_edge.
      * by intros l' (l & ? & ?).
      * intros vars' l' exps' Hfe' Hm. simplify_eq.
        exists tl. split; [done|]. by eapply Hmin.
    + exists (None, eb). split; [done|]. split; [done|]. split; [done|].
      intros vars' l' exps' Hfe' Hm. simplify_eq. by destruct (Hbest _ _ Hm).
Qed.

Lemma find_star_sound n el els exp :
  sound n (el :: els) exp (find_star n (el :: els) exp).
Proof.
  unfold find_star, sound. destruct (star n) as [s|] eqn:Hs; simpl; [|done].
  intros l ?. simplify_eq. by apply matches_star.
Qed.

Lemma find_star_lower n el els exp l :
  star n = Some l -> lower (find_star n (el :: els) exp) l.
Proof. intros Hs. unfold find_star. rewrite Hs. simpl. exists l. split; [done | lia]. Qed.

Lemma range_lookup (R : MapOrder) (m : gmap string (@Edge V)) k e :
  m !! k = Some e <-> exists i, range R m !! i = Some (k, e).
Proof.
  rewrite <- elem_of_map_to_list, <- (range_perm R m). apply list_elem_of_lookup.
Qed.

(** [find] returns, and what it returns is the earliest leaf that can
    match, whatever the order in which the edges are visited. *)
Lemma find_spec (R : MapOrder) els n exp lo hi :
  wf lo hi n ->
  exists res, find R els n exp = Ok res /\ earliest n els exp res.
Proof.
  revert n exp lo hi. induction els as [|el els IH]; intros n exp lo hi Hwf.
  - exists (leaf n, exp). split; [done|]. unfold earliest. simpl.
    destruct (leaf n) as [l|] eqn:Hl.
    + split; [by apply matches_leaf|]. intros l' exps' Hm.
      inversion Hm; subst. simplify_eq. lia.
    + intros l' exps' Hm. inversion Hm; subst. congruence.
  - simpl find. set (best0 := find_star n (el :: els) exp).
    set (L := range R (edges n)).
    destruct (rfold_total
      (fun j best =>
         sound n (el :: els) exp best /\
         (forall l', lower best0 l' -> lower best l') /\
         (forall i k e vars l' exps', (i < j)%nat -> L !! i = Some (k, e) ->
            find_edge e el = Ok (Some vars) ->
            matches (node e) els (exp ++ vars) l' exps' -> lower best l'))
      (find_step (find R els) el exp) L best0) as (best & Hrun & Hsound & Hmono & Hcov).
    { split; [apply find_star_sound|]. split; [done|]. intros; lia. }
    { intros j best [k e] Hj (Hsound & Hmono & Hcov).
      assert (Hk : edges n !! k = Some e) by (apply (range_lookup R); eauto).
      destruct (wf_edge _ _ _ _ _ Hwf Hk) as (_ & _ & Hwfe).
      destruct (find_step_spec (find R els) lo hi n el els exp k e best)
        as (best' & Hstep & Hsound' & Hmono' & Hcov'); try done.
      { intros exp'. by apply (IH _ _ _ _ Hwfe). }
      exists best'. split; [done|]. split; [done|]. split; [by auto|].
      intros i k' e' vars l' exps' Hi Hlook Hfe Hm.
      destruct (decide (i = j)) as [->|Hne].
      - rewrite Hj in Hlook. simplify_eq. by eapply Hcov'.
      - apply Hmono'. eapply Hcov; [|done..]. lia. }
    exists best. split; [done|].
    assert (Hall : forall l' exps', matches n (el :: els) exp l' exps' -> lower best l').
    { intros l' exps' Hm. inversion Hm as [|? ? ? ? ? Hs|? ? ? ? k e vars ? ? Hk Hfe Hm']; subst.
      - apply Hmono. by apply find_star_lower.
      - apply (range_lookup R) in Hk as [i Hi].
        eapply (Hcov i); [|done..]. by eapply lookup_lt_Some. }
    unfold earliest. destruct best as [[l|] exps]; simpl.
    + split; [by apply Hsound|]. intros l' exps' Hm.
      destruct (Hall _ _ Hm) as (l0 & ? & ?). by simplify_eq/=.
    + intros l' exps' Hm. destruct (Hall _ _ Hm) as (l0 & ? & ?). by simplify_eq/=.
Qed.

Lemma Split_slash (rest : string) :
  Split (String "/" rest) "/" = "" :: Split rest "/".
Proof. done. Qed.

Lemma Split_nonempty (s : string) (sep : ascii) : Split s sep <> [].
Proof.
  destruct s as [|c s]; simpl; [done|].
  destruct (decide (c = sep)); [done|]. by destruct (Split s sep).
Qed.

(** [splitPath] returns on every key that begins with ['/']. *)
Lemma splitPath_total (key : string) :
  begins "/" key = true -> exists els se, splitPath key = Ok (els, se).
Proof.
  destruct key as [|c rest]; [done|]. simpl. intros Hc.
  apply bool_decide_eq_true_1 in Hc as ->.
  unfold splitPath. rewrite Split_slash.
  pose proof (Split_nonempty rest "/") as Hne.
  destruct (last (Split rest "/")) as [x|] eqn:Hlast.
  - destruct x; eauto.
  - apply last_None in Hlast. done.
Qed.

Lemma Find_unfold (R : MapOrder) t key :
  Find R t key =
    if begins "/" key then '(elements, _) ← splitPath key; find R elements t []
    else Ok (None, []).
Proof.
  unfold Find. destruct key as [|c rest]; [done|]. simpl.
  by destruct (decide (c = "/"%char)) as [->|Hne];
    [rewrite bool_decide_eq_false_2, bool_decide_eq_true_2 by auto
    |rewrite bool_decide_eq_true_2, bool_decide_eq_false_2 by auto].
Qed.

(** [Find] on a built trie: it returns, and a leaf it returns is the
    earliest registered one that can match the elements of the key. *)
Lemma Find_spec (R : MapOrder) t key :
  built t ->
  exists res, Find R t key = Ok res /\
    (begins "/" key = false -> res = (None, [])) /\
    (begins "/" key = true ->
       exists els se, splitPath key = Ok (els, se) /\ earliest t els [] res).
Proof.
  intros Hb. destruct (built_inv t Hb) as (Hwf & _).
  rewrite Find_unfold. destruct (begins "/" key) eqn:Hbeg.
  - destruct (splitPath_total key Hbeg) as (els & se & Hsp). rewrite Hsp. simpl.
    destruct (find_spec R els t [] _ _ Hwf) as (res & Hres & Hbest).
    exists res. split; [done|]. split; [done|]. eauto.
  - exists (None, []). split; [done|]. split; [done|]. done.
Qed.

End Matcher.

(** ** Claims on [Add], [Find] and the shape of edges *)

Section Claims.

Context {V : Type}.
Implicit Types (n t : @Node V) (e : @Edge V) (l : @Leaf V).

(** The edges of a trie: those of the root and those of every node below. *)
Inductive edge_in : Node -> Edge -> Prop :=
  | edge_here n k e : edges n !! k = Some e -> edge_in n e
  | edge_below n k e' e : edges n !! k = Some e' -> edge_in (node e') e -> edge_in n e.

Lemma wf_edge_in lo hi n e :
  wf lo hi n -> edge_in n e -> edge_ok (padding e) (wildcards e) (wildend e).
Proof.
  intros Hwf Hin. revert lo Hwf.
  induction Hin as [n k e Hk|n k e' e Hk Hin IH]; intros lo Hwf;
    destruct (wf_edge _ _ _ _ _ Hwf Hk) as (Hc & _ & Hwfe).
  - by eapply compiled_ok.
  - by eapply IH.
Qed.

(** C1.  On a trie built by calls of [Add] on the root, [Find] returns
    for every path, and when it returns a leaf, that leaf is a registered
    pattern that can match the path and its insertion order is the
    smallest among all registered patterns that can match the path,
    whether they end in a leaf behind literal or wildcard edges or in a
    star, and whatever the order in which the edges are visited. *)
Theorem C1_find_returns_earliest (R : MapOrder) t key :
  built t ->
  (exists res, Find R t key = Ok res) /\
  forall l exps, Find R t key = Ok (Some l, exps) ->
    exists els se,
      splitPath key = Ok (els, se) /\
      matches t els [] l exps /\
      forall l' exps', matches t els [] l' exps' -> order l <= order l'.
Proof.
  intros Hb. destruct (Find_spec R t key Hb) as (res & Hres & Hno & Hyes).
  split; [eauto|]. intros l exps Hfind. rewrite Hres in Hfind. simplify_eq.
  destruct (begins "/" key) eqn:Hbeg.
  - destruct (Hyes eq_refl) as (els & se & Hsp & Hbest & Hmin). eauto.
  - by specialize (Hno eq_refl).
Qed.

(** C5.  [Add] on the empty key panics at [key[0]]; on every other key
    that does not begin with ['/'] it returns no leaf and the error
    "Path must begin with /" and leaves the trie, counter included, as
    it was. *)
Theorem C5_Add_without_leading_slash t (val : V) :
  Add t "" val = Panic /\
  forall key, key <> "" -> begins "/" key = false ->
    Add t key val = Ok (t, None, Some ErrInvalidPattern).
Proof.
  split; [done|]. intros [|c key] Hne Hbeg; [done|].
  simpl in *. apply bool_decide_eq_false_1 in Hbeg.
  by rewrite (bool_decide_eq_true_2 (c ≠ "/"%char)).
Qed.

(** C9.  In every trie built by calls of [Add], every edge has as many
    padding groups as wildcards when it ends in a wildcard and one more
    otherwise. *)
Theorem C9_padding_wildcards_lengths t e :
  built t -> edge_in t e ->
  length (padding e) = (length (wildcards e) + (if wildend e then 0 else 1))%nat.
Proof.
  intros Hb Hin. destruct (built_inv t Hb) as (Hwf & _).
  by destruct (wf_edge_in _ _ _ _ Hwf Hin) as (Hlen & _).
Qed.

End Claims.

(** ** The reverser against its description *)

Section Reverser.

Context {V : Type}.
Implicit Types (n t : @Node V) (e : @Edge V) (l : @Leaf V).
Implicit Types (m : gmap string string) (h : store) (u : EdgeUp).

(** The rule for one wildcard, in the words of the description: when
    the name is absent from the map, or present with a value that
    violates the bounds, the descriptor is appended to the missing list,
    the empty string is substituted and the map is left as it is;
    otherwise the value is substituted and the entry is removed. *)
Definition substitute (w : Wildcard) m (missed : list string)
  : string * gmap string string * list string :=
  match m !! Name w with
  | Some value =>
      if out_of_bounds w (len value) then ("", m, missed ++ [descriptor w])
      else (value, delete (Name w) m, missed)
  | None => ("", m, missed ++ [descriptor w])
  end.

(** The first alternative of every padding group. *)
Definition firsts (padding : list (list string)) : list string :=
  hd "" <$> padding.

(** The wildcards of an edge in order, each after the first alternative
    of its padding group. *)
Fixpoint fill (pads : list string) (ws : list Wildcard) m (missed : list string)
  : string * gmap string string * list string :=
  match ws with
  | [] => ("", m, missed)
  | w :: ws' =>
      let '(item, m, missed) := substitute w m missed in
      let '(rest, m, missed) := fill (tail pads) ws' m missed in
      (hd "" pads +:+ item +:+ rest, m, missed)
  end.

(** The text of one edge: an edge that does not end in a wildcard
    appends the first alternative of its last padding group. *)
Definition segment_spec u m (missed : list string)
  : string * gmap string string * list string :=
  let '(text, m, missed) := fill (firsts (up_padding u)) (up_wildcards u) m missed in
  (if up_wildend u then text
   else text +:+ default "" (last (firsts (up_padding u))), m, missed).

(** The edges from the leaf up to the root: each segment is put, after
    a ['/'], in front of what the edges below it gave. *)
Fixpoint reverse_spec (chain : NodeRef) m (missed : list string)
  : string * gmap string string * list string :=
  match chain with
  | [] => ("", m, missed)
  | u :: up =>
      let '(seg, m, missed) := segment_spec u m missed in
      let '(front, m, missed) := reverse_spec up m missed in
      (front +:+ "/" +:+ seg, m, missed)
  end.

Lemma app_cons (x : ascii) (a b : string) : String x a +:+ b = String x (a +:+ b).
Proof. done. Qed.

Lemma app_empty_l (a : string) : "" +:+ a = a.
Proof. done. Qed.

Lemma app_assoc_str (a b c : string) : (a +:+ b) +:+ c = a +:+ (b +:+ c).
Proof. induction a as [|x a IH]; [done|]. by rewrite !app_cons, IH. Qed.

Lemma app_empty_r (a : string) : a +:+ "" = a.
Proof. induction a as [|x a IH]; [done|]. by rewrite app_cons, IH. Qed.

Lemma map_get_store h r m k : h !! r = Some m -> map_get h r k = m !! k.
Proof. intros Hr. unfold map_get. by rewrite Hr. Qed.

Lemma map_delete_store h r m k :
  h !! r = Some m -> map_delete h r k = <[r := delete k m]> h.
Proof.
  intros Hr. unfold map_delete. apply map_eq. intros i.
  destruct (decide (i = r)) as [->|Hne].
  - by rewrite lookup_alter_eq, lookup_insert_eq, Hr.
  - by rewrite lookup_alter_ne, lookup_insert_ne.
Qed.

Lemma first_of_firsts (padding : list (list string)) (i : nat) g :
  padding !! i = Some g -> g <> [] ->
  first_of padding i = Ok (hd "" g) /\ firsts padding !! i = Some (hd "" g).
Proof.
  intros Hi Hg. unfold first_of, firsts. rewrite list_lookup_fmap, Hi.
  by destruct g.
Qed.

(** The wildcard loop of [reverse] from index [key] on computes [fill]
    on the paddings from [key] on, and writes the map it leaves to the
    store. *)
Lemma reverse_loop_spec u r ws key output missed h m :
  h !! r = Some m ->
  Forall (fun g => g <> []) (up_padding u) ->
  (key + length ws <= length (up_padding u))%nat ->
  exists h',
    rfold (reverse_step u r) (output, missed, h, key) ws
    = Ok (output +:+ (fill (drop key (firsts (up_padding u))) ws m missed).1.1,
          (fill (drop key (firsts (up_padding u))) ws m missed).2,
          h', (key + length ws)%nat) /\
    h' = <[r := (fill (drop key (firsts (up_padding u))) ws m missed).1.2]> h.
Proof.
  intros Hr Hne. revert key output missed h m Hr.
  induction ws as [|w ws IH]; intros key output missed h m Hr Hlen; simpl in *.
  - eexists. split; [|done]. rewrite app_empty_r, Nat.add_0_r.
    by rewrite insert_id.
  - destruct (lookup_lt_is_Some_2 (up_padding u) key) as [g Hg]; [lia|].
    assert (Hgne : g <> []) by (by eapply (Forall_lookup_1 _ _ _ _ Hne)).
    destruct (first_of_firsts _ _ _ Hg Hgne) as [Hfo Hfi].
    rewrite (drop_S _ _ _ Hfi). simpl.
    rewrite (map_get_store _ _ _ _ Hr). unfold substitute.
    destruct (m !! Name w) as [value|] eqn:Hm; [destruct (out_of_bounds w (len value))|].
    + rewrite Hfo. simpl.
      destruct (IH (S key) ((output +:+ hd "" g) +:+ "") (missed ++ [descriptor w]) h m Hr)
        as (h' & Hrun & Hh'); [lia|].
      rewrite Hrun.
      destruct (fill (drop (S key) (firsts (up_padding u))) ws m (missed ++ [descriptor w]))
        as [[rest m'] missed'] eqn:Hfill. simpl in *.
      eexists. split; [|done].
      rewrite !app_assoc_str. simpl. repeat f_equal; first [lia | congruence].
    + rewrite Hfo. simpl.
      rewrite (map_delete_store _ _ _ _ Hr).
      destruct (IH (S key) ((output +:+ hd "" g) +:+ value) missed
                  (<[r := delete (Name w) m]> h) (delete (Name w) m))
        as (h' & Hrun & Hh'); [by rewrite lookup_insert_eq | lia |].
      rewrite Hrun.
      destruct (fill (drop (S key) (firsts (up_padding u))) ws (delete (Name w) m) missed)
        as [[rest m'] missed'] eqn:Hfill. simpl in *.
      eexists. split; [|done].
      rewrite !app_assoc_str. rewrite insert_insert_eq in Hh'.
      repeat f_equal; first [lia | congruence].
    + rewrite Hfo. simpl.
      destruct (IH (S key) ((output +:+ hd "" g) +:+ "") (missed ++ [descriptor w]) h m Hr)
        as (h' & Hrun & Hh'); [lia|].
      rewrite Hrun.
      destruct (fill (drop (S key) (firsts (up_padding u))) ws m (missed ++ [descriptor w]))
        as [[rest m'] missed'] eqn:Hfill. simpl in *.
      eexists. split; [|done].
      rewrite !app_assoc_str. simpl. repeat f_equal; first [lia | congruence].
Qed.

Lemma last_firsts (padding : list (list string)) g :
  padding !! (length padding - 1)%nat = Some g ->
  default "" (last (firsts padding)) = hd "" g.
Proof.
  intros Hg. rewrite last_lookup. unfold firsts.
  rewrite length_fmap, list_lookup_fmap.
  replace (pred (length padding)) with (length padding - 1)%nat by lia.
  by rewrite Hg.
Qed.

(** [reverse] computes [reverse_spec]: it returns the text of the edges
    in front of [exp], the same map reference, the missing list, and a
    store in which only the caller's map has changed. *)
Lemma reverse_refines (chain : NodeRef) exp r missed se h m :
  Forall up_ok chain -> h !! r = Some m ->
  reverse chain exp r missed se h
  = Ok ((reverse_spec chain m missed).1.1 +:+ (if se then exp +:+ "/" else exp),
        r, (reverse_spec chain m missed).2,
        <[r := (reverse_spec chain m missed).1.2]> h).
Proof.
  intros Hok. revert exp missed h m.
  induction Hok as [|u up Hu Hup IH]; intros exp missed h m Hr; simpl.
  - by rewrite insert_id.
  - destruct Hu as (Hlen & Hne & Hall).
    destruct (reverse_loop_spec u r (up_wildcards u) 0 "" missed h m Hr Hall)
      as (h' & Hrun & Hh'); [destruct (up_wildend u); lia|].
    rewrite drop_0 in Hrun, Hh'. rewrite Hrun. simpl.
    unfold segment_spec.
    destruct (fill (firsts (up_padding u)) (up_wildcards u) m missed)
      as [[text m1] missed1] eqn:Hfill. simpl in *.
    assert (Hr' : h' !! r = Some m1) by (subst h'; apply lookup_insert_eq).
    destruct (up_wildend u) eqn:Hwe; simpl.
    + rewrite (IH _ _ _ _ Hr').
      destruct (reverse_spec up m1 missed1) as [[front m2] missed2]. simpl.
      subst h'. rewrite insert_insert_eq.
      destruct se; by rewrite !app_empty_l, !app_assoc_str.
    + destruct (lookup_lt_is_Some_2 (up_padding u) (length (up_padding u) - 1))
        as [g Hg]; [destruct (up_padding u); simpl in *; [done | lia]|].
      assert (Hgne : g <> []) by (by eapply (Forall_lookup_1 _ _ _ _ Hall)).
      destruct (first_of_firsts _ _ _ Hg Hgne) as [Hfo _].
      rewrite Hfo. simpl. rewrite (last_firsts _ _ Hg).
      rewrite (IH _ _ _ _ Hr').
      destruct (reverse_spec up m1 missed1) as [[front m2] missed2]. simpl.
      subst h'. rewrite insert_insert_eq.
      destruct se; by rewrite !app_empty_l, !app_assoc_str.
Qed.

(** The registered leaves of a trie: the leaf and the star of the root
    and of every node below. *)
Inductive leaf_in : Node -> Leaf -> Prop :=
  | leaf_here n l : leaf n = Some l -> leaf_in n l
  | star_here n l : star n = Some l -> leaf_in n l
  | leaf_below n k e l : edges n !! k = Some e -> leaf_in (node e) l -> leaf_in n l.

Lemma wf_leaf_in lo hi n l :
  wf lo hi n -> leaf_in n l ->
  exists p, parent l = Some p /\ Forall up_ok p.
Proof.
  intros Hwf Hin. revert lo Hwf.
  induction Hin as [n l Hl|n l Hs|n k e l Hk Hin IH]; intros lo Hwf.
  - inversion Hwf as [? Hup H _ _ _]; subst. destruct (H l Hl) as (_ & ? & _). eauto.
  - inversion Hwf as [? Hup _ H _ _]; subst. destruct (H l Hs) as (_ & ? & _). eauto.
  - destruct (wf_edge _ _ _ _ _ Hwf Hk) as (_ & _ & Hwfe). by eapply IH.
Qed.

(** [w] takes the entry [k ↦ v]: it has that name and [v] is within
    its bounds. *)
Definition consumes (w : Wildcard) (k v : string) : Prop :=
  Name w = k /\ out_of_bounds w (len v) = false.

#[global] Instance consumes_dec w k v : Decision (consumes w k v).
Proof. unfold consumes. apply _. Defined.






End Reverser.

(** ** Claims on [Reverse] *)

Section ReverseClaims.

Context {V : Type}.
Implicit Types (n t : @Node V) (e : @Edge V) (l : @Leaf V).
Implicit Types (m : gmap string string) (h : store).

(** [Reverse] on a registered leaf of a built trie, against the
    description. *)
Lemma Reverse_refines t l r h m :
  built t -> leaf_in t l -> h !! r = Some m ->
  exists p,
    parent l = Some p /\
    Reverse t (Some l) r h
    = Ok ((reverse_spec p m []).1.1 +:+ (if slashend l then "/" else ""),
          r, (reverse_spec p m []).2, <[r := (reverse_spec p m []).1.2]> h).
Proof.
  intros Hb Hin Hr. destruct (built_inv t Hb) as (Hwf & _).
  destruct (wf_leaf_in _ _ _ _ Hwf Hin) as (p & Hp & Hok).
  exists p. split; [done|]. unfold Reverse. rewrite Hp.
  rewrite (reverse_refines p "" r [] (slashend l) h m Hok Hr).
  by destruct (slashend l).
Qed.



(** Several calls of [Add] in a row, for building concrete tries. *)
Fixpoint adds t (kvs : list (string * V)) : result Node :=
  match kvs with
  | [] => Ok t
  | (key, val) :: rest => '(t', _, _) ← Add t key val; adds t' rest
  end.

Lemma Add_leafs t key (val : V) t' ol err :
  0 <= leafs t < max_int -> Add t key val = Ok (t', ol, err) ->
  leafs t <= leafs t' <= leafs t + 1.
Proof.
  intros Hc Hadd.
  apply Add_cases in Hadd as [(-> & _)|(elements & se & _ & Hsp & Hadd)]; [lia|].
  rewrite int_wrap_small in Hadd by (unfold min_int, max_int in *; lia).
  apply add_leafs in Hadd. simpl in Hadd. lia.
Qed.

Lemma adds_built t kvs t' :
  built t -> leafs t + Z.of_nat (length kvs) <= max_int ->
  adds t kvs = Ok t' -> built t'.
Proof.
  revert t. induction kvs as [|[key val] kvs IH]; intros t Hb Hlen Hadds; simpl in *.
  - by simplify_eq.
  - inv_bind Hadds. destruct a as [[t1 ol] err].
    destruct (built_inv t Hb) as (_ & Hc & _).
    assert (Hlt : leafs t < max_int) by lia.
    pose proof (Add_leafs t key val t1 ol err (conj (proj1 Hc) Hlt) Ha) as Hl.
    apply (IH t1); [|lia|done].
    by eapply built_Add.
Qed.

End ReverseClaims.

(** ** Concrete tries and the claims on them *)

(** The iteration order that visits the entries as [map_to_list] lists
    them. *)
Definition sorted_order {V : Type} : @MapOrder V :=
  mkMapOrder map_to_list (fun m => reflexivity (map_to_list m)).

(** The trie left by [adds] on the patterns, [New] if a call panics. *)
Definition trie_of (kvs : list (string * string)) : @Node string :=
  match adds New kvs with
  | Ok t => t
  | Panic => New
  end.

(** The leaf [Find] returns for a path, if any. *)
Definition leaf_for (t : @Node string) (path : string) : option (@Leaf string) :=
  match Find sorted_order t path with
  | Ok (ol, _) => ol
  | Panic => None
  end.

Lemma trie_of_built (kvs : list (string * string)) :
  Z.of_nat (length kvs) <= max_int -> built (trie_of kvs).
Proof.
  intros Hlen. unfold trie_of. destruct (adds New kvs) as [t|] eqn:Hadds.
  - by apply (adds_built New kvs t built_New).
  - apply built_New.
Qed.

(** The trie of the test [TestMixedTree], without its first pattern. *)
Definition ab_then_literal : @Node string :=
  trie_of [("/:a/:b", "first"); ("/not/found", "second")].

Lemma C1_witness :
  exists l,
    Find sorted_order ab_then_literal "/not/found" = Ok (Some l, ["not"; "found"]) /\
    Value l = "first" /\ order l = 1 /\
    forall l' exps', matches ab_then_literal ["not"; "found"] [] l' exps' ->
      order l <= order l'.
Proof.
  assert (Hb : built ab_then_literal) by (apply trie_of_built; vm_compute; discriminate).
  destruct (C1_find_returns_earliest sorted_order ab_then_literal "/not/found" Hb)
    as [_ Hmin].
  eexists. split; [vm_compute; reflexivity|]. split; [reflexivity|]. split; [reflexivity|].
  edestruct Hmin as (els & se & Hsp & _ & Hle); [vm_compute; reflexivity|].
  vm_compute in Hsp. injection Hsp as <- <-. exact Hle.
Defined.

Lemma C5_witness :
  Add (V:=string) New "" "x" = Panic /\
  Add (V:=string) New "xyz" "x" = Ok (New, None, Some ErrInvalidPattern).
Proof.
  destruct (C5_Add_without_leading_slash (New (V:=string)) "x") as [Hpanic Herr].
  split; [exact Hpanic|]. apply Herr; [discriminate | reflexivity].
Defined.

Definition archive : @Node string :=
  trie_of [("/Archive_:first;_:[2,4]year;", "x")].

Lemma C9_witness :
  exists e, edges archive !! "Archive_:first;_:[2,4]year" = Some e /\
    wildend e = true /\
    length (padding e) = (length (wildcards e) + (if wildend e then 0 else 1))%nat.
Proof.
  eexists. split; [vm_compute; reflexivity|]. split; [reflexivity|].
  apply (C9_padding_wildcards_lengths archive).
  - apply trie_of_built. vm_compute. discriminate.
  - apply (edge_here _ "Archive_:first;_:[2,4]year"). vm_compute. reflexivity.
Defined.

(** The leaf and the trie a call of [Add] returns. *)
Definition Add_leaf (t : @Node string) (key val : string) : option (@Leaf string) :=
  match Add t key val with
  | Ok (_, ol, _) => ol
  | Panic => None
  end.

Definition Add_trie (t : @Node string) (key val : string) : @Node string :=
  match Add t key val with
  | Ok (t', _, _) => t'
  | Panic => t
  end.




(** ** Registered patterns stay where they are *)

Section Slots.

Context {V : Type}.
Implicit Types (n t : @Node V) (e : @Edge V) (l : @Leaf V).

(** The terminal the elements of a pattern lead to: the leaf of the
    node behind its edges, or the star of the node where a star element
    is met. *)
Fixpoint slot (elements : list string) n : option Leaf :=
  match elements with
  | [] => leaf n
  | el :: elements' =>
      match star_name el with
      | Some _ => star n
      | None => e ← edges n !! edge_key el; slot elements' (node e)
      end
  end.

(** The elements [add] can compile: every element before a star has a
    key that [compile] accepts. *)
Fixpoint compilable (elements : list string) : Prop :=
  match elements with
  | [] => True
  | el :: elements' =>
      match star_name el with
      | Some _ => True
      | None =>
          (exists paddings variables,
             compile (splitInput (edge_key el)) = Ok (paddings, variables)) /\
          compilable elements'
      end
  end.

(** The tries reached from a trie by further calls of [Add]. *)
Inductive later : Node -> Node -> Prop :=
  | later_refl t : later t t
  | later_Add t t1 key (val : V) t2 ol err :
      later t t1 -> Add t1 key val = Ok (t2, ol, err) -> later t t2.

Lemma add_compilable els n o ws se (v : V) n' ol err :
  add els n o ws se v = Ok (n', ol, err) -> compilable els.
Proof.
  revert n ws n'. induction els as [|el els IH]; intros n ws n' Hadd; simpl; [done|].
  destruct (star_name el) eqn:Hs; [done|].
  rewrite add_edge_eq in Hadd by done. inv_bind Hadd. destruct a as [paddings variables].
  simpl in Hadd. inv_bind Hadd. destruct a as [[child l0] err0]. simplify_eq.
  split; [eauto|]. by eapply IH.
Qed.

(** A successful [add] leaves its leaf at the slot of the elements. *)
Lemma add_slot els n o ws se (v : V) n' l err :
  add els n o ws se v = Ok (n', Some l, err) -> slot els n' = Some l.
Proof.
  revert n ws n'. induction els as [|el els IH]; intros n ws n' Hadd.
  - rewrite add_nil_eq in Hadd. destruct (leaf n); cbv zeta in Hadd; by simplify_eq.
  - simpl. destruct (star_name el) as [name|] eqn:Hs.
    + rewrite (add_star_eq _ name) in Hadd by done.
      destruct (star n); cbv zeta in Hadd; by simplify_eq.
    + rewrite add_edge_eq in Hadd by done. inv_bind Hadd. destruct a as [paddings variables].
      simpl in Hadd. inv_bind Hadd. destruct a as [[child l0] err0]. simplify_eq.
      simpl. rewrite lookup_insert_eq. simpl. by eapply IH.
Qed.

Lemma set_edges_id n : set_edges n (edges n) = n.
Proof. by destruct n. Qed.

Lemma set_node_id e : set_node e (node e) = e.
Proof. by destruct e. Qed.

(** On an occupied slot [add] returns the error "duplicate path" and
    leaves the node as it is. *)
Lemma add_occupied els n l0 o ws se (v : V) :
  compilable els -> slot els n = Some l0 ->
  add els n o ws se v = Ok (n, None, Some ErrDuplicatePath).
Proof.
  revert n ws. induction els as [|el els IH]; intros n ws Hc Hslot; simpl in Hc, Hslot.
  - rewrite add_nil_eq. by rewrite Hslot.
  - destruct (star_name el) as [name|] eqn:Hs.
    + rewrite (add_star_eq _ name) by done. by rewrite Hslot.
    + destruct Hc as [(paddings & variables & Hcomp) Hc].
      rewrite add_edge_eq by done. rewrite Hcomp. simpl.
      destruct (edges n !! edge_key el) as [e|] eqn:Hk; [|done]. simpl in *.
      rewrite (IH (node e) _ Hc Hslot). simpl.
      by rewrite set_node_id, insert_id, set_edges_id.
Qed.

(** [add] never removes or changes a registered leaf. *)
Lemma add_slot_stays p els n o ws se (v : V) n' ol err l :
  slot p n = Some l -> add els n o ws se v = Ok (n', ol, err) -> slot p n' = Some l.
Proof.
  revert els n ws n'. induction p as [|pel p IH]; intros els n ws n' Hslot Hadd.
  - simpl in *. apply add_cases in Hadd.
    destruct Hadd as [(_ & [H|H]) | [(el & els' & name & _ & _ & [H|H]) | H]].
    + by destruct H as (? & ? & -> & ?).
    + destruct H as (Hnone & _). congruence.
    + by destruct H as (? & ? & -> & ?).
    + by destruct H as (? & ? & -> & ?).
    + by destruct H as (? & ? & ? & ? & ? & ? & ? & ? & ? & ? & ? & ->).
  - simpl in *. apply add_cases in Hadd.
    destruct (star_name pel) as [pname|] eqn:Hps.
    + destruct Hadd as [(_ & [H|H]) | [(el & els' & name & _ & _ & [H|H]) | H]].
      * by destruct H as (? & ? & -> & ?).
      * by destruct H as (? & ? & -> & ?).
      * by destruct H as (? & ? & -> & ?).
      * destruct H as (Hnone & _). congruence.
      * by destruct H as (? & ? & ? & ? & ? & ? & ? & ? & ? & ? & ? & ->).
    + destruct (edges n !! edge_key pel) as [e|] eqn:Hk; [|done]. simpl in Hslot.
      destruct Hadd as [(_ & [H|H]) | [(el & els' & name & _ & _ & [H|H]) | H]].
      * destruct H as (? & ? & -> & ?). by rewrite Hk.
      * destruct H as (? & ? & -> & ?). simpl. by rewrite Hk.
      * destruct H as (? & ? & -> & ?). by rewrite Hk.
      * destruct H as (? & ? & -> & ?). simpl. by rewrite Hk.
      * destruct H as (el & els' & paddings & variables & item & child
                         & ? & Hst & Hc & Hitem & Hrec & ->).
        simpl. destruct (decide (edge_key pel = edge_key el)) as [Heq|Hne].
        -- rewrite Heq, lookup_insert_eq. simpl.
           rewrite <- Heq, Hk in Hitem. simpl in Hitem. subst item.
           by eapply IH.
        -- rewrite lookup_insert_ne by done. by rewrite Hk.
Qed.

Lemma slot_set_leafs p n c : slot p (set_leafs n c) = slot p n.
Proof. by destruct p. Qed.

Lemma find_set_leafs (R : MapOrder) els n c exp :
  find R els (set_leafs n c) exp = find R els n exp.
Proof. by destruct els. Qed.

Lemma Find_set_leafs (R : MapOrder) t c key :
  Find R (set_leafs t c) key = Find R t key.
Proof.
  rewrite !Find_unfold. destruct (begins "/" key); [|done].
  destruct (splitPath key) as [[els se]|]; [|done]. simpl. apply find_set_leafs.
Qed.

Lemma Add_slot_stays p t key (val : V) t' ol err l :
  slot p t = Some l -> Add t key val = Ok (t', ol, err) -> slot p t' = Some l.
Proof.
  intros Hslot Hadd.
  apply Add_cases in Hadd as [(-> & _)|(elements & se & _ & Hsp & Hadd)]; [done|].
  eapply add_slot_stays; [|done]. by rewrite slot_set_leafs.
Qed.

Lemma later_slot_stays p t t' l :
  later t t' -> slot p t = Some l -> slot p t' = Some l.
Proof.
  induction 1 as [|t t1 key val t2 ol err Hl IH Hadd]; [done|].
  intros Hslot. eapply Add_slot_stays; [by apply IH | done].
Qed.

(** C4.  After [Add] has registered a pattern, every later call of
    [Add] with the same pattern, on the trie as any further calls have
    left it, returns no leaf and the error "duplicate path"; it changes
    nothing but the insertion counter, so the leaf of the first
    registration is still the terminal of the pattern, with its value,
    order and wildcards, and every lookup returns what it returned
    before the call. *)
Theorem C4_second_Add_is_duplicate t key (v1 v2 : V) t1 l t2 :
  Add t key v1 = Ok (t1, Some l, None) ->
  later t1 t2 ->
  exists elements se,
    splitPath key = Ok (elements, se) /\
    let t3 := set_leafs t2 (int_wrap (leafs t2 + 1)) in
    Add t2 key v2 = Ok (t3, None, Some ErrDuplicatePath) /\
    slot elements t3 = Some l /\
    forall (R : MapOrder) path, Find R t3 path = Find R t2 path.
Proof.
  intros Hadd Hlater.
  apply Add_cases in Hadd as [(_ & ? & _)|(elements & se & Hbeg & Hsp & Hadd)]; [done|].
  exists elements, se. split; [done|]. simpl.
  pose proof (add_compilable _ _ _ _ _ _ _ _ _ Hadd) as Hc.
  apply add_slot in Hadd.
  pose proof (later_slot_stays _ _ _ _ Hlater Hadd) as Hslot.
  split; [|split].
  - unfold Add. destruct key as [|c key]; [done|]. simpl in Hbeg.
    apply bool_decide_eq_true_1 in Hbeg as ->.
    rewrite bool_decide_eq_false_2 by auto. rewrite Hsp. simpl.
    apply (add_occupied _ _ l); [done|]. by rewrite slot_set_leafs.
  - by rewrite slot_set_leafs.
  - intros R path. apply Find_set_leafs.
Qed.

End Slots.

(** ** The identity of edges *)

Section StarsAndEdges.

Context {V : Type}.
Implicit Types (n t : @Node V) (e : @Edge V) (l : @Leaf V).

Lemma range_empty (R : @MapOrder V) : range R ∅ = [].
Proof.
  pose proof (range_perm R ∅) as Hp. rewrite map_to_list_empty in Hp.
  by apply Permutation_nil_r in Hp.
Qed.

(** C8.  [add] puts an element that is not a star on the edge stored
    under its text without one trailing [';']: no other entry of the
    node changes; a stored edge keeps its padding groups, wildcards and
    [wildend], its [minorder] stays the smaller of its own and the new
    order, and its subtree takes the rest of the pattern; a new edge is
    the compilation of the key, with the new order as [minorder].  So
    ":a;" and ":a" share an edge, and ":a;" and ":[1,2]a;" do not. *)
Theorem C8_edges_keyed_by_text lo hi n el els o ws se (v : V) n' ol err :
  wf lo hi n -> hi <= o -> star_name el = None ->
  add (el :: els) n o ws se v = Ok (n', ol, err) ->
  (forall k, k <> edge_key el -> edges n' !! k = edges n !! k) /\
  (exists e',
     edges n' !! edge_key el = Some e' /\
     compile (splitInput (edge_key el)) = Ok (padding e', wildcards e') /\
     match edges n !! edge_key el with
     | Some e0 =>
         padding e' = padding e0 /\ wildcards e' = wildcards e0 /\
         wildend e' = wildend e0 /\ minorder e' = Z.min (minorder e0) o /\
         add els (node e0) o (ws ++ wildcards e0) se v = Ok (node e', ol, err)
     | None =>
         minorder e' = o /\
         add els (mkNode ∅ None None 0 (edge_up e' :: nparent n)) o
           (ws ++ wildcards e') se v = Ok (node e', ol, err)
     end) /\
  edge_key ":a;" = edge_key ":a" /\ edge_key ":a;" <> edge_key ":[1,2]a;".
Proof.
  intros Hwf Hhi Hst Hadd. rewrite add_edge_eq in Hadd by done.
  inv_bind Hadd. destruct a as [paddings variables]. simpl in Hadd.
  inv_bind Hadd. destruct a as [[child l0] err0]. simplify_eq.
  split; [|split; [|done]].
  - intros k Hk. simpl. by rewrite lookup_insert_ne.
  - eexists. split; [simpl; apply lookup_insert_eq|].
    destruct (edges n !! edge_key el) as [e0|] eqn:Hk; simpl in *.
    + destruct (wf_edge _ _ _ _ _ Hwf Hk) as ([Hc _] & Hb & _).
      rewrite Ha in Hc. simplify_eq. split; [done|].
      repeat split; try done. lia.
    + done.
Qed.

End StarsAndEdges.

Lemma C4_witness :
  exists t1 l,
    Add New "/a/:b" "one" = Ok (t1, Some l, None) /\
    Add t1 "/a/:b" "two" = Ok (set_leafs t1 2, None, Some ErrDuplicatePath) /\
    slot ["a"; ":b"] (set_leafs t1 2) = Some l /\ Value l = "one".
Proof.
  eexists _, _. split; [vm_compute; reflexivity|].
  edestruct (C4_second_Add_is_duplicate (V:=string) New "/a/:b" "one" "two")
    as (elements & se & Hsp & Hdup & Hslot & _);
    [vm_compute; reflexivity | apply later_refl |].
  vm_compute in Hsp. injection Hsp as <- <-.
  split; [exact Hdup|]. split; [exact Hslot | reflexivity].
Defined.

Lemma C8_witness :
  let t0 := trie_of [("/:a;/x", "1")] in
  exists t ol err e,
    add [":a"; "y"] t0 2 [] false "2" = Ok (t, ol, err) /\
    edges t !! ":a" = Some e /\ minorder e = 1 /\
    edges t !! ":[1,2]a" = edges t0 !! ":[1,2]a".
Proof.
  intros t0.
  assert (Hwf : wf 1 1 t0).
  { apply (built_inv t0). apply trie_of_built. vm_compute. discriminate. }
  destruct (add [":a"; "y"] t0 2 [] false "2") as [[[t ol] err]|] eqn:Hadd;
    [|vm_compute in Hadd; discriminate Hadd].
  destruct (C8_edges_keyed_by_text 1 1 t0 ":a" ["y"] 2 [] false "2" t ol err Hwf)
    as (Hother & (e' & He' & _ & Hstored) & _); [lia | reflexivity | exact Hadd |].
  exists t, ol, err, e'. split; [reflexivity|]. split; [exact He'|].
  split; [|apply Hother; discriminate].
  destruct (edges t0 !! edge_key ":a") as [e0|] eqn:Hk0;
    [|vm_compute in Hk0; discriminate Hk0].
  destruct Hstored as (_ & _ & _ & Hmin & _). rewrite Hmin.
  vm_compute in Hk0. injection Hk0 as <-. reflexivity.
Defined.

(** ** Patterns without wildcard markup *)

Section Plain.

Context {V : Type}.
Implicit Types (n t : @Node V) (e : @Edge V) (l : @Leaf V).

(** An element without wildcard markup: no [':'] and no leading ['*']. *)
Definition plain (el : string) : Prop := Count el ":" = O /\ star_name el = None.

Lemma prefix_edge_key (el : string) : String.prefix (edge_key el) el = true.
Proof. unfold edge_key. destruct (decide _); [apply prefix_upto | apply prefix_refl]. Qed.

(** The edge of a plain key accepts every element that begins with the
    first alternative of the key, and binds nothing. *)
Lemma find_edge_plain k e el :
  compiled k e -> Count k ":" = O -> String.prefix k el = true ->
  find_edge e el = Ok (Some []).
Proof.
  intros [Hc Hw] Hk Hpre. rewrite splitInput_plain, compile_plain in Hc by done.
  injection Hc as Hp Hws. unfold find_edge. rewrite <- Hp, Hw, <- Hp, <- Hws.
  destruct (splitPad_head k) as (p & ps & Hsp & Hpk). rewrite Hsp. simpl.
  rewrite (prefix_Index el p) by (by eapply prefix_trans). done.
Qed.

(** A plain pattern can match its own elements, and binds nothing. *)
Lemma plain_slot_matches els n exp lo hi l :
  wf lo hi n -> Forall plain els -> slot els n = Some l -> matches n els exp l exp.
Proof.
  revert n exp lo. induction els as [|el els IH]; intros n exp lo Hwf Hpl Hslot; simpl in *.
  - by apply matches_leaf.
  - apply Forall_cons in Hpl as [[Hcolon Hst] Hpl]. rewrite Hst in Hslot.
    destruct (edges n !! edge_key el) as [e|] eqn:Hk; [|done]. simpl in Hslot.
    destruct (wf_edge _ _ _ _ _ Hwf Hk) as (Hc & _ & Hwfe).
    eapply matches_edge; [done | |].
    + eapply find_edge_plain; [done | by apply Count_edge_key | apply prefix_edge_key].
    + rewrite app_nil_r. by eapply IH.
Qed.

(** The result of [Find] when a leaf that can match is earlier than
    every other candidate. *)
Lemma Find_earliest (R : MapOrder) t key els se l exps :
  built t -> begins "/" key = true -> splitPath key = Ok (els, se) ->
  matches t els [] l exps ->
  (forall l' exps', matches t els [] l' exps' ->
     (l', exps') = (l, exps) \/ order l < order l') ->
  Find R t key = Ok (Some l, exps).
Proof.
  intros Hb Hbeg Hsp Hm Hfirst.
  destruct (Find_spec R t key Hb) as (res & Hres & _ & Hyes).
  destruct (Hyes Hbeg) as (els' & se' & Hsp' & Hbest). rewrite Hsp in Hsp'. simplify_eq.
  rewrite Hres. unfold earliest in Hbest. destruct res as [[l0|] e0]; simpl in *.
  - destruct Hbest as [Hm0 Hmin]. specialize (Hmin _ _ Hm).
    destruct (Hfirst _ _ Hm0) as [?|?]; [by simplify_eq | lia].
  - by destruct (Hbest _ _ Hm).
Qed.

Lemma Add_begins t key (v : V) t' l err :
  Add t key v = Ok (t', Some l, err) -> begins "/" key = true.
Proof. intros H. by apply Add_cases in H as [(_ & ? & _)|(? & ? & ? & _)]. Qed.

(** C2, amended.  A registered pattern without wildcard markup is found
    under its own text, with no expansions, on the trie as any further
    calls of [Add] have left it, provided every other registered
    pattern that can match that text was registered later. *)
Theorem C2_plain_pattern_found t key (v : V) t1 l t2 els se :
  Add t key v = Ok (t1, Some l, None) ->
  later t1 t2 -> built t2 ->
  splitPath key = Ok (els, se) -> Forall plain els ->
  (forall l' exps', matches t2 els [] l' exps' ->
     (l', exps') = (l, []) \/ order l < order l') ->
  forall R : MapOrder, Find R t2 key = Ok (Some l, []).
Proof.
  intros Hadd Hlater Hb Hsp Hpl Hfirst R.
  pose proof (Add_begins _ _ _ _ _ _ Hadd) as Hbeg.
  apply Add_cases in Hadd as [(_ & ? & _)|(els' & se' & _ & Hsp' & Hadd)]; [done|].
  rewrite Hsp in Hsp'. simplify_eq. apply add_slot in Hadd.
  pose proof (later_slot_stays _ _ _ _ Hlater Hadd) as Hslot.
  destruct (built_inv t2 Hb) as (Hwf & _).
  eapply Find_earliest; [done | done | done | | done].
  by eapply plain_slot_matches.
Qed.

End Plain.

(** C2 as stated fails: the literal "/foo", registered after "/:a",
    is not what [Find("/foo")] returns. *)
Lemma C2_counterexample :
  exists t1 t2 la lfoo,
    Add New "/:a" "wild" = Ok (t1, Some la, None) /\
    Add t1 "/foo" "literal" = Ok (t2, Some lfoo, None) /\
    Find sorted_order t2 "/foo" = Ok (Some la, ["foo"]) /\
    la <> lfoo.
Proof.
  eexists _, _, _, _. split; [vm_compute; reflexivity|].
  split; [vm_compute; reflexivity|]. split; [vm_compute; reflexivity|]. discriminate.
Qed.

(** ** Enumerating the candidates of a path *)

Section Candidates.

Context {V : Type}.
Implicit Types (n t : @Node V) (e : @Edge V) (l : @Leaf V).

(** Every leaf that can match the elements below a node, with its
    expansions: [matches] as a list, for deciding it on a given trie. *)
Fixpoint candidates (els : list string) n (exp : list string)
  : list (Leaf * list string) :=
  match els with
  | [] =>
      match leaf n with
      | Some l => [(l, exp)]
      | None => []
      end
  | el :: els' =>
      match star n with
      | Some s => [(s, exp ++ [Join els "/"])]
      | None => []
      end ++
      (kv ← map_to_list (edges n);
       match find_edge kv.2 el with
       | Ok (Some vars) => candidates els' (node kv.2) (exp ++ vars)
       | _ => []
       end)
  end.

Lemma matches_candidates n els exp l exps :
  matches n els exp l exps -> (l, exps) ∈ candidates els n exp.
Proof.
  induction 1 as [n exp l Hl|n el els exp l Hs|n el els exp k e vars l exps Hk Hf Hm IH];
    simpl.
  - rewrite Hl. by apply list_elem_of_singleton.
  - rewrite Hs. apply elem_of_app. left. by apply list_elem_of_singleton.
  - apply elem_of_app. right. apply list_elem_of_bind. exists (k, e).
    split; [simpl; by rewrite Hf | by apply elem_of_map_to_list].
Qed.

End Candidates.

Lemma C2_witness :
  let t1 := Add_trie New "/foo" "literal" in
  let t2 := Add_trie t1 "/:a" "wild" in
  exists lfoo,
    Add_leaf New "/foo" "literal" = Some lfoo /\
    Find sorted_order t2 "/foo" = Ok (Some lfoo, []).
Proof.
  intros t1 t2. eexists. split; [vm_compute; reflexivity|].
  apply (C2_plain_pattern_found (V:=string) New "/foo" "literal" t1 _ t2 ["foo"] false).
  - vm_compute. reflexivity.
  - apply (later_Add t1 t1 "/:a" "wild" t2 (Add_leaf t1 "/:a" "wild") None);
      [apply later_refl | vm_compute; reflexivity].
  - apply (trie_of_built [("/foo", "literal"); ("/:a", "wild")]). vm_compute. discriminate.
  - vm_compute. reflexivity.
  - repeat constructor.
  - intros l' exps' Hm. apply matches_candidates in Hm. vm_compute in Hm.
    apply list_elem_of_In in Hm. simpl in Hm.
    destruct Hm as [Hm|[Hm|[]]]; injection Hm as <- <-; [left | right]; reflexivity.
Defined.

(** C8 as stated fails: the segments ":a;" and ":a" differ in their
    source text, and the two patterns below are registered behind one
    and the same edge of the root. *)
Lemma C8_counterexample :
  ":a;" <> ":a" /\
  exists t e,
    adds New [("/:a;/x", "1"); ("/:a/y", "2")] = Ok t /\
    size (edges t) = 1%nat /\ edges t !! ":a" = Some e /\
    is_Some (slot ["x"] (node e)) /\ is_Some (slot ["y"] (node e)).
Proof.
  split; [discriminate|]. eexists _, _. split; [vm_compute; reflexivity|].
  split; [vm_compute; reflexivity|]. split; [vm_compute; reflexivity|].
  split; eexists; vm_compute; reflexivity.
Qed.

(** ** Paths written by [Reverse] and read back by [Find] *)

Section RoundTripStrings.

Lemma length_app_str (a b : string) :
  String.length (a +:+ b) = (String.length a + String.length b)%nat.
Proof. induction a as [|x a IH]; [done|]. rewrite app_cons. simpl. by rewrite IH. Qed.

Lemma from_app (a b : string) : from (String.length a) (a +:+ b) = b.
Proof. induction a as [|x a IH]; [by rewrite from_0|]. by rewrite app_cons. Qed.

Lemma upto_app (a b : string) : upto (String.length a) (a +:+ b) = a.
Proof. induction a as [|x a IH]; [by destruct b|]. rewrite app_cons. simpl. by rewrite IH. Qed.

Lemma prefix_app (p rest : string) : String.prefix p (p +:+ rest) = true.
Proof.
  induction p as [|x p IH]; [by destruct rest|]. rewrite app_cons. simpl.
  by destruct (ascii_dec x x).
Qed.

Lemma prefix_length (p a : string) :
  String.prefix p a = true -> (String.length p <= String.length a)%nat.
Proof.
  revert a. induction p as [|x p IH]; intros [|y a]; simpl; try done; try lia.
  destruct (ascii_dec x y); [|done]. intros H. apply IH in H. lia.
Qed.

Lemma prefix_app_short (p a rest : string) :
  (String.length p <= String.length a)%nat ->
  String.prefix p (a +:+ rest) = String.prefix p a.
Proof.
  revert a. induction p as [|x p IH]; intros [|y a] Hlen; simpl in *; try done; try lia.
  - by destruct rest.
  - destruct (ascii_dec x y); [|done]. apply IH. lia.
Qed.

Lemma Index_cons (x : ascii) (a p : string) :
  Index (String x a) p
  = if String.prefix p (String x a) then Some O else S <$> Index a p.
Proof. done. Qed.

Lemma Index_bound (a p : string) (k : nat) :
  Index a p = Some k -> (k + String.length p <= String.length a)%nat.
Proof.
  revert k. induction a as [|x a IH]; intros k.
  - destruct p; simpl; [|done]. intros ?. simplify_eq. simpl. lia.
  - rewrite Index_cons. destruct (String.prefix p (String x a)) eqn:Hp.
    + intros ?. simplify_eq. apply prefix_length in Hp. simpl in *. lia.
    + destruct (Index a p) as [k'|] eqn:Hk; simpl; [|done].
      intros ?. simplify_eq. specialize (IH _ eq_refl). lia.
Qed.

(** The first occurrence of [p] in [a] is still the first one in
    [a] followed by anything. *)
Lemma Index_app (a p rest : string) (k : nat) :
  Index a p = Some k -> Index (a +:+ rest) p = Some k.
Proof.
  revert k. induction a as [|x a IH]; intros k Hk.
  - simpl in Hk. destruct p; [|done]. simplify_eq. by destruct rest.
  - pose proof (Index_bound _ _ _ Hk) as Hb. rewrite app_cons, Index_cons.
    rewrite Index_cons in Hk. rewrite <- app_cons.
    destruct (String.prefix p (String x a)) eqn:Hp.
    + simplify_eq. rewrite prefix_app_short by (by apply prefix_length). by rewrite Hp.
    + destruct (Index a p) as [k'|] eqn:Hk'; [|done]. simpl in Hk. simplify_eq.
      rewrite prefix_app_short, Hp by (simpl in *; lia).
      by rewrite (IH _ eq_refl).
Qed.

(** A piece without ['/'] stays in the first part of what follows it. *)
Lemma Split_prepend (s rest : string) :
  Count s "/" = O ->
  Split (s +:+ rest) "/"
  = match Split rest "/" with
    | hd :: tl => (s +:+ hd) :: tl
    | [] => [s]
    end.
Proof.
  induction s as [|c s IH]; intros Hc.
  - rewrite app_empty_l. pose proof (Split_nonempty rest "/").
    by destruct (Split rest "/").
  - simpl in Hc. destruct (decide (c = "/"%char)) as [->|Hne]; [lia|].
    rewrite app_cons. simpl. rewrite decide_False by done.
    rewrite IH by lia. by destruct (Split rest "/").
Qed.

(** The path of some segments: each one after a ['/'], then [tail]. *)
Definition join_path (segs : list string) (tail : string) : string :=
  foldr (fun s acc => "/" +:+ s +:+ acc) tail segs.

Lemma join_path_snoc (segs : list string) (s tail : string) :
  join_path (segs ++ [s]) tail = join_path segs ("/" +:+ s +:+ tail).
Proof. unfold join_path. by rewrite foldr_app. Qed.

Lemma join_path_app (segs : list string) (a b : string) :
  join_path segs (a +:+ b) = join_path segs a +:+ b.
Proof.
  induction segs as [|s segs IH]; simpl; [done|].
  by rewrite IH, !app_assoc_str.
Qed.

Lemma Split_join_path (segs : list string) (tail : string) (rest : list string) :
  Forall (fun s => Count s "/" = O) segs ->
  Split tail "/" = "" :: rest ->
  Split (join_path segs tail) "/" = "" :: segs ++ rest.
Proof.
  intros Hall Htail. induction Hall as [|s segs Hs Hall IH]; simpl; [done|].
  rewrite app_empty_l.
  rewrite Split_prepend, IH by done. by rewrite app_empty_r.
Qed.

Lemma last_app_singleton {A : Type} (l : list A) (x : A) : last (l ++ [x]) = Some x.
Proof. apply last_snoc. Qed.

(** [splitPath] gives back the segments a path was written from, when
    none of them holds a ['/'] and the last one is not empty unless a
    ['/'] follows it. *)
Lemma splitPath_join_path (segs : list string) (se : bool) :
  Forall (fun s => Count s "/" = O) segs ->
  (se = true \/ exists s, last segs = Some s /\ s <> "") ->
  splitPath (join_path segs (if se then "/" else "")) = Ok (segs, se) /\
  begins "/" (join_path segs (if se then "/" else "")) = true.
Proof.
  intros Hall Hlast. unfold splitPath. destruct se.
  - rewrite (Split_join_path segs "/" [""]) by done.
    rewrite last_snoc, removelast_last. split; [done|].
    by destruct segs.
  - destruct Hlast as [?|(s & Hs & Hne)]; [done|].
    rewrite (Split_join_path segs "" []) by done. rewrite app_nil_r, Hs.
    split; [by destruct s | by destruct segs].
Qed.

End RoundTripStrings.

Section RoundTripEdge.

Context {V : Type}.
Implicit Types (n t : @Node V) (e : @Edge V) (l : @Leaf V).

(** The text of a segment: the first alternative of every padding
    group, each followed by the value of the wildcard after it. *)
Fixpoint text_from (pads items : list string) : string :=
  match pads with
  | [] => ""
  | p :: pads' =>
      p +:+ match items with
            | [] => ""
            | i :: items' => i +:+ text_from pads' items'
            end
  end.

(** The text that is left after a padding: the next value and what
    follows it. *)
Definition rest_text (items pads : list string) : string :=
  match items with
  | [] => ""
  | i :: items' => i +:+ text_from pads items'
  end.

(** [fits_from ws pads items]: there is one value for every wildcard;
    every value is within the bounds of its wildcard and holds no
    ['/']; and the padding that follows a value occurs in the value
    followed by that padding at the end only, so that the search of the
    matcher stops where the value ends. *)
Fixpoint fits_from (ws : list Wildcard) (pads items : list string) : bool :=
  match ws, items with
  | [], [] => true
  | w :: ws', i :: items' =>
      negb (out_of_bounds w (len i))
      && bool_decide (Count i "/" = O)
      && match pads with
         | p :: _ => bool_decide (Index (i +:+ p) p = Some (String.length i))
         | [] => true
         end
      && fits_from ws' (tail pads) items'
  | _, _ => false
  end.

Lemma fits_from_length ws pads items :
  fits_from ws pads items = true -> length ws = length items.
Proof.
  revert pads items. induction ws as [|w ws IH]; intros pads [|i items] H;
    simpl in *; try done.
  apply andb_true_iff in H as [_ H]. f_equal. by eapply IH.
Qed.

Lemma fits_from_bounds ws pads items j w i :
  fits_from ws pads items = true -> ws !! j = Some w -> items !! j = Some i ->
  out_of_bounds w (len i) = false.
Proof.
  revert pads items j. induction ws as [|w0 ws IH]; intros pads [|i0 items] j H Hw Hi;
    simpl in *; try done.
  apply andb_true_iff in H as [H Hrest]. apply andb_true_iff in H as [H _].
  apply andb_true_iff in H as [H _]. apply negb_true_iff in H.
  destruct j as [|j]; simpl in *; [by simplify_eq|]. by eapply IH.
Qed.

Lemma fits_from_no_slash ws pads items :
  fits_from ws pads items = true -> Forall (fun i => Count i "/" = O) items.
Proof.
  revert pads items. induction ws as [|w ws IH]; intros pads [|i items] H;
    simpl in *; try done.
  apply andb_true_iff in H as [H Hrest]. apply andb_true_iff in H as [H _].
  apply andb_true_iff in H as [_ H]. apply bool_decide_eq_true_1 in H.
  constructor; [done|]. by eapply IH.
Qed.

(** The padding groups after the first one, on the text [Reverse]
    writes: each group is found where the value before it ends. *)
Lemma find_padding_text e groups count pre ws items vars found :
  wildcards e = pre ++ ws -> count = S (length pre) ->
  Forall (fun g => g <> []) groups ->
  (length groups <= length items)%nat ->
  fits_from ws (firsts groups) items = true ->
  find_padding e count groups (rest_text items (firsts groups), vars, found)
  = Ok (rest_text (drop (length groups) items) [],
        vars ++ take (length groups) items,
        match groups with [] => found | _ => true end).
Proof.
  revert count pre ws items vars found.
  induction groups as [|g groups IH];
    intros count pre ws items vars found Hws Hcount Hne Hlen Hfits; simpl.
  - by rewrite drop_0, take_0, app_nil_r.
  - apply Forall_cons in Hne as [Hg Hne].
    destruct g as [|p alts]; [done|]. destruct items as [|i items]; [simpl in Hlen; lia|].
    destruct ws as [|w ws]; [done|]. simpl in Hfits.
    apply andb_true_iff in Hfits as [Hfits Hrest].
    apply andb_true_iff in Hfits as [Hfits Hanchor].
    apply andb_true_iff in Hfits as [Hb _]. apply negb_true_iff in Hb.
    apply bool_decide_eq_true_1 in Hanchor. simpl.
    rewrite <- app_assoc_str, (Index_app _ _ _ _ Hanchor).
    rewrite bool_decide_eq_false_2 by lia. simpl.
    rewrite bool_decide_eq_true_2 by lia.
    assert (Hw : wildcards e !! (count - 1)%nat = Some w).
    { rewrite Hws, Hcount. replace (S (length pre) - 1)%nat with (length pre + 0)%nat by lia.
      by rewrite lookup_app_r, Nat.add_comm, Nat.add_sub by lia. }
    rewrite Hw. unfold len in Hb. rewrite Hb. simpl.
    rewrite <- (length_app_str i p), from_app.
    rewrite app_assoc_str, upto_app.
    fold (rest_text items (firsts groups)).
    rewrite (IH (S count) (pre ++ [w]) ws items (vars ++ [i]) true).
    + rewrite <- app_assoc. simpl. by destruct groups.
    + by rewrite Hws, <- app_assoc.
    + rewrite length_app. simpl. lia.
    + done.
    + simpl in Hlen. lia.
    + done.
Qed.

(** The edge accepts the text [Reverse] writes for it, and binds the
    values [Reverse] put in. *)
Lemma find_edge_text e items :
  edge_ok (padding e) (wildcards e) (wildend e) ->
  fits_from (wildcards e) (tail (firsts (padding e))) items = true ->
  find_edge e (text_from (firsts (padding e)) items) = Ok (Some items).
Proof.
  intros (Hlen & Hne & Hall) Hfits. unfold find_edge.
  pose proof (fits_from_length _ _ _ Hfits) as Hitems.
  destruct (padding e) as [|g groups] eqn:Hp; [done|].
  apply Forall_cons in Hall as [Hg Hall]. destruct g as [|p alts]; [done|].
  simpl in Hfits, Hlen. simpl.
  rewrite (prefix_Index _ p) by apply prefix_app. simpl.
  fold (rest_text items (firsts groups)). rewrite from_app.
  rewrite (find_padding_text e groups 1 [] (wildcards e) items [] true);
    [|done|done|done|destruct (wildend e); lia|done].
  simpl. assert (Hfound : match groups with [] => true | _ => true end = true) by (by destruct groups).
  rewrite Hfound. simpl.
  destruct (wildend e) eqn:Hwe.
  - assert (Hl : length items = S (length groups)) by lia.
    destruct (lookup_lt_is_Some_2 items (length groups)) as [i Hi]; [lia|].
    rewrite (drop_S _ _ _ Hi). rewrite drop_ge by lia. simpl. rewrite app_empty_r.
    destruct (lookup_lt_is_Some_2 (wildcards e) (length (wildcards e) - 1)) as [w Hw]; [lia|].
    rewrite Hw.
    rewrite (fits_from_bounds _ _ _ (length groups) w i Hfits); [|by rewrite <- Hw; f_equal; lia|done].
    rewrite <- (take_drop (length groups) items) at 2.
    by rewrite (drop_S _ _ _ Hi), (drop_ge items (S (length groups))) by lia.
  - by rewrite take_ge by lia.
Qed.

End RoundTripEdge.

Section NoSlash.

(** The pieces the pattern compiler cuts out of a key hold no byte
    the key does not hold. *)

Lemma Count_from (i : nat) (s : string) (c : ascii) :
  Count s c = O -> Count (from i s) c = O.
Proof.
  revert s. induction i as [|i IH]; intros [|x s]; simpl; try done.
  destruct (decide (x = c)); [lia|]. simpl. apply IH.
Qed.

Lemma Count_slice (i j : nat) (s : string) (c : ascii) :
  Count s c = O -> Count (slice i j s) c = O.
Proof. intros H. unfold slice. by apply Count_upto, Count_from. Qed.

Lemma Count_app (a b : string) (c : ascii) :
  Count (a +:+ b) c = (Count a c + Count b c)%nat.
Proof.
  induction a as [|x a IH]; [done|]. rewrite app_cons. simpl. rewrite IH. lia.
Qed.

Lemma splitInput_loop_free (c : ascii) n s rest i start na inside a a' na' start' :
  Count s c = O -> Forall (fun x => Count x c = O) a ->
  splitInput_loop n s rest i start na inside a = (a', na', start') ->
  Forall (fun x => Count x c = O) a'.
Proof.
  intros Hs. revert i start na inside a.
  induction rest as [|x rest IH]; intros i start na inside a Ha Hrun; simpl in Hrun.
  - by simplify_eq.
  - destruct (na + 1 <? n)%nat; [|by simplify_eq].
    destruct (_ || _); eapply IH in Hrun; try done.
    apply Forall_insert; [done | by apply Count_slice].
Qed.

Lemma splitInput_free (c : ascii) (s : string) :
  Count s c = O -> Forall (fun x => Count x c = O) (splitInput s).
Proof.
  intros Hs. unfold splitInput. destruct (decide (s = "")) as [->|_]; [by repeat constructor|].
  set (n := (_ + 1)%nat).
  destruct (splitInput_loop n s s 0 0 0 false (replicate n "")) as [[a na] start] eqn:Hrun.
  apply (splitInput_loop_free c) in Hrun; [|done|by apply Forall_replicate].
  apply Forall_take, Forall_insert; [done | by apply Count_from].
Qed.

Lemma splitPad_loop_free (c : ascii) n s rest i start na a a' na' start' :
  Count s c = O -> Forall (fun x => Count x c = O) a ->
  splitPad_loop n s rest i start na a = (a', na', start') ->
  Forall (fun x => Count x c = O) a'.
Proof.
  intros Hs. revert i start na a.
  induction rest as [|x rest IH]; intros i start na a Ha Hrun; simpl in Hrun.
  - by simplify_eq.
  - destruct (na + 1 <? n)%nat; [|by simplify_eq].
    destruct (bool_decide _); eapply IH in Hrun; try done.
    apply Forall_insert; [done | by apply Count_slice].
Qed.

Lemma splitPad_free (c : ascii) (s : string) :
  Count s c = O -> Forall (fun x => Count x c = O) (splitPad s).
Proof.
  intros Hs. unfold splitPad. destruct (decide (s = "")) as [->|_]; [by repeat constructor|].
  set (n := (_ + 1)%nat).
  destruct (splitPad_loop n s s 0 0 0 (replicate n "")) as [[a na] start] eqn:Hrun.
  apply (splitPad_loop_free c) in Hrun; [|done|by apply Forall_replicate].
  apply Forall_take, Forall_insert; [done | by apply Count_from].
Qed.

Lemma compile_free (c : ascii) parts paddings variables :
  Forall (fun x => Count x c = O) parts ->
  compile parts = Ok (paddings, variables) ->
  Forall (Forall (fun x => Count x c = O)) paddings.
Proof.
  intros Hparts Hc. unfold compile in Hc. inv_bind Hc.
  destruct a as [[[p v] key] inside]. simplify_eq.
  apply (rfold_ind (fun _ (st : parts_state) =>
           Forall (Forall (fun x => Count x c = O)) st.1.1.1)) in Ha; [done| |].
  - simpl. apply Forall_replicate. constructor.
  - intros j [[[p' v'] key'] inside'] x [[[p'' v''] key''] inside''] Hj Hinv Hstep.
    simpl in *. unfold parts_step in Hstep. destruct inside'; simpl in Hstep.
    + inv_bind Hstep. destruct (key' <? length v')%nat; by simplify_eq.
    + destruct (key' <? length p')%nat; [|done]. simplify_eq.
      apply Forall_insert; [done|]. apply splitPad_free.
      by eapply (Forall_lookup_1 _ _ _ _ Hparts).
Qed.

Lemma Count_text_from (c : ascii) (pads items : list string) :
  Forall (fun x => Count x c = O) pads -> Forall (fun x => Count x c = O) items ->
  Count (text_from pads items) c = O.
Proof.
  intros Hp. revert items. induction Hp as [|p pads Hp Hpads IH]; intros items Hi; simpl; [done|].
  rewrite Count_app, Hp. simpl. destruct Hi as [|i items Hi His]; [done|].
  by rewrite Count_app, Hi, IH.
Qed.

Lemma firsts_free (c : ascii) (padding : list (list string)) :
  Forall (Forall (fun x => Count x c = O)) padding ->
  Forall (fun x => Count x c = O) (firsts padding).
Proof.
  intros H. unfold firsts. apply Forall_fmap. eapply Forall_impl; [done|].
  intros g Hg. simpl. by destruct Hg.
Qed.

End NoSlash.

Section RoundTrip.

Context {V : Type}.
Implicit Types (n t : @Node V) (e : @Edge V) (l : @Leaf V).
Implicit Types (m : gmap string string) (h : store) (u : EdgeUp).

(** The values [Reverse] puts for the wildcards of one edge, in order,
    and the map it leaves. *)
Fixpoint fill_items (ws : list Wildcard) m : list string * gmap string string :=
  match ws with
  | [] => ([], m)
  | w :: ws' =>
      let '(item, m, _) := substitute w m [] in
      let '(items, m) := fill_items ws' m in
      (item :: items, m)
  end.

(** The segment and the values of every edge of a chain, nearest edge
    first, in the order [Reverse] works through them. *)
Fixpoint chain_parts (chain : NodeRef) m : list (string * list string) :=
  match chain with
  | [] => []
  | u :: up =>
      let '(items, m) := fill_items (up_wildcards u) m in
      (text_from (firsts (up_padding u)) items, items) :: chain_parts up m
  end.

(** The edges from a node down to the node that holds a leaf. *)
Inductive leaf_at : Node -> list Edge -> Leaf -> Prop :=
  | at_here n l : leaf n = Some l -> leaf_at n [] l
  | at_below n k e es l :
      edges n !! k = Some e -> leaf_at (node e) es l -> leaf_at n (e :: es) l.

Lemma substitute_missed w m missed :
  (substitute w m missed).1 = (substitute w m []).1.
Proof.
  unfold substitute. destruct (m !! Name w) as [value|]; [|done].
  by destruct (out_of_bounds w (len value)).
Qed.

Lemma fill_fill_items (we : bool) pads ws m missed :
  length pads = (length ws + (if we then 0 else 1))%nat ->
  (fill pads ws m missed).1.2 = (fill_items ws m).2 /\
  (fill pads ws m missed).1.1 +:+ (if we then "" else default "" (last pads))
  = text_from pads (fill_items ws m).1.
Proof.
  revert pads m missed. induction ws as [|w ws IH]; intros pads m missed Hlen; simpl in *.
  - split; [done|]. destruct we.
    + by destruct pads.
    + destruct pads as [|p [|]]; simpl in *; try lia. by rewrite app_empty_r.
  - pose proof (substitute_missed w m missed) as Hs.
    destruct (substitute w m missed) as [[item m1] missed1].
    destruct (substitute w m []) as [[item' m1'] missed1']. simpl in Hs. simplify_eq.
    destruct pads as [|p pads]; [simpl in Hlen; lia|]. simpl in *.
    destruct (IH pads m1' missed1) as [IHm IHt]; [lia|].
    destruct (fill pads ws m1' missed1) as [[rest m2] missed2].
    destruct (fill_items ws m1') as [items m2']. simpl in *.
    split; [done|]. rewrite <- IHt, !app_assoc_str. do 3 f_equal.
    destruct we; [done|]. destruct pads; [simpl in *; lia | done].
Qed.

Lemma segment_spec_parts u m missed :
  up_ok u ->
  (segment_spec u m missed).1
  = (text_from (firsts (up_padding u)) (fill_items (up_wildcards u) m).1,
     (fill_items (up_wildcards u) m).2).
Proof.
  intros (Hlen & _). unfold segment_spec.
  destruct (fill_fill_items (up_wildend u) (firsts (up_padding u)) (up_wildcards u) m missed)
    as [Hm Ht]; [by unfold firsts; rewrite length_fmap|].
  destruct (fill _ _ m missed) as [[text m1] missed1]. simpl in *.
  rewrite <- Ht, Hm. by destruct (up_wildend u); [rewrite app_empty_r|].
Qed.

(** The text [Reverse] returns is the path of the segments, the one of
    the edge at the root first. *)
Lemma reverse_spec_front (chain : NodeRef) m missed :
  Forall up_ok chain ->
  (reverse_spec chain m missed).1.1 = join_path (rev (chain_parts chain m).*1) "".
Proof.
  intros Hok. revert m missed. induction Hok as [|u up Hu Hup IH]; intros m missed; simpl;
    [done|].
  pose proof (segment_spec_parts u m missed Hu) as Hseg.
  destruct (segment_spec u m missed) as [[seg m1] missed1]. simpl in Hseg.
  destruct (fill_items (up_wildcards u) m) as [items m1']. simpl in *. simplify_eq.
  specialize (IH m1' missed1).
  destruct (reverse_spec up m1' missed1) as [[front m2] missed2]. simpl in *.
  rewrite IH, join_path_snoc.
  rewrite <- (app_empty_l ("/" +:+ _ +:+ "")), join_path_app.
  by rewrite app_empty_r.
Qed.

Lemma chain_parts_shape (chain : NodeRef) m :
  Forall2 (fun u part => part.1 = text_from (firsts (up_padding u)) part.2)
    chain (chain_parts chain m).
Proof.
  revert m. induction chain as [|u up IH]; intros m; simpl; [constructor|].
  destruct (fill_items (up_wildcards u) m) as [items m1]. by constructor.
Qed.

Lemma wf_leaf_at lo hi n es l :
  wf lo hi n -> leaf_at n es l ->
  parent l = Some (rev (edge_up <$> es) ++ nparent n) /\
  Forall up_ok (rev (edge_up <$> es) ++ nparent n).
Proof.
  intros Hwf Hat. revert lo Hwf.
  induction Hat as [n l Hl|n k e es l Hk Hat IH]; intros lo Hwf.
  - inversion Hwf as [? Hup H _ _ _]; subst. destruct (H l Hl) as (_ & ? & _). by split.
  - destruct (wf_edge _ _ _ _ _ Hwf Hk) as (_ & _ & Hwfe).
    inversion Hwf as [? _ _ _ He _]; subst. destruct (He k e Hk) as (_ & _ & _ & Hp).
    destruct (IH _ Hwfe) as [Hpar Hok]. rewrite Hp in Hpar, Hok.
    simpl. by rewrite <- app_assoc.
Qed.

(** The paddings of the edges on the way hold no ['/']. *)
Lemma wf_leaf_at_free lo hi n es l :
  wf lo hi n -> leaf_at n es l ->
  Forall (fun e => edge_ok (padding e) (wildcards e) (wildend e) /\
                   Forall (fun x => Count x "/" = O) (firsts (padding e))) es.
Proof.
  intros Hwf Hat. revert lo Hwf.
  induction Hat as [n l Hl|n k e es l Hk Hat IH]; intros lo Hwf; [constructor|].
  destruct (wf_edge _ _ _ _ _ Hwf Hk) as (Hc & _ & Hwfe).
  inversion Hwf as [? _ _ _ He _]; subst. destruct (He k e Hk) as (_ & Hfree & _).
  constructor; [|by eapply IH]. split; [by eapply compiled_ok|].
  destruct Hc as [Hc _]. apply firsts_free.
  eapply compile_free; [|done]. by apply splitInput_free.
Qed.

(** A leaf can match the segments written for the edges above it, and
    binds the values that were put in. *)
Lemma leaf_at_matches n es l (parts : list (string * list string)) exp :
  leaf_at n es l ->
  Forall (fun e => edge_ok (padding e) (wildcards e) (wildend e)) es ->
  Forall2 (fun e part =>
             part.1 = text_from (firsts (padding e)) part.2 /\
             fits_from (wildcards e) (tail (firsts (padding e))) part.2 = true)
    es parts ->
  matches n parts.*1 exp l (exp ++ concat parts.*2).
Proof.
  intros Hat. revert parts exp.
  induction Hat as [n l Hl|n k e es l Hk Hat IH]; intros parts exp Hok Hparts.
  - apply Forall2_nil_inv_l in Hparts as ->. simpl. rewrite app_nil_r. by apply matches_leaf.
  - apply Forall2_cons_inv_l in Hparts as (part & parts' & [Htext Hfits] & Hparts & ->).
    apply Forall_cons in Hok as [Hoke Hok]. simpl.
    eapply matches_edge; [done | |].
    + rewrite Htext. by apply find_edge_text.
    + rewrite app_assoc. by apply IH.
Qed.

End RoundTrip.

Section RoundTripClaim.

Context {V : Type}.
Implicit Types (n t : @Node V) (e : @Edge V) (l : @Leaf V).
Implicit Types (m : gmap string string) (h : store).

(** The segment and the values of every edge on the way to a leaf, the
    edge at the root first: what [Reverse] writes and what it puts in. *)
Definition round_trip_parts (es : list (@Edge V)) m : list (string * list string) :=
  rev (chain_parts (rev (edge_up <$> es)) m).

(** [unrivalled o n es segs]: at every node on the way, an edge other
    than the one taken either takes no registration earlier than [o],
    so that [find] skips it once the leaf of order [o] is the best
    match, or does not accept the segment.  No second [append] to [exp]
    can then follow the one that wrote the values of the leaf. *)
Fixpoint unrivalled (o : Z) n (es : list (@Edge V)) (segs : list string) : Prop :=
  match es, segs with
  | e :: es', seg :: segs' =>
      map_Forall (fun _ e' => e' = e \/ o < minorder e' \/ find_edge e' seg = Ok None)
        (edges n) /\
      unrivalled o (node e) es' segs'
  | _, _ => True
  end.

Lemma fmap_rev {A B : Type} (f : A -> B) (xs : list A) : f <$> rev xs = rev (f <$> xs).
Proof. induction xs as [|x xs IH]; simpl; [done|]. by rewrite fmap_app, IH. Qed.

Lemma Forall2_rev {A B : Type} (P : A -> B -> Prop) (xs : list A) (ys : list B) :
  Forall2 P xs ys -> Forall2 P (rev xs) (rev ys).
Proof.
  induction 1 as [|x y xs ys Hxy H IH]; simpl; [constructor|].
  apply Forall2_app; [done | by repeat constructor].
Qed.

Lemma Forall2_both {A B : Type} (P Q : A -> B -> Prop) (xs : list A) (ys : list B) :
  Forall2 P xs ys -> Forall2 Q xs ys -> Forall2 (fun x y => P x y /\ Q x y) xs ys.
Proof.
  intros HP. induction HP as [|x y xs ys Hxy H IH]; intros HQ.
  - constructor.
  - apply Forall2_cons in HQ as [? ?]. constructor; [done | by apply IH].
Qed.

Lemma round_trip_parts_shape (es : list (@Edge V)) m :
  Forall2 (fun e part => part.1 = text_from (firsts (padding e)) part.2)
    es (round_trip_parts es m).
Proof.
  unfold round_trip_parts.
  pose proof (Forall2_rev _ _ _ (chain_parts_shape (rev (edge_up <$> es)) m)) as H.
  rewrite rev_involutive in H. by apply Forall2_fmap_l in H.
Qed.

(** C3, amended.  For a leaf registered behind edges (not a star), let
    [Reverse] write its path from the caller's map.  When every value it
    put in fits its wildcard ([fits_from]: within the bounds, without
    ['/'], and not running into the padding that follows), the last
    segment is not empty unless the pattern ends in ['/'], every other
    registered pattern that can match the path was registered later,
    and no edge beside the way that an earlier registration went
    through accepts its segment ([unrivalled]), [Find] on the path
    returns that leaf, with the values [Reverse] put in as expansions,
    in the order of the path.

    The hypothesis [unrivalled] is not used by the proof: slices are
    values here.  It keeps the statement to the runs of the source in
    which the slice of expansions returned for the leaf is not written
    again by an [append(exp, ...)] of an edge visited later, which can
    reuse the backing array of [exp]. *)
Theorem C3_Reverse_then_Find t es l r h m :
  built t -> leaf_at t es l -> h !! r = Some m ->
  Forall2 (fun e part =>
             fits_from (wildcards e) (tail (firsts (padding e))) part.2 = true)
    es (round_trip_parts es m) ->
  (slashend l = true \/
   exists s, last (round_trip_parts es m).*1 = Some s /\ s <> "") ->
  (forall l' exps', matches t (round_trip_parts es m).*1 [] l' exps' ->
     (l', exps') = (l, concat (round_trip_parts es m).*2) \/ order l < order l') ->
  unrivalled (order l) t es (round_trip_parts es m).*1 ->
  exists path missed h',
    Reverse t (Some l) r h = Ok (path, r, missed, h') /\
    forall R : MapOrder,
      Find R t path = Ok (Some l, concat (round_trip_parts es m).*2).
Proof.
  intros Hb Hat Hr Hfits Hlast Hfirst _.
  destruct (built_inv t Hb) as (Hwf & _ & Hroot).
  destruct (wf_leaf_at _ _ _ _ _ Hwf Hat) as [Hpar Hok].
  pose proof (wf_leaf_at_free _ _ _ _ _ Hwf Hat) as Hfree.
  rewrite Hroot, app_nil_r in Hpar, Hok.
  set (chain := rev (edge_up <$> es)) in *.
  set (parts := round_trip_parts es m) in *.
  pose proof (round_trip_parts_shape es m) as Hshape. fold parts in Hshape.
  assert (Hpath : Reverse t (Some l) r h
          = Ok (join_path parts.*1 (if slashend l then "/" else ""), r,
                (reverse_spec chain m []).2, <[r := (reverse_spec chain m []).1.2]> h)).
  { unfold Reverse. rewrite Hpar.
    rewrite (reverse_refines chain "" r [] (slashend l) h m Hok Hr).
    rewrite reverse_spec_front by done.
    unfold parts, round_trip_parts. fold chain. rewrite fmap_rev.
    rewrite <- join_path_app. by destruct (slashend l). }
  eexists _, _, _. split; [exact Hpath|]. intros R.
  assert (Hsegs : Forall (fun s => Count s "/" = O) parts.*1).
  { apply Forall_fmap.
    pose proof (Forall2_both _ _ _ _ Hshape Hfits) as Hboth.
    clear -Hboth Hfree. induction Hboth as [|e part es' parts' [Ht Hf] Hboth IH];
      [constructor|].
    apply Forall_cons in Hfree as [[_ He] Hfree]. constructor; [|by apply IH].
    simpl. rewrite Ht. apply Count_text_from; [done | by eapply fits_from_no_slash]. }
  destruct (splitPath_join_path parts.*1 (slashend l) Hsegs Hlast) as [Hsp Hbeg].
  eapply Find_earliest; [done | done | done | | done].
  apply (leaf_at_matches t es l parts [] Hat).
  - eapply Forall_impl; [exact Hfree|]. by intros e [? _].
  - by apply Forall2_both.
Qed.

End RoundTripClaim.

(** C3 as stated fails, in two ways: a value that holds a ['/'] makes
    a path of more segments than the pattern has, which finds nothing;
    and the path written for a pattern can be one that an earlier
    pattern matches, which then is the one found. *)
Lemma C3_counterexample :
  (let t := Add_trie New "/:a" "x" in
   let l := Add_leaf New "/:a" "x" in
   Reverse t l 0%nat {[ 0%nat := {[ "a" := "x/y" ]} ]}
   = Ok ("/x/y", 0%nat, [], {[ 0%nat := ∅ ]}) /\
   Find sorted_order t "/x/y" = Ok (None, [])) /\
  (let t1 := Add_trie New "/:a/:b" "first" in
   let t2 := Add_trie t1 "/not/:c" "second" in
   let l2 := Add_leaf t1 "/not/:c" "second" in
   Reverse t2 l2 0%nat {[ 0%nat := {[ "c" := "found" ]} ]}
   = Ok ("/not/found", 0%nat, [], {[ 0%nat := ∅ ]}) /\
   Find sorted_order t2 "/not/found"
   = Ok (Add_leaf New "/:a/:b" "first", ["not"; "found"]) /\
   Add_leaf New "/:a/:b" "first" <> l2).
Proof.
  split; [split; vm_compute; reflexivity|].
  split; [vm_compute; reflexivity|]. split; [vm_compute; reflexivity|].
  vm_compute. discriminate.
Qed.

Lemma C3_witness :
  let t := trie_of [("/P:first;/U:second/", "1"); ("/Archive_:first;_all", "2");
                    ("/Archive_:first;_:[2,4]year;", "3")] in
  exists e l,
    edges t !! "Archive_:first;_:[2,4]year" = Some e /\
    leaf (node e) = Some l /\ Value l = "3" /\
    Reverse t (Some l) 0%nat {[ 0%nat := {[ "first" := "March"; "year" := "2013" ]} ]}
    = Ok ("/Archive_March_2013", 0%nat, [], {[ 0%nat := ∅ ]}) /\
    Find sorted_order t "/Archive_March_2013" = Ok (Some l, ["March"; "2013"]).
Proof.
  intros t.
  assert (Hb : built t) by (apply trie_of_built; vm_compute; discriminate).
  eexists _, _. split; [vm_compute; reflexivity|].
  match goal with |- leaf (node ?e0) = _ /\ _ => set (e := e0) end.
  split; [vm_compute; reflexivity|].
  match goal with |- Value ?l0 = _ /\ _ => set (l := l0) end.
  split; [reflexivity|]. split; [vm_compute; reflexivity|].
  assert (Hat : leaf_at t [e] l).
  { apply (at_below _ "Archive_:first;_:[2,4]year"); [vm_compute; reflexivity|].
    by apply at_here. }
  destruct (C3_Reverse_then_Find t [e] l 0%nat
              {[ 0%nat := {[ "first" := "March"; "year" := "2013" ]} ]}
              {[ "first" := "March"; "year" := "2013" ]} Hb Hat (lookup_singleton_eq _ _))
    as (path & missed & h' & Hrev & Hfind).
  - repeat constructor.
  - right. exists "Archive_March_2013". split; [reflexivity | discriminate].
  - intros l' exps' Hm. apply matches_candidates in Hm. vm_compute in Hm.
    apply list_elem_of_In in Hm. simpl in Hm.
    destruct Hm as [Hm|[]]. injection Hm as <- <-. left. reflexivity.
  - split; [|exact I]. apply map_Forall_to_list. vm_compute map_to_list.
    repeat constructor; simpl;
      first [left; reflexivity | right; right; vm_compute; reflexivity].
  - specialize (Hfind sorted_order).
    assert (Hp : path = "/Archive_March_2013").
    { vm_compute in Hrev. by injection Hrev as <- _ _. }
    rewrite Hp in Hfind. exact Hfind.
Defined.

(** * The pattern compiler, function by function *)

(** ** Slices of byte strings *)

Section Slices.

Lemma length_from (i : nat) (s : string) :
  String.length (from i s) = (String.length s - i)%nat.
Proof. revert s. induction i as [|i IH]; intros [|c s]; simpl; done. Qed.

Lemma from_app_le (i : nat) (a b : string) :
  (i <= String.length a)%nat -> from i (a +:+ b) = from i a +:+ b.
Proof.
  revert a. induction i as [|i IH]; intros [|c a] Hi; simpl in *; try done; try lia.
  apply IH. lia.
Qed.

Lemma from_length (s : string) : from (String.length s) s = "".
Proof. induction s as [|c s IH]; simpl; done. Qed.

Lemma app_snoc (a : string) (c : ascii) (b : string) :
  (a +:+ String c "") +:+ b = a +:+ String c b.
Proof. by rewrite app_assoc_str. Qed.

Lemma length_snoc (a : string) (c : ascii) :
  String.length (a +:+ String c "") = S (String.length a).
Proof. rewrite length_app_str. simpl. lia. Qed.

(** [s[start:i]] when the first [i] bytes of [s] are [pre]. *)
Lemma slice_app (start : nat) (pre rest : string) :
  (start <= String.length pre)%nat ->
  slice start (String.length pre) (pre +:+ rest) = from start pre.
Proof.
  intros Hs. unfold slice. rewrite from_app_le by done.
  rewrite <- (length_from start pre). apply upto_app.
Qed.

Lemma Count_cons (c : ascii) (s : string) (sep : ascii) :
  Count (String c s) sep = ((if decide (c = sep) then 1 else 0) + Count s sep)%nat.
Proof. done. Qed.

Lemma Split_cons (c : ascii) (s : string) (sep : ascii) :
  Split (String c s) sep
  = if decide (c = sep) then "" :: Split s sep
    else match Split s sep with
         | [] => [String c ""]
         | x :: xs => String c x :: xs
         end.
Proof. done. Qed.

Lemma Split_free (s : string) (sep : ascii) : Count s sep = O -> Split s sep = [s].
Proof.
  induction s as [|c s IH]; simpl; [done|].
  destruct (decide (c = sep)); [lia|]. simpl. intros H. by rewrite IH.
Qed.

Lemma Join_Split (s : string) (sep : ascii) : Join (Split s sep) (String sep "") = s.
Proof.
  induction s as [|c s IH]; [done|]. simpl.
  pose proof (Split_nonempty s sep) as Hne.
  destruct (decide (c = sep)) as [->|Hc].
  - unfold Join in *. simpl. destruct (Split s sep) as [|x xs]; [done|].
    by rewrite IH.
  - unfold Join in *. destruct (Split s sep) as [|x xs]; [done|].
    rewrite <- IH. simpl. by destruct xs.
Qed.

(** The part in progress put in front of the parts that follow. *)
Definition glue (p : string) (parts : list string) : list string :=
  match parts with
  | x :: xs => (p +:+ x) :: xs
  | [] => [p]
  end.

Lemma glue_empty (parts : list string) : parts <> [] -> glue "" parts = parts.
Proof. by destruct parts. Qed.

End Slices.

(** ** [splitPad] *)

Section SplitPad.

(** The loop of [splitPad] after the bytes [pre] of [s]: the slots
    below [na] are closed, the part in progress began at [start], and
    the array has room for every ['|'] still to come. *)
Lemma splitPad_loop_spec n s pre rest start na a :
  s = pre +:+ rest -> length a = n ->
  (na + Count rest "|" + 1 <= n)%nat -> (start <= String.length pre)%nat ->
  forall a' na' start',
    splitPad_loop n s rest (String.length pre) start na a = (a', na', start') ->
    take (na' + 1) (<[na' := from start' s]> a')
    = take na a ++ glue (from start pre) (Split rest "|").
Proof.
  revert pre start na a. induction rest as [|c rest IH];
    intros pre start na a Hs Hlen Hroom Hstart a' na' start' Hrun; simpl in Hrun.
  - simplify_eq. rewrite app_empty_r. simpl. rewrite app_empty_r.
    rewrite Nat.add_1_r. erewrite take_S_r; [|apply list_lookup_insert_eq; simpl in *; lia].
    by rewrite take_insert_ge by lia.
  - rewrite Count_cons in Hroom.
    assert (Hs' : s = (pre +:+ String c "") +:+ rest) by (by rewrite app_snoc).
    rewrite !Nat.add_1_r in Hrun. rewrite <- (length_snoc pre c) in Hrun.
    destruct (S na <? n)%nat eqn:Hguard.
    + destruct (decide (c = "|"%char)) as [->|Hc].
      * rewrite bool_decide_eq_true_2 in Hrun by done.
        eapply IH in Hrun; [|done|by rewrite length_insert|lia|by rewrite length_snoc].
        rewrite Hrun. rewrite from_length, glue_empty by apply Split_nonempty.
        erewrite take_S_r; [|apply list_lookup_insert_eq; lia].
        rewrite take_insert_ge by lia. rewrite <- app_assoc.
        rewrite Split_cons, decide_True by done. simpl. rewrite app_empty_r.
        by rewrite Hs, slice_app.
      * rewrite bool_decide_eq_false_2 in Hrun by done.
        eapply IH in Hrun; [|done|done|lia|rewrite length_snoc; lia].
        rewrite Hrun. f_equal. rewrite Split_cons, decide_False by done.
        rewrite from_app_le by done.
        pose proof (Split_nonempty rest "|").
        destruct (Split rest "|") as [|x xs]; [done|]. simpl. by rewrite app_snoc.
    + apply Nat.ltb_ge in Hguard. simplify_eq.
      assert (Hc : c <> "|"%char) by (intros ->; rewrite decide_True in Hroom by done; lia).
      rewrite decide_False in Hroom by done.
      rewrite (Split_free (String c rest)) by (rewrite Count_cons, decide_False by done; lia).
      simpl. rewrite Nat.add_1_r. erewrite take_S_r; [|apply list_lookup_insert_eq; lia].
      rewrite take_insert_ge by lia. by rewrite from_app_le.
Qed.

Lemma splitPad_Split (s : string) : splitPad s = Split s "|".
Proof.
  unfold splitPad. destruct (decide (s = "")) as [->|Hne]; [done|].
  set (n := (Count s "|" + 1)%nat).
  destruct (splitPad_loop n s s 0 0 0 (replicate n "")) as [[a na] start] eqn:Hrun.
  apply (splitPad_loop_spec n s "" s 0 0 (replicate n "")) in Hrun;
    [|done|by rewrite length_replicate|unfold n; lia|simpl; lia].
  rewrite Hrun. simpl. apply glue_empty, Split_nonempty.
Qed.

(** X1.  [splitPad] cuts its argument at every ['|'], as
    [strings.Split(s, "|")] does: the capacity it computes and the
    guard of its loop never cut a part short; joining the alternatives
    with ['|'] gives the argument back. *)
Theorem splitPad_is_Split (s : string) :
  splitPad s = Split s "|" /\ Join (splitPad s) "|" = s.
Proof.
  split; [apply splitPad_Split|]. rewrite splitPad_Split. apply Join_Split.
Qed.

End SplitPad.

(** ** [splitInput] *)

Section SplitInput.

(** Whether the byte [c] closes the part in progress: a [':'] outside
    a wildcard, a [';'] inside one. *)
Definition closes (inside : bool) (c : ascii) : bool :=
  (bool_decide (c = ":"%char) && negb inside)
  || (bool_decide (c = ";"%char) && inside).

(** The parts of a segment, padding and wildcard in turn, by recursion
    on the text. *)
Fixpoint cut (inside : bool) (s : string) : list string :=
  match s with
  | EmptyString => [""]
  | String c s' =>
      if closes inside c then "" :: cut (negb inside) s'
      else glue (String c "") (cut inside s')
  end.

(** The separator that closes a part: [':'] after padding, [';'] after
    a wildcard. *)
Definition closer (inside : bool) : ascii := if inside then ";"%char else ":"%char.

(** The parts put together again, each followed by its closer. *)
Fixpoint weave (inside : bool) (parts : list string) : string :=
  match parts with
  | [] => ""
  | [p] => p
  | p :: rest => p +:+ String (closer inside) (weave (negb inside) rest)
  end.

Lemma cut_nonempty (inside : bool) (s : string) : cut inside s <> [].
Proof.
  revert inside. induction s as [|c s IH]; intros inside; simpl; [done|].
  destruct (closes inside c); [done|]. specialize (IH inside).
  by destruct (cut inside s).
Qed.

Lemma cut_cons (inside : bool) (c : ascii) (s : string) :
  cut inside (String c s)
  = if closes inside c then "" :: cut (negb inside) s
    else glue (String c "") (cut inside s).
Proof. done. Qed.

Lemma cut_free (inside : bool) (s : string) :
  Count s ":" = O -> Count s ";" = O -> cut inside s = [s].
Proof.
  induction s as [|c s IH]; [done|]. rewrite !Count_cons, cut_cons. unfold closes.
  destruct (decide (c = ":"%char)); [lia|]. destruct (decide (c = ";"%char)); [lia|].
  intros H1 H2. rewrite !bool_decide_eq_false_2 by done. simpl.
  by rewrite IH.
Qed.

Lemma weave_cut (inside : bool) (s : string) : weave inside (cut inside s) = s.
Proof.
  revert inside. induction s as [|c s IH]; intros inside; [done|].
  rewrite cut_cons. destruct (closes inside c) eqn:Hc.
  - pose proof (cut_nonempty (negb inside) s) as Hne. specialize (IH (negb inside)).
    simpl. destruct (cut (negb inside) s) as [|x xs]; [done|].
    rewrite IH. f_equal. unfold closes in Hc. unfold closer.
    destruct inside; simpl in Hc; rewrite ?andb_false_r, ?andb_true_r, ?orb_false_r in Hc;
      simpl in Hc; apply bool_decide_eq_true_1 in Hc; by subst.
  - pose proof (cut_nonempty inside s) as Hne. specialize (IH inside).
    destruct (cut inside s) as [|x xs]; [done|]. simpl in *.
    destruct xs; by rewrite <- IH.
Qed.

(** No part holds the byte that would have closed it. *)
Lemma cut_clean (inside : bool) (s : string) (i : nat) (p : string) :
  cut inside s !! i = Some p ->
  Count p (closer (if Nat.even i then inside else negb inside)) = O.
Proof.
  revert inside i p. induction s as [|c s IH]; intros inside i p Hi.
  - destruct i; simpl in Hi; by simplify_eq.
  - rewrite cut_cons in Hi. destruct (closes inside c) eqn:Hc.
    + destruct i as [|i]; simpl in Hi; [by simplify_eq|].
      apply IH in Hi. rewrite Nat.even_succ, <- Nat.negb_even.
      destruct (Nat.even i); simpl in *; [done|]. by rewrite negb_involutive in Hi.
    + pose proof (cut_nonempty inside s) as Hne.
      destruct (cut inside s) as [|x xs] eqn:Hcut; [done|]. simpl in Hi.
      destruct i as [|i]; simpl in Hi.
      * simplify_eq. pose proof (IH inside O x) as Hx. rewrite Hcut in Hx.
        specialize (Hx eq_refl). change (Nat.even 0) with true in *. cbv iota in *.
        rewrite app_cons, app_empty_l, Count_cons, Hx.
        rewrite decide_False; [done|]. intros ->. unfold closes, closer in *.
        destruct inside; simpl in Hc; by rewrite ?bool_decide_eq_true_2 in Hc by done.
      * apply (IH inside (S i) p). by rewrite Hcut.
Qed.

Lemma glue_glue (p q : string) (parts : list string) :
  parts <> [] -> glue p (glue q parts) = glue (p +:+ q) parts.
Proof. destruct parts as [|x xs]; [done|]. intros _. simpl. by rewrite app_assoc_str. Qed.

(** The loop of [splitInput] after the bytes [pre] of [s]. *)
Lemma splitInput_loop_spec n s pre rest start na inside a :
  s = pre +:+ rest -> length a = n ->
  (na + Count rest ":" + Count rest ";" + 1 <= n)%nat ->
  (start <= String.length pre)%nat ->
  forall a' na' start',
    splitInput_loop n s rest (String.length pre) start na inside a = (a', na', start') ->
    take (na' + 1) (<[na' := from start' s]> a')
    = take na a ++ glue (from start pre) (cut inside rest).
Proof.
  revert pre start na inside a. induction rest as [|c rest IH];
    intros pre start na inside a Hs Hlen Hroom Hstart a' na' start' Hrun; simpl in Hrun.
  - simplify_eq. rewrite app_empty_r. simpl. rewrite app_empty_r.
    rewrite Nat.add_1_r. erewrite take_S_r; [|apply list_lookup_insert_eq; simpl in *; lia].
    by rewrite take_insert_ge by lia.
  - rewrite !Count_cons in Hroom.
    assert (Hs' : s = (pre +:+ String c "") +:+ rest) by (by rewrite app_snoc).
    rewrite !Nat.add_1_r in Hrun. rewrite <- (length_snoc pre c) in Hrun.
    fold (closes inside c) in Hrun. rewrite cut_cons.
    destruct (S na <? n)%nat eqn:Hguard.
    + destruct (closes inside c) eqn:Hc.
      * assert (Hone : (1 <= (if decide (c = ":"%char) then 1 else 0)
                          + (if decide (c = ";"%char) then 1 else 0))%nat).
        { unfold closes in Hc. destruct (decide (c = ":"%char)), (decide (c = ";"%char));
            try lia. by rewrite !bool_decide_eq_false_2 in Hc by done. }
        eapply IH in Hrun; [|done|by rewrite length_insert|lia|by rewrite length_snoc].
        rewrite Hrun. rewrite from_length, glue_empty by apply cut_nonempty.
        erewrite take_S_r; [|apply list_lookup_insert_eq; lia].
        rewrite take_insert_ge by lia. rewrite <- app_assoc. simpl.
        rewrite app_empty_r. by rewrite Hs, slice_app.
      * eapply IH in Hrun; [|done|done|lia|rewrite length_snoc; lia].
        rewrite Hrun. f_equal. rewrite from_app_le by done.
        by rewrite glue_glue by apply cut_nonempty.
    + apply Nat.ltb_ge in Hguard. simplify_eq.
      assert (Hfree : Count (String c rest) ":" = O /\ Count (String c rest) ";" = O)
        by (rewrite !Count_cons; lia).
      destruct Hfree as [H1 H2]. rewrite <- cut_cons, (cut_free _ _ H1 H2).
      simpl. rewrite Nat.add_1_r. erewrite take_S_r; [|apply list_lookup_insert_eq; lia].
      rewrite take_insert_ge by lia. by rewrite from_app_le.
Qed.

Lemma splitInput_is_cut (s : string) : splitInput s = cut false s.
Proof.
  unfold splitInput. destruct (decide (s = "")) as [->|Hne]; [done|].
  set (n := (Count s ":" + Count s ";" + 1)%nat).
  destruct (splitInput_loop n s s 0 0 0 false (replicate n "")) as [[a na] start] eqn:Hrun.
  apply (splitInput_loop_spec n s "" s 0 0 false (replicate n "")) in Hrun;
    [|done|by rewrite length_replicate|unfold n; lia|simpl; lia].
  rewrite Hrun. simpl. apply glue_empty, cut_nonempty.
Qed.

(** X2.  [splitInput] cuts a segment into padding and wildcard parts in
    turn: at a [':'] outside a wildcard and at a [';'] inside one.
    Putting the parts together again with these separators gives the
    segment back, and no part holds the byte that would have closed
    it: a padding part (even index) holds no [':'], a wildcard part
    (odd index) holds no [';']. *)
Theorem splitInput_round_trip (s : string) :
  weave false (splitInput s) = s /\
  forall i p, splitInput s !! i = Some p ->
    Count p (if Nat.even i then ":"%char else ";"%char) = O.
Proof.
  rewrite splitInput_is_cut. split; [apply weave_cut|].
  intros i p Hi. apply cut_clean in Hi. by destruct (Nat.even i).
Qed.

End SplitInput.

(** ** [splitPath] *)

Section SplitPath.

Lemma join_path_Join (parts : list string) :
  parts <> [] -> join_path parts "" = "/" +:+ Join parts "/".
Proof.
  induction parts as [|x [|y l] IH]; intros Hne; [done| |].
  - simpl. unfold Join. simpl. by rewrite app_empty_r.
  - change (join_path (x :: y :: l) "") with ("/" +:+ x +:+ join_path (y :: l) "").
    rewrite IH by done. done.
Qed.

Lemma join_path_removelast (parts : list string) :
  last parts = Some "" -> join_path (removelast parts) "/" = "/" +:+ Join parts "/".
Proof.
  induction parts as [|x [|y l] IH]; intros Hlast; [done| |].
  - simpl in Hlast. by simplify_eq.
  - change (removelast (x :: y :: l)) with (x :: removelast (y :: l)).
    change (join_path (x :: removelast (y :: l)) "/")
      with ("/" +:+ x +:+ join_path (removelast (y :: l)) "/").
    rewrite IH by done. done.
Qed.

Lemma last_byte_snoc (a : string) (c : ascii) : last_byte (a +:+ String c "") = Some c.
Proof.
  induction a as [|x a IH]; [done|]. rewrite app_cons.
  change (last_byte (String x (a +:+ String c "")))
    with (match a +:+ String c "" with
          | EmptyString => Some x
          | _ => last_byte (a +:+ String c "")
          end).
  rewrite IH. by destruct a.
Qed.

Lemma splitPath_join (key : string) :
  begins "/" key = true ->
  exists els se,
    splitPath key = Ok (els, se) /\
    join_path els (if se then "/" else "") = key /\
    Forall (fun el => Count el "/" = O) els /\
    (se = false -> exists x, last els = Some x /\ x <> "").
Proof.
  intros Hbeg. destruct (splitPath_total key Hbeg) as (els & se & Hsp).
  exists els, se. split; [done|].
  pose proof (splitPath_no_slash _ _ _ Hsp) as Hfree.
  destruct key as [|c rest]; [done|]. simpl in Hbeg.
  apply bool_decide_eq_true_1 in Hbeg as ->.
  unfold splitPath in Hsp. rewrite Split_slash in Hsp.
  pose proof (Split_nonempty rest "/") as Hne.
  pose proof (Join_Split rest "/") as Hjoin.
  destruct (last (Split rest "/")) as [x|] eqn:Hl; [|by apply last_None in Hl].
  destruct x as [|c x]; simplify_eq.
  - split; [|done]. rewrite join_path_removelast by done. by rewrite Hjoin.
  - split; [|split; [done|]].
    + rewrite join_path_Join by done. by rewrite Hjoin.
    + intros _. by exists (String c x).
Qed.

(** X3.  [splitPath] panics on the empty key and on no other.  On a
    key that begins with ['/'] it loses nothing: the key is its
    elements, each after a ['/'], followed by a last ['/'] exactly when
    [slashend] is returned; no element holds a ['/'], and without
    [slashend] the last element is not empty. *)
Theorem splitPath_round_trip (key : string) :
  (splitPath key = Panic <-> key = "") /\
  (begins "/" key = true ->
   exists els se,
     splitPath key = Ok (els, se) /\
     join_path els (if se then "/" else "") = key /\
     Forall (fun el => Count el "/" = O) els /\
     (se = false -> exists x, last els = Some x /\ x <> "")).
Proof.
  split.
  - split; [|by intros ->].
    unfold splitPath. pose proof (Split_nonempty key "/") as Hne.
    pose proof (Join_Split key "/") as Hjoin.
    destruct (Split key "/") as [|x xs]; [done|].
    destruct x as [|c x].
    + destruct xs as [|y ys]; [by intros _|].
      destruct (last (y :: ys)) as [[|]|] eqn:Hl; try done.
      by apply last_None in Hl.
    + destruct (last (String c x :: xs)) as [[|]|] eqn:Hl; try done.
      by apply last_None in Hl.
  - apply splitPath_join.
Qed.

End SplitPath.

Section TrailingSlash.

Context {V : Type}.
Implicit Types (n t : @Node V).

Lemma splitPath_trailing_slash (key : string) :
  begins "/" key = true -> last_byte key <> Some "/"%char ->
  exists els,
    splitPath key = Ok (els, false) /\ splitPath (key +:+ "/") = Ok (els, true) /\
    begins "/" (key +:+ "/") = true.
Proof.
  intros Hbeg Hlast.
  destruct (splitPath_join key Hbeg) as (els & se & Hsp & Hkey & Hfree & _).
  destruct se.
  - exfalso. apply Hlast. rewrite <- Hkey.
    rewrite <- (app_empty_l "/"), join_path_app. apply last_byte_snoc.
  - exists els. split; [done|]. rewrite <- Hkey at 1 2.
    rewrite <- join_path_app, app_empty_l.
    by apply (splitPath_join_path els true); [|left].
Qed.

(** X4.  One trailing ['/'] is of no consequence to [Find]: on a key
    that begins with ['/'] and does not end with one, [Find] returns
    the same with a ['/'] appended to the key, on every trie. *)
Theorem Find_ignores_trailing_slash (R : MapOrder) t (key : string) :
  begins "/" key = true -> last_byte key <> Some "/"%char ->
  Find R t (key +:+ "/") = Find R t key.
Proof.
  intros Hbeg Hlast.
  destruct (splitPath_trailing_slash key Hbeg Hlast) as (els & Hsp & Hsp' & Hbeg').
  by rewrite !Find_unfold, Hbeg, Hbeg', Hsp, Hsp'.
Qed.

End TrailingSlash.

Lemma Find_ignores_trailing_slash_witness :
  Find sorted_order ab_then_literal "/not/found/"
  = Find sorted_order ab_then_literal "/not/found".
Proof.
  apply (Find_ignores_trailing_slash sorted_order ab_then_literal "/not/found");
    [reflexivity | discriminate].
Defined.

(** ** [decodeWildcard] and the descriptors written by [reverse] *)

Section Decode.

(** The decimal digits [strconv.Itoa] writes are read back by
    [strconv.Atoi]. *)
Lemma digits_of_uint_acc (d : Decimal.uint) (p : positive) :
  digits (NilEmpty.string_of_uint d) (Z.pos p) = Some (Z.pos (Pos.of_uint_acc d p)).
Proof.
  revert p. induction d as [|d IH|d IH|d IH|d IH|d IH|d IH|d IH|d IH|d IH|d IH];
    intros p; [done|..].
  all: simpl NilEmpty.string_of_uint; cbn [digits]; cbv [digit];
    simpl; rewrite <- IH; f_equal.
  all: match goal with
       | |- context [Z.of_nat (nat_of_ascii ?c)] =>
           let v := eval vm_compute in (Z.of_nat (nat_of_ascii c)) in
           change (Z.of_nat (nat_of_ascii c)) with v
       end; lia.
Qed.

Lemma digits_of_uint (d : Decimal.uint) :
  digits (NilEmpty.string_of_uint d) 0 = Some (Z.of_N (Pos.of_uint d)).
Proof.
  induction d as [|d IH|d IH|d IH|d IH|d IH|d IH|d IH|d IH|d IH|d IH];
    [done|exact IH|..];
    simpl NilEmpty.string_of_uint; cbn [digits]; cbv [digit]; simpl;
    apply digits_of_uint_acc.
Qed.

(** The text of a number: not empty, and free of the bytes that
    delimit the bounds of a wildcard. *)
Definition numeric (s : string) : Prop :=
  s <> "" /\ Count s "," = O /\ Count s "]" = O.

Lemma numeric_of_uint (d : Decimal.uint) :
  Count (NilEmpty.string_of_uint d) "," = O /\ Count (NilEmpty.string_of_uint d) "]" = O.
Proof.
  induction d as [|d IH|d IH|d IH|d IH|d IH|d IH|d IH|d IH|d IH|d IH];
    [done|..]; destruct IH as [IH1 IH2]; simpl NilEmpty.string_of_uint;
    rewrite !Count_cons, IH1, IH2; by rewrite !decide_False by discriminate.
Qed.

Lemma to_uint_text (p : positive) :
  NilZero.string_of_uint (Pos.to_uint p) = NilEmpty.string_of_uint (Pos.to_uint p) /\
  exists c rest, NilEmpty.string_of_uint (Pos.to_uint p) = String c rest /\
                 c <> "-"%char /\ c <> "+"%char.
Proof.
  pose proof (Unsigned.to_uint_nonnil p) as Hnn.
  destruct (Pos.to_uint p) as [|d|d|d|d|d|d|d|d|d|d]; [done|..];
    (split; [done|]); simpl; eexists _, _; (split; [done|]); split; discriminate.
Qed.

Lemma Itoa_numeric (z : Z) : numeric (Itoa z).
Proof.
  unfold numeric, Itoa. destruct z as [|p|p]; cbn [Z.to_int NilZero.string_of_int].
  - split; [done|]. split; done.
  - destruct (to_uint_text p) as (-> & c & rest & Hc & _).
    pose proof (numeric_of_uint (Pos.to_uint p)) as [H1 H2].
    split; [by rewrite Hc | done].
  - destruct (to_uint_text p) as (-> & _).
    pose proof (numeric_of_uint (Pos.to_uint p)) as [H1 H2].
    split; [done|]. rewrite !Count_cons, H1, H2.
    by rewrite !decide_False by discriminate.
Qed.

Lemma Atoi_digits (c : ascii) (rest : string) (v : Z) :
  c <> "-"%char -> c <> "+"%char -> digits (String c rest) 0 = Some v ->
  min_int <= v <= max_int -> Atoi (String c rest) = Some v.
Proof.
  intros Hm Hp Hd Hv. unfold Atoi. rewrite !bool_decide_eq_false_2 by done.
  cbn [orb]. rewrite Hd. cbv zeta.
  replace (min_int <=? v) with true by (symmetry; apply Z.leb_le; lia).
  by replace (v <=? max_int) with true by (symmetry; apply Z.leb_le; lia).
Qed.

Lemma Atoi_minus (c : ascii) (rest : string) (v : Z) :
  digits (String c rest) 0 = Some v ->
  min_int <= - v <= max_int -> Atoi (String "-" (String c rest)) = Some (- v).
Proof.
  intros Hd Hv. unfold Atoi. rewrite bool_decide_eq_true_2 by done.
  cbn [orb]. rewrite Hd. cbv zeta.
  replace (min_int <=? - v) with true by (symmetry; apply Z.leb_le; lia).
  by replace (- v <=? max_int) with true by (symmetry; apply Z.leb_le; lia).
Qed.

Lemma Atoi_Itoa (z : Z) : min_int <= z <= max_int -> Atoi (Itoa z) = Some z.
Proof.
  intros Hz. unfold Itoa. destruct z as [|p|p]; cbn [Z.to_int NilZero.string_of_int].
  - done.
  - destruct (to_uint_text p) as (-> & c & rest & Hc & Hm & Hp).
    pose proof (digits_of_uint (Pos.to_uint p)) as Hd.
    rewrite Unsigned.of_to in Hd. rewrite Hc in *.
    by apply Atoi_digits.
  - destruct (to_uint_text p) as (-> & c & rest & Hc & Hm & Hp).
    pose proof (digits_of_uint (Pos.to_uint p)) as Hd.
    rewrite Unsigned.of_to in Hd. rewrite Hc in *.
    by apply (Atoi_minus c rest (Z.pos p)).
Qed.

Lemma Atoi_range (s : string) (v : Z) : Atoi s = Some v -> min_int <= v <= max_int.
Proof.
  unfold Atoi. destruct s as [|c s']; [done|].
  destruct (if _ || _ then s' else String c s') as [|c' body]; [done|].
  destruct (digits (String c' body) 0) as [n|]; [|done]. cbv zeta.
  destruct (min_int <=? _) eqn:H1; [|done]. destruct (_ <=? max_int) eqn:H2; [|done].
  simpl. intros ?. simplify_eq. apply Z.leb_le in H1. apply Z.leb_le in H2. by split.
Qed.

Lemma prefix_single (c x : ascii) (s : string) :
  String.prefix (String c "") (String x s) = bool_decide (x = c).
Proof.
  simpl. destruct (ascii_dec c x) as [->|Hne].
  - rewrite bool_decide_eq_true_2 by done. by destruct s.
  - by rewrite bool_decide_eq_false_2.
Qed.

(** The first occurrence of a byte is where the text before it ends. *)
Lemma Index_first (pre : string) (c : ascii) (rest : string) :
  Count pre c = O ->
  Index (pre +:+ String c rest) (String c "") = Some (String.length pre).
Proof.
  induction pre as [|x pre IH]; intros Hc.
  - rewrite app_empty_l, Index_cons, prefix_single. by rewrite bool_decide_eq_true_2.
  - rewrite Count_cons in Hc. destruct (decide (x = c)); [lia|].
    rewrite app_cons, Index_cons, prefix_single, bool_decide_eq_false_2 by done.
    rewrite IH by lia. done.
Qed.

Lemma Index_absent (s : string) (c : ascii) :
  Count s c = O -> Index s (String c "") = None.
Proof.
  induction s as [|x s IH]; intros Hc; [done|].
  rewrite Count_cons in Hc. destruct (decide (x = c)); [lia|].
  rewrite Index_cons, prefix_single, bool_decide_eq_false_2 by done.
  rewrite IH by lia. done.
Qed.

Lemma from_app_plus (a b : string) (k : nat) :
  from (String.length a + k) (a +:+ b) = from k b.
Proof. induction a as [|x a IH]; [done|]. rewrite app_cons. simpl. apply IH. Qed.

Lemma Count_eq_0_app (a b : string) (c : ascii) :
  Count a c = O -> Count b c = O -> Count (a +:+ b) c = O.
Proof. intros Ha Hb. by rewrite Count_app, Ha, Hb. Qed.

(** [decodeWildcard] on a name that is not empty and does not open
    with ['[']. *)
Lemma decodeWildcard_plain (s : string) :
  s <> "" -> begins "[" s = false -> decodeWildcard s = Ok (mkWildcard s 0 0).
Proof.
  destruct s as [|c s]; [done|]. intros _ Hb. simpl in Hb. unfold decodeWildcard.
  by rewrite Hb.
Qed.

Lemma decodeWildcard_ranged (A B name : string) (lo hi : Z) :
  numeric A -> numeric B -> name <> "" ->
  Atoi A = Some lo -> Atoi B = Some hi ->
  decodeWildcard (String "[" (A +:+ String "," (B +:+ String "]" name)))
  = Ok (mkWildcard name lo hi).
Proof.
  intros (HA & HAc & HAb) (HB & HBc & HBb) Hname Hlo Hhi.
  set (s := String "[" (A +:+ String "," (B +:+ String "]" name))).
  assert (Hlen : String.length s
                 = (String.length A + String.length B + String.length name + 3)%nat).
  { unfold s. simpl. rewrite length_app_str. simpl. rewrite length_app_str. simpl. lia. }
  assert (HlA : (0 < String.length A)%nat) by (destruct A; [done | simpl; lia]).
  assert (HlB : (0 < String.length B)%nat) by (destruct B; [done | simpl; lia]).
  assert (Hln : (0 < String.length name)%nat) by (destruct name; [done | simpl; lia]).
  assert (Hp1 : Index (from 1 s) "," = Some (String.length A)) by (by apply Index_first).
  assert (Hp2 : Index (from 1 s) "]"
                = Some (String.length A + 1 + String.length B)%nat).
  { unfold s. simpl from.
    replace (A +:+ String "," (B +:+ String "]" name))
      with ((A +:+ String "," B) +:+ String "]" name)
      by (by rewrite app_assoc_str, app_cons).
    rewrite Index_first.
    - rewrite length_app_str. simpl. f_equal. lia.
    - apply Count_eq_0_app; [done|]. rewrite Count_cons, HBb.
      by rewrite decide_False by discriminate. }
  assert (HsA : slice 1 (String.length A + 1) s = A).
  { unfold slice, s. simpl from. rewrite Nat.add_sub. apply upto_app. }
  assert (HsB : slice (String.length A + 2)
                  (String.length A + 1 + String.length B + 1) s = B).
  { unfold slice, s. replace (String.length A + 2)%nat with (S (String.length A + 1)) by lia.
    simpl from. rewrite from_app_plus. simpl from.
    replace (_ - _)%nat with (String.length B) by lia. apply upto_app. }
  assert (Hsn : from (String.length A + 1 + String.length B + 2) s = name).
  { unfold s.
    replace (String.length A + 1 + String.length B + 2)%nat
      with (S (String.length A + S (String.length B + 1))) by lia.
    simpl from. rewrite from_app_plus. simpl from. rewrite from_app_plus. done. }
  unfold decodeWildcard. fold s. rewrite Hp1, Hp2. unfold s at 1. cbv iota beta.
  rewrite bool_decide_eq_true_2 by done.
  replace (2 <? String.length s)%nat with true by (symmetry; apply Nat.ltb_lt; lia).
  cbn [andb].
  replace (0 <? String.length A)%nat with true by (symmetry; apply Nat.ltb_lt; lia).
  replace (String.length A + 1 <? String.length A + 1 + String.length B)%nat
    with true by (symmetry; apply Nat.ltb_lt; lia).
  replace (String.length A + 1 + String.length B + 2 <? String.length s)%nat
    with true by (symmetry; apply Nat.ltb_lt; lia).
  cbn [andb]. rewrite HsA, HsB, Hsn, Hlo, Hhi. done.
Qed.

Lemma decodeWildcard_exact (A name : string) (k : Z) :
  numeric A -> name <> "" -> Count name "," = O ->
  Atoi A = Some k ->
  decodeWildcard (String "[" (A +:+ String "]" name)) = Ok (mkWildcard name k k).
Proof.
  intros (HA & HAc & HAb) Hname Hfree Hk.
  set (s := String "[" (A +:+ String "]" name)).
  assert (Hlen : String.length s = (String.length A + String.length name + 2)%nat).
  { unfold s. simpl. rewrite length_app_str. simpl. lia. }
  assert (HlA : (0 < String.length A)%nat) by (destruct A; [done | simpl; lia]).
  assert (Hln : (0 < String.length name)%nat) by (destruct name; [done | simpl; lia]).
  assert (Hp1 : Index (from 1 s) "," = None).
  { apply Index_absent. unfold s. simpl from. apply Count_eq_0_app; [done|].
    rewrite Count_cons, Hfree. by rewrite decide_False by discriminate. }
  assert (Hp2 : Index (from 1 s) "]" = Some (String.length A)) by (by apply Index_first).
  assert (HsA : slice 1 (String.length A + 1) s = A).
  { unfold slice, s. simpl from. rewrite Nat.add_sub. apply upto_app. }
  assert (Hsn : from (String.length A + 2) s = name).
  { unfold s. replace (String.length A + 2)%nat with (S (String.length A + 1)) by lia.
    simpl from. rewrite from_app_plus. done. }
  unfold decodeWildcard. fold s. rewrite Hp1, Hp2. unfold s at 1. cbv iota beta.
  rewrite bool_decide_eq_true_2 by done.
  replace (2 <? String.length s)%nat with true by (symmetry; apply Nat.ltb_lt; lia).
  cbn [andb].
  replace (0 <? String.length A)%nat with true by (symmetry; apply Nat.ltb_lt; lia).
  replace (String.length A + 2 <? String.length s)%nat
    with true by (symmetry; apply Nat.ltb_lt; lia).
  cbn [andb]. rewrite HsA, Hsn, Hk. done.
Qed.

(** X5.  The three forms of a wildcard, as [decodeWildcard] reads
    them: ["[lo,hi]name"] gives the bounds [lo] and [hi], ["[k]name"]
    gives [k] for both when the name holds no [','], and a name that
    does not open with ['['] gives no bound.  The numbers are read as
    [strconv.Itoa] writes them, so the descriptor [reverse] reports for
    a wildcard decodes to that wildcard. *)
Theorem decodeWildcard_forms (name : string) (lo hi : Z) :
  name <> "" -> min_int <= lo <= max_int -> min_int <= hi <= max_int ->
  decodeWildcard ("[" +:+ Itoa lo +:+ "," +:+ Itoa hi +:+ "]" +:+ name)
  = Ok (mkWildcard name lo hi) /\
  decodeWildcard (descriptor (mkWildcard name lo hi)) = Ok (mkWildcard name lo hi) /\
  (Count name "," = O ->
   decodeWildcard ("[" +:+ Itoa lo +:+ "]" +:+ name) = Ok (mkWildcard name lo lo)) /\
  (begins "[" name = false -> decodeWildcard name = Ok (mkWildcard name 0 0)).
Proof.
  intros Hname Hlo Hhi.
  assert (H : decodeWildcard ("[" +:+ Itoa lo +:+ "," +:+ Itoa hi +:+ "]" +:+ name)
              = Ok (mkWildcard name lo hi)).
  { apply (decodeWildcard_ranged (Itoa lo) (Itoa hi) name lo hi);
      auto using Itoa_numeric, Atoi_Itoa. }
  split; [exact H|]. split; [exact H|]. split.
  - intros Hfree. apply (decodeWildcard_exact (Itoa lo) name lo);
      auto using Itoa_numeric, Atoi_Itoa.
  - intros Hb. by apply decodeWildcard_plain.
Qed.

(** What [decodeWildcard] returns has a name, and bounds that are
    [int] values. *)
Lemma decodeWildcard_named (s : string) (w : Wildcard) :
  decodeWildcard s = Ok w ->
  Name w <> "" /\ min_int <= Min w <= max_int /\ min_int <= Max w <= max_int.
Proof.
  assert (Hplain : forall c s', Name (mkWildcard (String c s') 0 0) <> "" /\
            min_int <= Min (mkWildcard (String c s') 0 0) <= max_int /\
            min_int <= Max (mkWildcard (String c s') 0 0) <= max_int).
  { intros c s'. simpl. unfold min_int, max_int. split; [done | lia]. }
  assert (Hfrom : forall k (t : string), (k <? String.length t)%nat = true -> from k t <> "").
  { intros k t Hk Hf. apply Nat.ltb_lt in Hk.
    pose proof (length_from k t) as Hl. rewrite Hf in Hl. simpl in Hl. lia. }
  unfold decodeWildcard. destruct s as [|c s']; [done|].
  destruct (bool_decide (c = "["%char) && _); [|intros ?; simplify_eq; apply Hplain].
  set (s := String c s').
  destruct (Index (from 1 s) ",") as [p1|], (Index (from 1 s) "]") as [p2|];
    try (intros ?; simplify_eq; apply Hplain).
  - destruct ((0 <? p1)%nat && (p1 + 1 <? p2)%nat && (p2 + 2 <? String.length s)%nat) eqn:Hc;
      [|intros ?; simplify_eq; apply Hplain].
    apply andb_true_iff in Hc as [_ Hc].
    destruct (Atoi (slice 1 (p1 + 1) s)) as [lo|] eqn:Hlo; simpl;
      [|intros ?; simplify_eq; apply Hplain].
    destruct (Atoi (slice (p1 + 2) (p2 + 1) s)) as [hi|] eqn:Hhi; simpl;
      [|intros ?; simplify_eq; apply Hplain].
    intros ?. simplify_eq. simpl.
    split; [by apply Hfrom|]. split; by eapply Atoi_range.
  - destruct ((0 <? p2)%nat && (p2 + 2 <? String.length s)%nat) eqn:Hc;
      [|intros ?; simplify_eq; apply Hplain].
    apply andb_true_iff in Hc as [_ Hc].
    destruct (Atoi (slice 1 (p2 + 1) s)) as [lo|] eqn:Hlo; simpl;
      [|intros ?; simplify_eq; apply Hplain].
    intros ?. simplify_eq. simpl.
    split; [by apply Hfrom|]. split; by eapply Atoi_range.
Qed.

End Decode.

Lemma decodeWildcard_forms_witness :
  decodeWildcard "[2,4]year" = Ok (mkWildcard "year" 2 4) /\
  decodeWildcard (descriptor (mkWildcard "year" 2 4)) = Ok (mkWildcard "year" 2 4) /\
  decodeWildcard "[2]year" = Ok (mkWildcard "year" 2 2) /\
  decodeWildcard "year" = Ok (mkWildcard "year" 0 0).
Proof.
  destruct (decodeWildcard_forms "year" 2 4) as (H1 & H2 & H3 & H4);
    [discriminate | unfold min_int, max_int; lia | unfold min_int, max_int; lia |].
  split; [exact H1|]. split; [exact H2|].
  split; [apply H3; reflexivity | apply H4; reflexivity].
Defined.

(** * [Add]: when it panics, what it stores *)

Section Named.

(** Every wildcard part (odd index) has a name. *)
Definition named_parts (parts : list string) : Prop :=
  forall i, Nat.odd i = true -> parts !! i <> Some "".

Lemma decodeWildcard_total (s : string) :
  s <> "" -> exists w, decodeWildcard s = Ok w.
Proof.
  destruct s as [|c s']; [done|]. intros _. unfold decodeWildcard.
  destruct (_ && _); [|eauto].
  destruct (match Index _ ",", Index _ "]" with None, Some _ => _ | _, _ => None end);
    eauto.
Qed.

(** The loop of [add] over the parts never indexes its arrays out of
    range; it panics in [decodeWildcard] on a wildcard without name
    and nowhere else. *)
Lemma compile_total (parts : list string) :
  named_parts parts <-> exists r, compile parts = Ok r.
Proof.
  unfold compile.
  set (nv := (length parts / 2)%nat).
  set (vars0 := replicate nv (mkWildcard "" 0 0)).
  set (np := (length vars0 + length parts mod 2)%nat).
  pose proof (Nat.div_mod_eq (length parts) 2) as Hdm.
  pose proof (Nat.mod_upper_bound (length parts) 2) as Hmod.
  assert (Hnp : np = (nv + length parts mod 2)%nat)
    by (unfold np, vars0; by rewrite length_replicate).
  split.
  - intros Hnamed.
    destruct (rfold_total (parts_inv np nv) parts_step parts
                (replicate np [], vars0, O, false)) as (st & Hrun & _).
    + simpl. unfold vars0. rewrite !length_replicate. repeat split; try done.
      intros i Hi. lia.
    + intros j [[[paddings variables] key] inside] x Hj Hinv.
      pose proof Hinv as (Hp & Hv & Hkey & Hg).
      pose proof (lookup_lt_Some _ _ _ Hj) as Hlt.
      assert (Hstep : exists st', parts_step (paddings, variables, key, inside) x = Ok st').
      { unfold parts_step. destruct inside; simpl.
        - destruct (decodeWildcard_total x) as [w ->].
          { intros ->. apply (Hnamed j); [|done].
            rewrite <- Hkey. rewrite Nat.odd_add, Nat.odd_mul. done. }
          simpl. replace (key <? length variables)%nat with true; [eauto|].
          symmetry. apply Nat.ltb_lt. unfold nv in *. lia.
        - replace (key <? length paddings)%nat with true; [eauto|].
          symmetry. apply Nat.ltb_lt. unfold nv in *. lia. }
      destruct Hstep as [st' Hstep]. exists st'. split; [done|].
      by eapply parts_step_inv.
    + rewrite Hrun. destruct st as [[[p v] k] i]. simpl. eauto.
  - intros [r Hc] i Hodd Hi.
    inv_bind Hc. clear Hc.
    assert (Hgen : forall l (st st' : parts_state) j,
              rfold parts_step st l = Ok st' ->
              (2 * st.1.2 + (if st.2 then 1 else 0) = j)%nat ->
              forall i, Nat.odd (j + i) = true -> l !! i <> Some "").
    { clear. induction l as [|x l IH]; intros st st' j Hrun Hj i Hodd; [done|].
      simpl in Hrun. inv_bind Hrun. destruct st as [[[p v] k] ins].
      cbn [fst snd] in Hj. subst j.
      destruct i as [|i]; simpl.
      - intros ?. simplify_eq. destruct ins; [simpl in Ha; discriminate Ha|].
        rewrite !Nat.add_0_r, Nat.odd_mul in Hodd. done.
      - unfold parts_step in Ha. destruct ins; simpl in Ha.
        + inv_bind Ha. destruct (k <? length v)%nat; [|done]. simplify_eq.
          apply (IH _ _ (2 * S k + 0)%nat Hrun); [done|].
          replace (2 * S k + 0 + i)%nat with (2 * k + 1 + S i)%nat by lia. done.
        + destruct (k <? length p)%nat; [|done]. simplify_eq.
          apply (IH _ _ (2 * k + 1)%nat Hrun); [done|].
          replace (2 * k + 1 + i)%nat with (2 * k + 0 + S i)%nat by lia. done. }
    by apply (Hgen parts _ a O Ha eq_refl i).
Qed.

(** The elements [add] gets through: every element before the first
    star has a name for each of its wildcards. *)
Fixpoint named (elements : list string) : Prop :=
  match elements with
  | [] => True
  | el :: elements' =>
      match star_name el with
      | Some _ => True
      | None => named_parts (splitInput (edge_key el)) /\ named elements'
      end
  end.

End Named.

Section AddOutcome.

Context {V : Type}.
Implicit Types (n t : @Node V) (e : @Edge V) (l : @Leaf V).

Lemma compilable_named (els : list string) : compilable els <-> named els.
Proof.
  induction els as [|el els IH]; simpl; [done|].
  destruct (star_name el); [done|]. rewrite IH, compile_total.
  split; intros [Hc Hn]; (split; [|done]).
  - destruct Hc as (p & v & Hc). eauto.
  - destruct Hc as ([p v] & Hc). eauto.
Qed.

(** [add] returns on every node when the elements are named. *)
Lemma add_total els n o ws se (v : V) :
  named els -> exists r, add els n o ws se v = Ok r.
Proof.
  revert n ws. induction els as [|el els IH]; intros n ws Hn.
  - rewrite add_nil_eq. destruct (leaf n); eauto.
  - simpl in Hn. destruct (star_name el) as [name|] eqn:Hs.
    + rewrite (add_star_eq _ name) by done. destruct (star n); eauto.
    + destruct Hn as [Hparts Hn]. apply compile_total in Hparts as [[p w] Hc].
      rewrite add_edge_eq by done. rewrite Hc. simpl.
      destruct (IH (node (default (new_edge n p w o) (edges n !! edge_key el)))
                  (ws ++ w) Hn) as [[[child l0] err0] ->].
      simpl. eauto.
Qed.

(** X6.  [Add] returns, with or without an error, exactly when the key
    is not empty and, if it begins with ['/'], every wildcard before
    the first star element has a name.  Otherwise it panics: at
    [key[0]] on the empty key, and at [s[0]] in [decodeWildcard] on a
    wildcard without a name, as in ["/:"] or ["/a:;b"]. *)
Theorem Add_returns_iff t (key : string) (v : V) :
  ((exists r, Add t key v = Ok r) <->
   key <> "" /\
   (begins "/" key = true ->
    exists els se, splitPath key = Ok (els, se) /\ named els)) /\
  Add t "/:" v = Panic /\ Add t "/a:;b" v = Panic.
Proof.
  split; [|done]. split.
  - intros [[[t' ol] err] Hadd]. split; [by intros ->|]. intros Hbeg.
    apply Add_cases in Hadd as [(_ & _ & _ & ?)|(els & se & _ & Hsp & Hadd)]; [congruence|].
    exists els, se. split; [done|]. apply compilable_named. by eapply add_compilable.
  - intros [Hne Hnamed]. destruct key as [|c key]; [done|]. unfold Add.
    case_bool_decide as Hc; [eauto|].
    assert (Hbeg : begins "/" (String c key) = true).
    { simpl. apply bool_decide_eq_true_2. by destruct (decide (c = "/"%char)). }
    destruct (Hnamed Hbeg) as (els & se & -> & Hn). simpl.
    by apply add_total.
Qed.

(** The wildcards of a pattern, in the order of the pattern: those of
    every element before the first star, then the star. *)
Fixpoint pattern_wildcards (elements : list string) : result (list Wildcard) :=
  match elements with
  | [] => Ok []
  | el :: elements' =>
      match star_name el with
      | Some name => Ok [mkWildcard name 0 0]
      | None =>
          '(_, variables) ← compile (splitInput (edge_key el));
          rest ← pattern_wildcards elements';
          Ok (variables ++ rest)
      end
  end.

Lemma add_leaf_contents els n o ws se (v : V) n' l err :
  add els n o ws se v = Ok (n', Some l, err) ->
  err = None /\ Value l = v /\ order l = o /\ slashend l = se /\
  exists pw, pattern_wildcards els = Ok pw /\ Wildcards l = ws ++ pw.
Proof.
  revert n ws n'. induction els as [|el els IH]; intros n ws n' Hadd.
  - rewrite add_nil_eq in Hadd. destruct (leaf n); cbv zeta in Hadd; simplify_eq.
    simpl. repeat split; try done. exists []. by rewrite app_nil_r.
  - simpl pattern_wildcards. destruct (star_name el) as [name|] eqn:Hs.
    + rewrite (add_star_eq _ name) in Hadd by done.
      destruct (star n); cbv zeta in Hadd; simplify_eq.
      simpl. repeat split; try done. eauto.
    + rewrite add_edge_eq in Hadd by done. inv_bind Hadd. destruct a as [p w].
      simpl in Hadd. inv_bind Hadd. destruct a as [[child l0] err0]. simplify_eq.
      apply IH in Ha0 as (-> & Hv & Ho & Hse & pw & Hpw & Hw).
      repeat split; try done. exists (w ++ pw). rewrite Ha, Hpw. simpl.
      split; [done|]. by rewrite Hw, app_assoc.
Qed.

(** X7.  What a successful [Add] stores: the leaf carries the value,
    the counter of the root after the increment as its order, the
    trailing ['/'] of the key as [slashend], and as [Wildcards] the
    wildcards of the elements in the order of the pattern; it sits at
    the terminal of the pattern, and no error comes with it. *)
Theorem Add_leaf_contents t (key : string) (v : V) t' l err :
  Add t key v = Ok (t', Some l, err) ->
  err = None /\ leafs t' = int_wrap (leafs t + 1) /\
  exists els se,
    splitPath key = Ok (els, se) /\
    Value l = v /\ order l = int_wrap (leafs t + 1) /\ slashend l = se /\
    pattern_wildcards els = Ok (Wildcards l) /\
    slot els t' = Some l.
Proof.
  intros Hadd.
  apply Add_cases in Hadd as [(_ & ? & _)|(els & se & _ & Hsp & Hadd)]; [done|].
  pose proof (add_leafs _ _ _ _ _ _ _ _ _ Hadd) as Hleafs.
  pose proof (add_slot _ _ _ _ _ _ _ _ _ Hadd) as Hslot.
  apply add_leaf_contents in Hadd as (-> & Hv & Ho & Hse & pw & Hpw & Hw).
  split; [done|]. split; [done|]. exists els, se. by rewrite Hpw, Hw.
Qed.

End AddOutcome.

Lemma Add_leaf_contents_witness :
  exists t' l,
    Add New "/Archive_:first;_:[2,4]year;/*rest/" "x" = Ok (t', Some l, None) /\
    order l = 1 /\ slashend l = true /\
    Wildcards l = [mkWildcard "first" 0 0; mkWildcard "year" 2 4; mkWildcard "rest" 0 0].
Proof.
  destruct (Add (V:=string) New "/Archive_:first;_:[2,4]year;/*rest/" "x")
    as [[[t' [l|]] err]|] eqn:Hadd; try (vm_compute in Hadd; discriminate Hadd).
  destruct (Add_leaf_contents New _ "x" t' l err Hadd)
    as (-> & _ & els & se & Hsp & _ & Ho & Hse & Hpw & _).
  vm_compute in Hsp. injection Hsp as <- <-.
  exists t', l. split; [reflexivity|]. split; [exact Ho|]. split; [exact Hse|].
  remember (Wildcards l) as W. vm_compute in Hpw. by injection Hpw as <-.
Defined.

(** * Registered patterns: routes, orders and what later calls change *)

Section Routes.

Context {V : Type}.
Implicit Types (n t : @Node V) (e : @Edge V) (l : @Leaf V).
Implicit Types (p : list (option string)).

(** The route of a pattern: the map key of every element up to the
    first star element, and [None] for that star, whose name does not
    count and after which nothing is read. *)
Fixpoint route (elements : list string) : list (option string) :=
  match elements with
  | [] => []
  | el :: elements' =>
      match star_name el with
      | Some _ => [None]
      | None => Some (edge_key el) :: route elements'
      end
  end.

(** The terminal at the end of a route: the leaf of the node behind
    its edges, or the star of that node. *)
Fixpoint placed p n : option Leaf :=
  match p with
  | [] => leaf n
  | None :: p' => match p' with [] => star n | _ :: _ => None end
  | Some k :: p' => e ← edges n !! k; placed p' (node e)
  end.

Lemma slot_placed (els : list string) n : slot els n = placed (route els) n.
Proof.
  revert n. induction els as [|el els IH]; intros n; simpl; [done|].
  destruct (star_name el); [done|]. simpl.
  destruct (edges n !! edge_key el) as [e|]; simpl; [apply IH | done].
Qed.

Lemma compilable_route (els1 els2 : list string) :
  route els1 = route els2 -> compilable els1 -> compilable els2.
Proof.
  revert els2. induction els1 as [|el1 els1 IH]; intros [|el2 els2] Hr; simpl in *; try done.
  - by destruct (star_name el2).
  - destruct (star_name el1), (star_name el2); try done.
    injection Hr as Hk Hr. rewrite Hk. intros [Hc Hrest]. split; [done | by eapply IH].
Qed.

Lemma placed_set_leafs p n c : placed p (set_leafs n c) = placed p n.
Proof. by destruct p as [|[k|] p]. Qed.

Lemma placed_empty p (chain : NodeRef) : placed p (mkNode ∅ None None 0 chain) = None.
Proof. destruct p as [|[k|] [|? ?]]; done. Qed.

(** [add] on a free terminal registers the pattern. *)
Lemma add_free els n o ws se (v : V) :
  compilable els -> slot els n = None ->
  exists n' l, add els n o ws se v = Ok (n', Some l, None).
Proof.
  revert n ws. induction els as [|el els IH]; intros n ws Hc Hslot; simpl in Hc, Hslot.
  - rewrite add_nil_eq, Hslot. cbv zeta. eauto.
  - destruct (star_name el) as [name|] eqn:Hs.
    + rewrite (add_star_eq _ name) by done. rewrite Hslot. cbv zeta. eauto.
    + destruct Hc as [(paddings & variables & Hcomp) Hc].
      rewrite add_edge_eq by done. rewrite Hcomp. simpl.
      set (item := default _ _).
      destruct (IH (node item) (ws ++ variables) Hc) as (child & l & Hadd).
      { unfold item. destruct (edges n !! edge_key el) as [e0|]; simpl in *; [done|].
        rewrite slot_placed. apply placed_empty. }
      rewrite Hadd. simpl. eauto.
Qed.

(** A leaf of the trie after [add] was there before, or is the one
    [add] returns, which sits at the end of the route of the
    elements. *)
Lemma add_placed_new els n o ws se (v : V) n' ol err p l :
  add els n o ws se v = Ok (n', ol, err) -> placed p n' = Some l ->
  placed p n = Some l \/ (p = route els /\ ol = Some l).
Proof.
  revert n ws n' p. induction els as [|el els IH]; intros n ws n' p Hadd Hp.
  - rewrite add_nil_eq in Hadd. destruct (leaf n) eqn:Hl; cbv zeta in Hadd; simplify_eq;
      [by left|].
    destruct p as [|[k|] p]; simpl in *; [right | by left | by left].
    by simplify_eq.
  - simpl route. destruct (star_name el) as [name|] eqn:Hs.
    + rewrite (add_star_eq _ name) in Hadd by done.
      destruct (star n) eqn:Hst; cbv zeta in Hadd; simplify_eq; [by left|].
      destruct p as [|[k|] [|? ?]]; simpl in *; try (by left).
      right. by simplify_eq.
    + rewrite add_edge_eq in Hadd by done. inv_bind Hadd. destruct a as [paddings variables].
      simpl in Hadd. inv_bind Hadd. destruct a as [[child l0] err0]. simplify_eq.
      destruct p as [|[k|] p]; simpl in *; try (by left).
      destruct (decide (k = edge_key el)) as [->|Hne].
      * rewrite lookup_insert_eq in Hp. simpl in Hp.
        destruct (IH _ _ _ _ Ha0 Hp) as [Hold|[-> ->]]; [|by right].
        left. destruct (edges n !! edge_key el) as [e0|]; simpl in *; [done|].
        by rewrite placed_empty in Hold.
      * rewrite lookup_insert_ne in Hp by done. by left.
Qed.

Lemma add_placed_stays els n o ws se (v : V) n' ol err p l :
  add els n o ws se v = Ok (n', ol, err) -> placed p n = Some l -> placed p n' = Some l.
Proof.
  revert n ws n' p. induction els as [|el els IH]; intros n ws n' p Hadd Hp.
  - rewrite add_nil_eq in Hadd. destruct (leaf n) eqn:Hl; cbv zeta in Hadd; simplify_eq;
      [done|].
    destruct p as [|[k|] p]; simpl in *; [congruence | done | done].
  - destruct (star_name el) as [name|] eqn:Hs.
    + rewrite (add_star_eq _ name) in Hadd by done.
      destruct (star n) eqn:Hst; cbv zeta in Hadd; simplify_eq; [done|].
      destruct p as [|[k|] [|? ?]]; simpl in *; try done. congruence.
    + rewrite add_edge_eq in Hadd by done. inv_bind Hadd. destruct a as [paddings variables].
      simpl in Hadd. inv_bind Hadd. destruct a as [[child l0] err0]. simplify_eq.
      destruct p as [|[k|] p]; simpl in *; try done.
      destruct (edges n !! k) as [e0|] eqn:Hk; [|done]. simpl in Hp.
      destruct (decide (k = edge_key el)) as [->|Hne].
      * rewrite lookup_insert_eq. simpl. rewrite Hk in Ha0. simpl in Ha0. by eapply IH.
      * rewrite lookup_insert_ne by done. by rewrite Hk.
Qed.

(** The orders below a node lie within the bounds of the invariant. *)
Lemma wf_placed lo hi n p l :
  wf lo hi n -> placed p n = Some l -> lo <= order l <= hi.
Proof.
  revert lo n. induction p as [|[k|] p IH]; intros lo n Hwf Hp; simpl in Hp.
  - inversion Hwf as [? _ H _ _ _]; subst. by destruct (H l Hp) as (? & _).
  - destruct (edges n !! k) as [e|] eqn:Hk; [|done]. simpl in Hp.
    destruct (wf_edge _ _ _ _ _ Hwf Hk) as (_ & Hb & Hwfe).
    specialize (IH _ _ Hwfe Hp). lia.
  - destruct p; [|done].
    inversion Hwf as [? _ _ H _ _]; subst. by destruct (H l Hp) as (? & _).
Qed.

(** X8.  [Add] reports "duplicate path" exactly when the terminal at
    the end of the route of the pattern is taken, and then changes
    nothing but the counter; on a free terminal it registers the
    pattern there.  Patterns with the same route are one pattern to
    [Add]: a trailing [';'] of an element, the trailing ['/'] of the
    key, the name of a star and whatever follows a star element make
    no difference. *)
Theorem Add_duplicate_iff t (key : string) (v : V) els se :
  begins "/" key = true -> splitPath key = Ok (els, se) -> named els ->
  match placed (route els) t with
  | Some _ =>
      Add t key v
      = Ok (set_leafs t (int_wrap (leafs t + 1)), None, Some ErrDuplicatePath)
  | None =>
      exists t' l, Add t key v = Ok (t', Some l, None) /\
                   placed (route els) t' = Some l
  end.
Proof.
  intros Hbeg Hsp Hn. apply compilable_named in Hn.
  destruct key as [|c key]; [done|]. simpl in Hbeg.
  apply bool_decide_eq_true_1 in Hbeg as ->.
  unfold Add. rewrite bool_decide_eq_false_2 by auto. rewrite Hsp. simpl.
  rewrite <- slot_placed.
  destruct (slot els t) as [l0|] eqn:Hslot.
  - apply (add_occupied _ _ l0); [done|]. by rewrite slot_set_leafs.
  - destruct (add_free els (set_leafs t (int_wrap (leafs t + 1)))
                (int_wrap (leafs t + 1)) [] se v Hn) as (t' & l & Hadd).
    { by rewrite slot_set_leafs. }
    exists t', l. split; [done|]. rewrite <- slot_placed. by eapply add_slot.
Qed.

(** Terminals of equal order are at the end of one route. *)
Lemma placed_order_inj t p1 p2 l1 l2 :
  built t -> placed p1 t = Some l1 -> placed p2 t = Some l2 ->
  order l1 = order l2 -> p1 = p2.
Proof.
  intros Hb. revert p1 p2 l1 l2.
  induction Hb as [|t key val t' ol err Hb IH Hlt Hadd]; intros p1 p2 l1 l2 Hp1 Hp2 Ho.
  - unfold New in Hp1. by rewrite placed_empty in Hp1.
  - destruct (built_inv t Hb) as (Hwf & Hc & _).
    apply Add_cases in Hadd as [(-> & _)|(els & se & _ & Hsp & Hadd)]; [by eapply IH|].
    rewrite int_wrap_small in Hadd by (unfold min_int, max_int in *; lia).
    destruct (add_placed_new _ _ _ _ _ _ _ _ _ _ _ Hadd Hp1) as [Hold1|[-> ->]];
      destruct (add_placed_new _ _ _ _ _ _ _ _ _ _ _ Hadd Hp2) as [Hold2|[-> Hol]];
      rewrite ?placed_set_leafs in *; try done.
    + by eapply IH.
    + simplify_eq. apply add_leaf_contents in Hadd as (_ & _ & Hnew & _).
      pose proof (wf_placed _ _ _ _ _ Hwf Hold1). lia.
    + apply add_leaf_contents in Hadd as (_ & _ & Hnew & _).
      pose proof (wf_placed _ _ _ _ _ Hwf Hold2). lia.
Qed.

(** X9.  On a trie built by [Add] no two registered patterns have the
    same order: terminals with equal orders are one terminal, and every
    order lies between [1] and the counter of the root. *)
Theorem orders_unique t p1 p2 l1 l2 :
  built t -> placed p1 t = Some l1 -> placed p2 t = Some l2 ->
  (order l1 = order l2 -> p1 = p2 /\ l1 = l2) /\ 1 <= order l1 <= leafs t.
Proof.
  intros Hb Hp1 Hp2. split; [|by eapply wf_placed; [apply (built_inv t Hb)|]].
  intros Ho. pose proof (placed_order_inj t p1 p2 l1 l2 Hb Hp1 Hp2 Ho) as Hp.
  subst. rewrite Hp1 in Hp2. by simplify_eq.
Qed.

End Routes.

Lemma Add_duplicate_iff_witness :
  Add (trie_of [("/a/:b;/*rest", "1")]) "/a/:b/*other/more/" "2"
  = Ok (set_leafs (trie_of [("/a/:b;/*rest", "1")]) 2, None, Some ErrDuplicatePath).
Proof.
  pose proof (Add_duplicate_iff (trie_of [("/a/:b;/*rest", "1")])
                "/a/:b/*other/more/" "2" ["a"; ":b"; "*other"; "more"] true
                eq_refl eq_refl) as H.
  apply H. simpl. repeat split; intros [|[|[|i]]]; vm_compute; congruence.
Defined.

Lemma orders_unique_witness :
  exists l1 l2,
    placed [Some ":a"; Some ":b"] ab_then_literal = Some l1 /\
    placed [Some "not"; Some "found"] ab_then_literal = Some l2 /\
    (order l1 = order l2 ->
     [Some ":a"; Some ":b"] = [Some "not"; Some "found"] /\ l1 = l2) /\
    1 <= order l1 <= leafs ab_then_literal.
Proof.
  assert (Hb : built ab_then_literal) by (apply trie_of_built; vm_compute; discriminate).
  eexists _, _. split; [vm_compute; reflexivity|]. split; [vm_compute; reflexivity|].
  eapply (orders_unique ab_then_literal [Some ":a"; Some ":b"] [Some "not"; Some "found"]);
    [exact Hb | vm_compute; reflexivity | vm_compute; reflexivity].
Defined.

(** * What [Find] returns does not depend on the order of the edges,
      nor on later registrations *)

Section Stability.

Context {V : Type}.
Implicit Types (n t : @Node V) (e : @Edge V) (l : @Leaf V).
Implicit Types (p : list (option string)).

#[local] Arguments find_edge : simpl never.

(** The candidate at the end of a route, if the edges of the route
    accept the elements: [matches], with the way taken made explicit. *)
Fixpoint along p n (els exp : list string) : option (Leaf * list string) :=
  match p, els with
  | [], [] => l ← leaf n; Some (l, exp)
  | [None], _ :: _ => s ← star n; Some (s, exp ++ [Join els "/"])
  | Some k :: p', el :: els' =>
      e ← edges n !! k;
      match find_edge e el with
      | Ok (Some vars) => along p' (node e) els' (exp ++ vars)
      | _ => None
      end
  | _, _ => None
  end.

Lemma matches_along n els exp l exps :
  matches n els exp l exps <-> exists p, along p n els exp = Some (l, exps).
Proof.
  split.
  - induction 1 as [n exp l Hl|n el els exp l Hs|n el els exp k e vars l exps Hk Hf Hm [p IH]].
    + exists []. simpl. by rewrite Hl.
    + exists [None]. simpl. by rewrite Hs.
    + exists (Some k :: p). simpl. rewrite Hk. simpl. by rewrite Hf.
  - intros [p Hp]. revert n els exp Hp.
    induction p as [|[k|] p IH]; intros n els exp Hp.
    + destruct els; simpl in Hp; [|done].
      destruct (leaf n) eqn:Hl; simplify_eq/=. by apply matches_leaf.
    + destruct els as [|el els]; simpl in Hp; [done|].
      destruct (edges n !! k) as [e|] eqn:Hk; [|done]. simpl in Hp.
      destruct (find_edge e el) as [[vars|]|] eqn:Hf; try done.
      eapply matches_edge; [done | done | by apply IH].
    + destruct p; [|by destruct els]. destruct els as [|el els]; simpl in Hp; [done|].
      destruct (star n) eqn:Hs; simplify_eq/=. by apply matches_star.
Qed.

Lemma along_placed p n els exp l exps :
  along p n els exp = Some (l, exps) -> placed p n = Some l.
Proof.
  revert n els exp. induction p as [|[k|] p IH]; intros n els exp Hp.
  - destruct els; simpl in Hp; [|done]. simpl. destruct (leaf n); by simplify_eq/=.
  - destruct els as [|el els]; simpl in Hp; [done|]. simpl.
    destruct (edges n !! k) as [e|]; [|done]. simpl in *.
    destruct (find_edge e el) as [[vars|]|]; try done. by eapply IH.
  - destruct p; [|by destruct els]. destruct els as [|el els]; simpl in Hp; [done|].
    simpl. destruct (star n); by simplify_eq/=.
Qed.

(** Candidates of equal order are one candidate. *)
Lemma matches_unique t els l1 exps1 l2 exps2 :
  built t -> matches t els [] l1 exps1 -> matches t els [] l2 exps2 ->
  order l1 = order l2 -> l1 = l2 /\ exps1 = exps2.
Proof.
  intros Hb [p1 H1]%matches_along [p2 H2]%matches_along Ho.
  assert (Hp : p1 = p2).
  { apply (placed_order_inj t p1 p2 l1 l2 Hb); [by eapply along_placed| |done].
    by eapply along_placed. }
  subst. rewrite H1 in H2. by simplify_eq.
Qed.

(** The matcher of an edge reads its padding groups, wildcards and
    [wildend], not its node. *)
Lemma find_pads_node e child count pads (st : pad_state) :
  find_pads (set_node e child) count pads st = find_pads e count pads st.
Proof.
  revert st. induction pads as [|pad pads IH]; intros [[input variables] found];
    simpl; [done|].
  destruct (Index input pad) as [pos|]; [|apply IH].
  destruct (_ && _); [apply IH|]. case_bool_decide; [|done].
  destruct (wildcards e !! _); [|done]. destruct (out_of_bounds _ _); [apply IH | done].
Qed.

Lemma find_padding_node e child count padding (st : pad_state) :
  find_padding (set_node e child) count padding st = find_padding e count padding st.
Proof.
  revert count st. induction padding as [|pads padding IH]; intros count st; simpl; [done|].
  rewrite find_pads_node. destruct (find_pads e count pads st) as [st'|]; [|done].
  simpl. destruct (st'.2); [apply IH | done].
Qed.

Lemma find_edge_node e child (el : string) :
  find_edge (set_node e child) el = find_edge e el.
Proof. unfold find_edge. simpl. by rewrite find_padding_node. Qed.

Lemma along_set_leafs p n c els exp :
  along p (set_leafs n c) els exp = along p n els exp.
Proof. destruct p as [|[k|] [|? ?]], els; done. Qed.

Lemma along_empty p (chain : NodeRef) els exp :
  along p (mkNode ∅ None None 0 chain) els exp = None.
Proof. destruct p as [|[k|] [|? ?]], els; done. Qed.

(** A candidate stays one when [add] has run. *)
Lemma add_along_stays pels n o ws se (v : V) n' ol err p els exp x :
  add pels n o ws se v = Ok (n', ol, err) ->
  along p n els exp = Some x -> along p n' els exp = Some x.
Proof.
  revert n ws n' p els exp. induction pels as [|pel pels IH];
    intros n ws n' p els exp Hadd Hp.
  - rewrite add_nil_eq in Hadd. destruct (leaf n) eqn:Hl; cbv zeta in Hadd; simplify_eq;
      [done|].
    destruct p as [|[k|] [|? ?]], els; simpl in *; try done. by rewrite Hl in Hp.
  - destruct (star_name pel) as [name|] eqn:Hs.
    + rewrite (add_star_eq _ name) in Hadd by done.
      destruct (star n) eqn:Hst; cbv zeta in Hadd; simplify_eq; [done|].
      destruct p as [|[k|] [|? ?]], els; simpl in *; try done. by rewrite Hst in Hp.
    + rewrite add_edge_eq in Hadd by done. inv_bind Hadd. destruct a as [paddings variables].
      simpl in Hadd. inv_bind Hadd. destruct a as [[child l0] err0]. simplify_eq.
      destruct p as [|[k|] p]; [by destruct els| |by destruct p, els].
      destruct els as [|el els]; [done|]. simpl in *.
      destruct (edges n !! k) as [e0|] eqn:Hk; [|done]. simpl in Hp.
      destruct (decide (k = edge_key pel)) as [->|Hne].
      * rewrite lookup_insert_eq. simpl. rewrite Hk in Ha0 |- *. simpl in *.
        rewrite find_edge_node.
        destruct (find_edge e0 el) as [[vars|]|]; try done. by eapply IH.
      * rewrite lookup_insert_ne by done. by rewrite Hk.
Qed.

(** A candidate of the trie after [add] was one before, or is the leaf
    [add] returns. *)
Lemma add_along_new pels n o ws se (v : V) n' ol err p els exp l exps :
  add pels n o ws se v = Ok (n', ol, err) ->
  along p n' els exp = Some (l, exps) ->
  along p n els exp = Some (l, exps) \/ ol = Some l.
Proof.
  revert n ws n' p els exp. induction pels as [|pel pels IH];
    intros n ws n' p els exp Hadd Hp.
  - rewrite add_nil_eq in Hadd. destruct (leaf n) eqn:Hl; cbv zeta in Hadd; simplify_eq;
      [by left|].
    destruct p as [|[k|] [|? ?]], els; simpl in *; try (by left). right. by simplify_eq.
  - destruct (star_name pel) as [name|] eqn:Hs.
    + rewrite (add_star_eq _ name) in Hadd by done.
      destruct (star n) eqn:Hst; cbv zeta in Hadd; simplify_eq; [by left|].
      destruct p as [|[k|] [|? ?]], els; simpl in *; try (by left). right. by simplify_eq.
    + rewrite add_edge_eq in Hadd by done. inv_bind Hadd. destruct a as [paddings variables].
      simpl in Hadd. inv_bind Hadd. destruct a as [[child l0] err0]. simplify_eq.
      destruct p as [|[k|] p]; [by left; destruct els| |by left; destruct p, els].
      destruct els as [|el els]; [done|]. simpl in *.
      destruct (decide (k = edge_key pel)) as [->|Hne].
      * rewrite lookup_insert_eq in Hp. simpl in Hp. rewrite find_edge_node in Hp.
        destruct (edges n !! edge_key pel) as [e0|] eqn:Hk; simpl in *.
        -- destruct (find_edge e0 el) as [[vars|]|]; try done. by eapply IH.
        -- destruct (find_edge _ el) as [[vars|]|]; try done.
           destruct (IH _ _ _ _ _ _ Ha0 Hp) as [Hold|?]; [|by right].
           by rewrite along_empty in Hold.
      * rewrite lookup_insert_ne in Hp by done. by left.
Qed.

(** Without a leaf, [find] returns the expansions it was given at the
    end of the path and none before. *)
Lemma find_none (R : MapOrder) els n exp x :
  find R els n exp = Ok (None, x) -> x = match els with [] => exp | _ => [] end.
Proof.
  destruct els as [|el els]; simpl; [by intros ?; simplify_eq|].
  intros Hrun.
  assert (H0 : (find_star n (el :: els) exp).1 = None ->
               (find_star n (el :: els) exp).2 = []).
  { unfold find_star. destruct (star n); simpl; by intros ?. }
  assert (Hstep : forall (j : nat) (s : match_state) kv (s' : match_state),
            range R (edges n) !! j = Some kv -> (s.1 = None -> s.2 = []) ->
            find_step (find R els) el exp s kv = Ok s' -> s'.1 = None -> s'.2 = []).
  { intros j [lb eb] [k e] [lb' eb'] _ Hinv Hstep. unfold find_step in Hstep.
    simpl in *. destruct (match lb with Some l => _ | None => false end);
      [by simplify_eq|].
    destruct (find_edge e el) as [[vars|]|]; simpl in Hstep; [|by simplify_eq|done].
    destruct (find R els (node e) (exp ++ vars)) as [[[tl|] te]|]; simpl in Hstep;
      [|by simplify_eq|done].
    destruct (improves lb tl); by simplify_eq. }
  exact (rfold_ind (fun _ (best : match_state) => best.1 = None -> best.2 = [])
           _ _ _ _ H0 Hstep Hrun eq_refl).
Qed.

Lemma Find_none (R : MapOrder) t (key : string) x :
  Find R t key = Ok (None, x) -> x = [].
Proof.
  rewrite Find_unfold. destruct (begins "/" key); [|by intros ?; simplify_eq].
  destruct (splitPath key) as [[els se]|]; [|done]. simpl.
  intros H. apply find_none in H. by destruct els.
Qed.

(** X10.  The leaf [Find] returns on a built trie, and the number of
    expansions that come with it, do not depend on the order in which
    [range] visits the edges of a node. *)
Theorem Find_leaf_any_order (R1 R2 : MapOrder) t (key : string) :
  built t ->
  exists ol x1 x2,
    Find R1 t key = Ok (ol, x1) /\ Find R2 t key = Ok (ol, x2) /\
    length x1 = length x2.
Proof.
  intros Hb.
  destruct (Find_spec R1 t key Hb) as ([ol1 x1] & Hres1 & Hno1 & Hyes1).
  destruct (Find_spec R2 t key Hb) as ([ol2 x2] & Hres2 & Hno2 & Hyes2).
  exists ol1, x1, x2. rewrite Hres1, Hres2. split; [done|].
  destruct (begins "/" key) eqn:Hbeg.
  2:{ specialize (Hno1 eq_refl). specialize (Hno2 eq_refl). by simplify_eq. }
  destruct (Hyes1 eq_refl) as (els & se & Hsp & Hbest1).
  destruct (Hyes2 eq_refl) as (els' & se' & Hsp' & Hbest2).
  rewrite Hsp in Hsp'. simplify_eq. unfold earliest in *. simpl in *.
  destruct ol1 as [l1|], ol2 as [l2|].
  - destruct Hbest1 as [Hm1 Hmin1], Hbest2 as [Hm2 Hmin2].
    pose proof (Hmin1 _ _ Hm2). pose proof (Hmin2 _ _ Hm1).
    destruct (matches_unique t els' l1 x1 l2 x2 Hb Hm1 Hm2) as [-> ->]; [lia | done].
  - destruct Hbest1 as [Hm1 _]. by destruct (Hbest2 _ _ Hm1).
  - destruct Hbest2 as [Hm2 _]. by destruct (Hbest1 _ _ Hm2).
  - apply Find_none in Hres1, Hres2. by subst.
Qed.

(** X11.  Registering a pattern never changes what [Find] returns for
    a path that already found a leaf: the same leaf comes back, with
    as many expansions, whatever the order of the edges.  A path that
    found nothing finds nothing afterwards, or the leaf just
    registered. *)
Theorem Add_keeps_found t (key : string) (v : V) t' ol err :
  built t -> leafs t < max_int -> Add t key v = Ok (t', ol, err) ->
  forall (R R' : MapOrder) (path : string),
  exists r r',
    Find R t path = Ok r /\ Find R' t' path = Ok r' /\
    match r.1 with
    | Some l => r'.1 = Some l /\ length r'.2 = length r.2
    | None => r'.1 = None \/ r'.1 = ol
    end.
Proof.
  intros Hb Hlt Hadd R R' path.
  assert (Hb' : built t') by (by eapply built_Add).
  destruct (built_inv t Hb) as (Hwf & Hc & _).
  destruct (Find_spec R t path Hb) as ([fl x] & Hres & Hno & Hyes).
  destruct (Find_spec R' t' path Hb') as ([fl' x'] & Hres' & Hno' & Hyes').
  exists (fl, x), (fl', x'). split; [done|]. split; [done|]. simpl.
  destruct (begins "/" path) eqn:Hbeg.
  2:{ specialize (Hno eq_refl). specialize (Hno' eq_refl). simplify_eq. by left. }
  destruct (Hyes eq_refl) as (els & se & Hsp & Hbest).
  destruct (Hyes' eq_refl) as (els' & se' & Hsp' & Hbest').
  rewrite Hsp in Hsp'. simplify_eq. unfold earliest in *. simpl in *.
  apply Add_cases in Hadd as [(-> & _)|(pels & pse & _ & _ & Hadd)].
  { (* the key was refused: the trie is the same *)
    destruct fl as [l|], fl' as [l'|].
    - destruct Hbest as [Hm Hmin], Hbest' as [Hm' Hmin'].
      pose proof (Hmin _ _ Hm'). pose proof (Hmin' _ _ Hm).
      destruct (matches_unique t els' l x l' x' Hb Hm Hm') as [-> ->]; [lia | done].
    - destruct Hbest as [Hm _]. by destruct (Hbest' _ _ Hm).
    - destruct Hbest' as [Hm' _]. by destruct (Hbest _ _ Hm').
    - by left. }
  rewrite int_wrap_small in Hadd by (unfold min_int, max_int in *; lia).
  assert (Hold : forall l0 x0, matches t els' [] l0 x0 -> matches t' els' [] l0 x0).
  { intros l0 x0 [p Hp]%matches_along. apply matches_along. exists p.
    eapply add_along_stays; [done|]. by rewrite along_set_leafs. }
  assert (Hnew : forall l0 x0, matches t' els' [] l0 x0 ->
                   matches t els' [] l0 x0 \/ (ol = Some l0 /\ order l0 = leafs t + 1)).
  { intros l0 x0 [p Hp]%matches_along.
    destruct (add_along_new _ _ _ _ _ _ _ _ _ _ _ _ _ _ Hadd Hp) as [Ho| ->].
    - left. apply matches_along. exists p. by rewrite along_set_leafs in Ho.
    - right. split; [done|]. by apply add_leaf_contents in Hadd as (_ & _ & ? & _). }
  assert (Hle : forall l0 x0, matches t els' [] l0 x0 -> order l0 <= leafs t).
  { intros l0 x0 [p Hp]%matches_along. apply along_placed in Hp.
    by destruct (wf_placed _ _ _ _ _ Hwf Hp). }
  destruct fl as [l|].
  - destruct Hbest as [Hm Hmin]. pose proof (Hle _ _ Hm) as Hl.
    destruct fl' as [l'|]; [|by destruct (Hbest' _ _ (Hold _ _ Hm))].
    destruct Hbest' as [Hm' Hmin']. pose proof (Hmin' _ _ (Hold _ _ Hm)) as Hle'.
    destruct (Hnew _ _ Hm') as [Hm0|[_ Ho]]; [|lia].
    pose proof (Hmin _ _ Hm0).
    destruct (matches_unique t els' l x l' x' Hb Hm Hm0) as [-> ->]; [lia | done].
  - destruct fl' as [l'|]; [|by left]. destruct Hbest' as [Hm' _].
    destruct (Hnew _ _ Hm') as [Hm0|[-> _]]; [by destruct (Hbest _ _ Hm0) | by right].
Qed.

End Stability.

(** The iteration order that visits the entries in the reverse of
    [sorted_order]. *)
Definition reversed_order {V : Type} : @MapOrder V :=
  mkMapOrder (fun m => rev (map_to_list m))
    (fun m => Permutation_sym (Permutation_rev (map_to_list m))).

Lemma Find_leaf_any_order_witness :
  exists ol x1 x2,
    Find sorted_order ab_then_literal "/not/found" = Ok (ol, x1) /\
    Find reversed_order ab_then_literal "/not/found" = Ok (ol, x2) /\
    length x1 = length x2.
Proof.
  apply (Find_leaf_any_order sorted_order reversed_order ab_then_literal "/not/found").
  apply trie_of_built. vm_compute. discriminate.
Defined.

Lemma Add_keeps_found_witness :
  exists r r',
    Find sorted_order (trie_of [("/:a/:b", "first")]) "/not/found" = Ok r /\
    Find reversed_order ab_then_literal "/not/found" = Ok r' /\
    match r.1 with
    | Some l => r'.1 = Some l /\ length r'.2 = length r.2
    | None => r'.1 = None \/ r'.1 = Add_leaf (trie_of [("/:a/:b", "first")]) "/not/found" "second"
    end.
Proof.
  apply (Add_keeps_found (trie_of [("/:a/:b", "first")]) "/not/found" "second"
           ab_then_literal _ None).
  - apply trie_of_built. vm_compute. discriminate.
  - reflexivity.
  - vm_compute. reflexivity.
Defined.

(** * What an edge accepts *)

Section Accepts.

Context {V : Type}.
Implicit Types (n t : @Node V) (e : @Edge V) (l : @Leaf V).

Lemma prefix_split (p s : string) :
  String.prefix p s = true -> s = p +:+ from (String.length p) s.
Proof.
  revert s. induction p as [|x p IH]; intros [|y s]; simpl; try done.
  destruct (ascii_dec x y) as [->|]; [|done]. intros H. rewrite app_cons.
  f_equal. by apply IH.
Qed.

Lemma upto_from (k : nat) (s : string) : s = upto k s +:+ from k s.
Proof.
  revert s. induction k as [|k IH]; intros [|c s]; simpl; try done.
  rewrite app_cons. f_equal. apply IH.
Qed.

Lemma from_from (a b : nat) (s : string) : from a (from b s) = from (b + a) s.
Proof.
  revert s. induction b as [|b IH]; intros s; simpl; [done|].
  destruct s as [|c s]; [by destruct a|]. apply IH.
Qed.

(** Where [strings.Index] finds [p], the text is what comes before,
    then [p], then what comes after. *)
Lemma Index_split (s p : string) (pos : nat) :
  Index s p = Some pos ->
  s = upto pos s +:+ p +:+ from (pos + String.length p) s.
Proof.
  revert pos. induction s as [|c s IH]; intros pos.
  - destruct p; simpl; [|done]. intros ?. by simplify_eq.
  - rewrite Index_cons. destruct (String.prefix p (String c s)) eqn:Hp.
    + intros ?. simplify_eq. rewrite app_empty_l. by apply prefix_split.
    + destruct (Index s p) as [k|] eqn:Hk; simpl; [|done]. intros ?. simplify_eq.
      simpl. rewrite app_cons. f_equal. by apply IH.
Qed.

Lemma length_upto (k : nat) (s : string) :
  (k <= String.length s)%nat -> String.length (upto k s) = k.
Proof.
  revert s. induction k as [|k IH]; intros [|c s] Hk; simpl in *; try done; try lia.
  f_equal. apply IH. lia.
Qed.

(** The values of an edge with the padding that follows each. *)
Fixpoint tail_text (items pads : list string) : string :=
  match items, pads with
  | i :: items', p :: pads' => i +:+ p +:+ tail_text items' pads'
  | _, _ => ""
  end.

Lemma text_from_tail (p0 : string) (pads items : list string) :
  length items = length pads ->
  text_from (p0 :: pads) items = p0 +:+ tail_text items pads.
Proof.
  revert p0 items. induction pads as [|p pads IH]; intros p0 [|i items] Hlen;
    simpl in *; try done.
  rewrite IH by lia. done.
Qed.

Lemma text_from_tail_last (p0 : string) (pads items : list string) (x : string) :
  length items = length pads ->
  text_from (p0 :: pads) (items ++ [x]) = p0 +:+ tail_text items pads +:+ x.
Proof.
  revert p0 items. induction pads as [|p pads IH]; intros p0 [|i items] Hlen;
    simpl in *; try done.
  - by rewrite app_empty_r.
  - rewrite IH by lia. by rewrite !app_assoc_str.
Qed.

(** One padding group: when the loop over its alternatives leaves
    [found] set, one of them was accepted where [strings.Index] found
    it. *)
Lemma find_pads_accept e count pads input vars found input' vars' :
  find_pads e count pads (input, vars, found) = Ok (input', vars', true) ->
  (found = true /\ pads = [] /\ input' = input /\ vars' = vars) \/
  exists pad pos,
    pad ∈ pads /\ Index input pad = Some pos /\
    input' = from (pos + String.length pad) input /\
    if decide (count = O) then pos = O /\ vars' = vars
    else exists item,
           wildcards e !! (count - 1)%nat = Some item /\
           out_of_bounds item (Z.of_nat pos) = false /\
           vars' = vars ++ [upto pos input].
Proof.
  revert found. induction pads as [|pad pads IH]; intros found Hrun; simpl in Hrun.
  - left. by simplify_eq.
  - right.
    assert (Hrest : find_pads e count pads (input, vars, false) = Ok (input', vars', true) ->
              exists pad0 pos,
                pad0 ∈ pad :: pads /\ Index input pad0 = Some pos /\
                input' = from (pos + String.length pad0) input /\
                if decide (count = O) then pos = O /\ vars' = vars
                else exists item,
                       wildcards e !! (count - 1)%nat = Some item /\
                       out_of_bounds item (Z.of_nat pos) = false /\
                       vars' = vars ++ [upto pos input]).
    { intros H. apply IH in H as [(? & _)|(pad0 & pos & Hin & H)]; [done|].
      exists pad0, pos. split; [by right | done]. }
    destruct (Index input pad) as [pos|] eqn:Hi; [|by apply Hrest].
    destruct (decide (count = O)) as [->|Hc].
    + rewrite bool_decide_eq_true_2 in Hrun by done. simpl in Hrun.
      destruct (0 <? pos)%nat eqn:Hpos; [by apply Hrest|].
      apply Nat.ltb_ge in Hpos. simplify_eq.
      exists pad, pos. split; [by left|]. split; [done|]. split; [done|].
      split; [lia | done].
    + rewrite bool_decide_eq_false_2 in Hrun by done. simpl in Hrun.
      rewrite bool_decide_eq_true_2 in Hrun by done.
      destruct (wildcards e !! (count - 1)%nat) as [item|] eqn:Hw; [|done].
      destruct (out_of_bounds item (Z.of_nat pos)) eqn:Hb; [by apply Hrest|].
      simplify_eq. exists pad, pos. split; [by left|]. split; [done|]. split; [done|].
      by exists item.
Qed.

(** The padding groups after the first: each accepted alternative is
    found after a value within the bounds of the wildcard before it. *)
Lemma find_padding_accept e count groups input vars found input' vars' :
  (1 <= count)%nat -> Forall (fun g => g <> []) groups ->
  find_padding e count groups (input, vars, found) = Ok (input', vars', true) ->
  exists pads items,
    Forall2 (fun pad g => pad ∈ g) pads groups /\
    length items = length groups /\
    input = tail_text items pads +:+ input' /\
    vars' = vars ++ items /\
    forall j v, items !! j = Some v ->
      exists item, wildcards e !! (count - 1 + j)%nat = Some item /\
                   out_of_bounds item (len v) = false.
Proof.
  intros Hcount Hne. revert count input vars found Hcount.
  induction Hne as [|g groups Hg Hne IH]; intros count input vars found Hcount Hrun;
    simpl in Hrun.
  - simplify_eq. exists [], []. rewrite app_nil_r. by repeat split.
  - inv_bind Hrun. destruct a as [[input1 vars1] found1]. simpl in Hrun.
    destruct found1; [|by simplify_eq].
    apply find_pads_accept in Ha as [(_ & ? & _)|(pad & pos & Hin & Hi & Hinput & Hv)];
      [done|].
    rewrite decide_False in Hv by lia. destruct Hv as (item & Hw & Hb & Hv).
    apply IH in Hrun as (pads & items & Hpads & Hlen & Htext & Hvars & Hbounds); [|lia].
    exists (pad :: pads), (upto pos input :: items).
    split; [by constructor|]. split; [simpl; lia|]. split; [|split].
    + simpl. rewrite !app_assoc_str, <- Htext, Hinput. by apply Index_split.
    + subst. by rewrite <- app_assoc.
    + intros [|j] v Hj; simpl in Hj.
      * simplify_eq. exists item. rewrite Nat.add_0_r. split; [done|].
        unfold len. rewrite length_upto; [done|].
        apply Index_bound in Hi. lia.
      * destruct (Hbounds j v Hj) as (item' & Hw' & Hb'). exists item'.
        split; [|done]. rewrite <- Hw'. f_equal. lia.
Qed.

(** The parts of an element that an edge accepts. *)
Lemma find_edge_parts e (el : string) (vars : list string) :
  edge_ok (padding e) (wildcards e) (wildend e) ->
  find_edge e el = Ok (Some vars) ->
  exists pads rest,
    Forall2 (fun pad g => pad ∈ g) pads (padding e) /\
    el = text_from pads vars +:+ rest /\
    (wildend e = true -> rest = "") /\
    Forall2 (fun w v => out_of_bounds w (len v) = false) (wildcards e) vars.
Proof.
  intros (Hlen & Hnil & Hall) Hf. unfold find_edge in Hf.
  destruct (padding e) as [|g groups] eqn:Hp; [done|].
  apply Forall_cons in Hall as [Hg Hall]. simpl in Hf, Hlen.
  inv_bind Hf. destruct a as [[input vars1] found]. simpl in Hf.
  destruct found; simpl in Hf; [|done].
  inv_bind Ha. destruct a as [[input0 vars0] found0]. simpl in Ha.
  destruct found0; [|by simplify_eq].
  apply find_pads_accept in Ha0 as [(? & _)|(pad0 & pos & Hin0 & Hi0 & Hinput0 & Hv0)];
    [done|].
  rewrite decide_True in Hv0 by done. destruct Hv0 as [-> ->].
  apply find_padding_accept in Ha as (pads & items & Hpads & Hitems & Htext & Hvars & Hb);
    [|lia|done].
  simpl in Hvars. subst vars1.
  assert (Hel : el = pad0 +:+ tail_text items pads +:+ input).
  { rewrite <- Htext, Hinput0. apply Index_split in Hi0. simpl in Hi0.
    by rewrite app_empty_l in Hi0. }
  pose proof (Forall2_length _ _ _ Hpads) as Hpl.
  destruct (wildend e) eqn:Hwe.
  - destruct (wildcards e !! (length (wildcards e) - 1)%nat) as [item|] eqn:Hlast; [|done].
    destruct (out_of_bounds item (len input)) eqn:Hbi; [done|]. simplify_eq.
    exists (pad0 :: pads), "". split; [by constructor|]. split; [|split; [done|]].
    + rewrite app_empty_r, text_from_tail_last by lia. done.
    + apply Forall2_same_length_lookup_2; [rewrite length_app; simpl; lia|].
      intros i w v Hw Hv. destruct (decide (i < length items)%nat) as [Hi|Hi].
      * rewrite lookup_app_l in Hv by done.
        destruct (Hb i v Hv) as (item' & Hw' & Hb'). simpl in Hw'.
        rewrite Hw in Hw'. by simplify_eq.
      * pose proof (lookup_lt_Some _ _ _ Hv) as Hlt. rewrite length_app in Hlt.
        simpl in Hlt. assert (i = length items) as -> by lia.
        rewrite lookup_app_r, Nat.sub_diag in Hv by lia. simpl in Hv. simplify_eq.
        replace (length (wildcards e) - 1)%nat with (length items) in Hlast by lia.
        rewrite Hw in Hlast. by simplify_eq.
  - simplify_eq. exists (pad0 :: pads), input. split; [by constructor|].
    split; [|split; [done|]].
    + rewrite text_from_tail by lia. by rewrite app_assoc_str.
    + apply Forall2_same_length_lookup_2; [lia|].
      intros i w v Hw Hv. destruct (Hb i v Hv) as (item' & Hw' & Hb'). simpl in Hw'.
      rewrite Hw in Hw'. by simplify_eq.
Qed.

(** X12.  What an edge accepts.  When the matcher of an edge accepts
    an element, the element is one alternative of each padding group
    in order with the values it binds between them; there is one value
    for each wildcard, within its bounds; and when the edge does not
    end in a wildcard, whatever follows the last padding is neither
    bound nor checked: a literal edge accepts every element it is a
    prefix of. *)
Theorem find_edge_accepts e (el : string) (vars : list string) :
  edge_ok (padding e) (wildcards e) (wildend e) ->
  find_edge e el = Ok (Some vars) ->
  exists pads rest,
    Forall2 (fun pad g => pad ∈ g) pads (padding e) /\
    el = text_from pads vars +:+ rest /\
    (wildend e = true -> rest = "") /\
    Forall2 (fun w v => out_of_bounds w (len v) = false) (wildcards e) vars.
Proof. apply find_edge_parts. Qed.

(** The values an edge binds are as many as its wildcards. *)
Lemma find_edge_count e (el : string) (vars : list string) :
  edge_ok (padding e) (wildcards e) (wildend e) ->
  find_edge e el = Ok (Some vars) -> length vars = length (wildcards e).
Proof.
  intros Hok Hf. destruct (find_edge_parts e el vars Hok Hf) as (_ & _ & _ & _ & _ & H).
  symmetry. by eapply Forall2_length.
Qed.

Lemma matches_count lo hi n els exp l exps :
  wf lo hi n -> matches n els exp l exps ->
  length exp = length (chain_wildcards (nparent n)) ->
  length exps = length (Wildcards l).
Proof.
  intros Hwf Hm. revert lo Hwf.
  induction Hm as [n exp l Hl|n el els exp l Hs|n el els exp k e vars l exps Hk Hf Hm IH];
    intros lo Hwf Hexp.
  - inversion Hwf as [? _ H _ _ _]; subst. destruct (H l Hl) as (_ & _ & ->). done.
  - inversion Hwf as [? _ _ H _ _]; subst. destruct (H l Hs) as (_ & _ & name & ->).
    rewrite !length_app. simpl. lia.
  - destruct (wf_edge _ _ _ _ _ Hwf Hk) as (Hc & _ & Hwfe).
    inversion Hwf as [? _ _ _ He _]; subst. destruct (He k e Hk) as (_ & _ & _ & Hp).
    apply (IH _ Hwfe). rewrite Hp, chain_wildcards_cons, !length_app. simpl.
    rewrite (find_edge_count e el vars); [lia | by eapply compiled_ok | done].
Qed.

Lemma Find_matches (R : MapOrder) t (key : string) l (exps : list string) :
  built t -> Find R t key = Ok (Some l, exps) ->
  exists els se, splitPath key = Ok (els, se) /\ matches t els [] l exps.
Proof.
  intros Hb Hfind. destruct (Find_spec R t key Hb) as (res & Hres & Hno & Hyes).
  rewrite Hres in Hfind. simplify_eq. destruct (begins "/" key) eqn:Hbeg.
  - destruct (Hyes eq_refl) as (els & se & Hsp & Hm & _). eauto.
  - by specialize (Hno eq_refl).
Qed.

(** X13.  On a built trie [Find] returns with a leaf as many
    expansions as the leaf has wildcards, so that the names in
    [leaf.Wildcards] and the expansions pair up. *)
Theorem Find_expansions_count (R : MapOrder) t (key : string) l (exps : list string) :
  built t -> Find R t key = Ok (Some l, exps) ->
  length exps = length (Wildcards l).
Proof.
  intros Hb Hfind.
  destruct (Find_matches R t key l exps Hb Hfind) as (els & se & _ & Hm).
  destruct (built_inv t Hb) as (Hwf & _ & Hroot).
  eapply matches_count; [done | done |]. by rewrite Hroot.
Qed.

End Accepts.

Lemma find_edge_accepts_witness :
  exists e pads rest,
    edges archive !! "Archive_:first;_:[2,4]year" = Some e /\
    find_edge e "Archive_March_2013" = Ok (Some ["March"; "2013"]) /\
    Forall2 (fun pad g => pad ∈ g) pads (padding e) /\
    "Archive_March_2013" = text_from pads ["March"; "2013"] +:+ rest /\
    (wildend e = true -> rest = "") /\
    Forall2 (fun w v => out_of_bounds w (len v) = false) (wildcards e) ["March"; "2013"].
Proof.
  destruct (edges archive !! "Archive_:first;_:[2,4]year") as [e|] eqn:He;
    [|vm_compute in He; discriminate He].
  assert (Hf : find_edge e "Archive_March_2013" = Ok (Some ["March"; "2013"])).
  { vm_compute in He. injection He as <-. vm_compute. reflexivity. }
  destruct (find_edge_accepts e "Archive_March_2013" ["March"; "2013"])
    as (pads & rest & H).
  - vm_compute in He. injection He as <-. split; [reflexivity|].
    split; [discriminate|]. repeat constructor; discriminate.
  - exact Hf.
  - exists e, pads, rest. split; [reflexivity|]. split; [exact Hf | exact H].
Defined.

Lemma Find_expansions_count_witness :
  exists l exps,
    Find sorted_order archive "/Archive_March_2013" = Ok (Some l, exps) /\
    length exps = length (Wildcards l).
Proof.
  destruct (Find sorted_order archive "/Archive_March_2013") as [[[l|] exps]|] eqn:Hf;
    try (vm_compute in Hf; discriminate Hf).
  exists l, exps. split; [reflexivity|].
  apply (Find_expansions_count sorted_order archive "/Archive_March_2013" l exps);
    [apply trie_of_built; vm_compute; discriminate | exact Hf].
Defined.

(** * Literal segments and their alternatives *)

Section Literal.

Context {V : Type}.
Implicit Types (n t : @Node V) (e : @Edge V) (l : @Leaf V).

(** The first padding group: an alternative that [input] begins with
    is accepted, unless one before it was. *)
Lemma find_pads_first e pads (input : string) (vars : list string) (found : bool) alt :
  alt ∈ pads -> String.prefix alt input = true ->
  exists input', find_pads e 0 pads (input, vars, found) = Ok (input', vars, true).
Proof.
  intros Hin Hpre. revert found. induction pads as [|pad pads IH]; intros found.
  - by apply elem_of_nil in Hin.
  - simpl. destruct (Index input pad) as [pos|] eqn:Hi.
    + destruct pos as [|pos]; simpl; [eauto|].
      apply elem_of_cons in Hin as [->|Hin]; [|by apply IH].
      rewrite (prefix_Index _ _ Hpre) in Hi. done.
    + apply elem_of_cons in Hin as [->|Hin]; [|by apply IH].
      rewrite (prefix_Index _ _ Hpre) in Hi. done.
Qed.

(** X14.  A segment without [':'] is a list of alternatives separated
    by ['|'], and its edge accepts an element exactly when the element
    begins with one of them; it binds nothing.  So "/img|image" is
    found for "/img", "/image" and "/images" alike. *)
Theorem literal_edge_accepts (k : string) e (el : string) :
  compiled k e -> Count k ":" = O ->
  (find_edge e el = Ok (Some []) <->
   exists alt, alt ∈ Split k "|" /\ String.prefix alt el = true) /\
  (forall vars, find_edge e el = Ok (Some vars) -> vars = []).
Proof.
  intros Hcomp Hk. pose proof (compiled_ok _ _ Hcomp) as Hok.
  destruct Hcomp as [Hc Hw]. rewrite splitInput_plain, compile_plain in Hc by done.
  injection Hc as Hp Hws. pose proof (splitPad_Split k) as Hsplit.
  rewrite Hsplit in Hp.
  assert (Hvars : forall vars, find_edge e el = Ok (Some vars) -> vars = []).
  { intros vars Hf. apply find_edge_count in Hf; [|done].
    rewrite <- Hws in Hf. by destruct vars. }
  split; [|done]. split.
  - intros Hf. destruct (find_edge_parts e el [] Hok Hf) as (pads & rest & Hpads & Hel & _).
    rewrite <- Hp in Hpads.
    apply Forall2_cons_inv_r in Hpads as (alt & pads' & Halt & Hnil & ->).
    apply Forall2_nil_inv_r in Hnil as ->.
    exists alt. split; [done|]. rewrite Hel. simpl. rewrite app_empty_r. apply prefix_app.
  - intros (alt & Hin & Hpre). unfold find_edge. rewrite <- Hp. simpl.
    destruct (find_pads_first e (Split k "|") el [] false alt Hin Hpre) as [input' ->].
    simpl. rewrite Hw, <- Hp, <- Hws. done.
Qed.

End Literal.

Lemma literal_edge_accepts_witness :
  exists e,
    edges (trie_of [("/img|image", "x")]) !! "img|image" = Some e /\
    find_edge e "images" = Ok (Some []).
Proof.
  destruct (edges (trie_of [("/img|image", "x")]) !! "img|image") as [e|] eqn:He;
    [|vm_compute in He; discriminate He].
  exists e. split; [reflexivity|].
  assert (Hb : built (trie_of [("/img|image", "x")]))
    by (apply trie_of_built; vm_compute; discriminate).
  destruct (wf_edge _ _ _ _ _ (proj1 (built_inv _ Hb)) He) as (Hc & _).
  destruct (literal_edge_accepts "img|image" e "images" Hc eq_refl) as [[_ H] _].
  apply H. exists "image". split; [|reflexivity].
  apply list_elem_of_In. vm_compute. tauto.
Defined.

(** * What [Reverse] reports *)

Section Reported.

Context {V : Type}.
Implicit Types (n t : @Node V) (e : @Edge V) (l : @Leaf V).
Implicit Types (m : gmap string string) (h : store) (u : EdgeUp).

(** A wildcard as [decodeWildcard] makes it: it has a name and its
    bounds are [int] values. *)
Definition decoded (w : Wildcard) : Prop :=
  Name w <> "" /\ min_int <= Min w <= max_int /\ min_int <= Max w <= max_int.

(** The descriptor [reverse] reports for a wildcard decodes to it. *)
Lemma decodeWildcard_descriptor (w : Wildcard) :
  decoded w -> decodeWildcard (descriptor w) = Ok w.
Proof.
  intros (Hname & Hlo & Hhi). destruct w as [name lo hi]. simpl in *.
  apply (decodeWildcard_ranged (Itoa lo) (Itoa hi) name lo hi);
    auto using Itoa_numeric, Atoi_Itoa.
Qed.

(** The wildcards of a compiled segment all come from
    [decodeWildcard]. *)
Lemma compile_decoded parts paddings variables :
  compile parts = Ok (paddings, variables) -> Forall decoded variables.
Proof.
  intros Hc. unfold compile in Hc. inv_bind Hc.
  destruct a as [[[p v] key] inside]. simplify_eq.
  set (nv := (length parts / 2)%nat) in *.
  set (np := (length (replicate nv (mkWildcard "" 0 0)) + length parts mod 2)%nat) in *.
  apply (rfold_ind (fun j (st : parts_state) =>
           parts_inv np nv j st /\
           forall i w, (i < st.1.2)%nat -> st.1.1.2 !! i = Some w -> decoded w)) in Ha.
  - destruct Ha as [(Hp & Hv & Hj & _) Hdec]. cbn [fst snd] in *.
    pose proof (Nat.div_mod_eq (length parts) 2) as Hdm.
    pose proof (Nat.mod_upper_bound (length parts) 2) as Hmod.
    apply Forall_lookup. intros i w Hi. apply (Hdec i w); [|done].
    apply lookup_lt_Some in Hi. destruct inside; unfold nv in *; lia.
  - split; [|simpl; intros; lia].
    simpl. rewrite !length_replicate. repeat split; try done. intros i Hi. lia.
  - intros j [[[p' v'] key'] inside'] x [[[p'' v''] key''] inside''] Hj [Hinv Hdec] Hstep.
    split; [by eapply parts_step_inv|]. simpl in *.
    unfold parts_step in Hstep. destruct inside'; simpl in Hstep.
    + inv_bind Hstep. destruct (key' <? length v')%nat eqn:Hlt; [|done]. simplify_eq.
      apply Nat.ltb_lt in Hlt. intros i w Hi Hw.
      destruct (decide (i = key')) as [->|Hne].
      * rewrite list_lookup_insert_eq in Hw by done. simplify_eq.
        by eapply decodeWildcard_named.
      * rewrite list_lookup_insert_ne in Hw by done. apply (Hdec i w); [lia | done].
    + destruct (key' <? length p')%nat; [|done]. simplify_eq. done.
Qed.

(** The wildcards [reverse] works through, in its order: those of the
    edge of the leaf first, those of the edge at the root last. *)
Definition reverse_wildcards (chain : NodeRef) : list Wildcard :=
  concat (up_wildcards <$> chain).

Lemma wf_leaf_in_decoded lo hi n l :
  wf lo hi n -> Forall decoded (reverse_wildcards (nparent n)) -> leaf_in n l ->
  exists p, parent l = Some p /\ Forall decoded (reverse_wildcards p) /\
    (Wildcards l = chain_wildcards p \/
     exists name, Wildcards l = chain_wildcards p ++ [mkWildcard name 0 0]).
Proof.
  intros Hwf Hdec Hin. revert lo Hwf Hdec.
  induction Hin as [n l Hl|n l Hs|n k e l Hk Hin IH]; intros lo Hwf Hdec.
  - inversion Hwf as [? _ H _ _ _]; subst. destruct (H l Hl) as (_ & ? & ?). eauto.
  - inversion Hwf as [? _ _ H _ _]; subst. destruct (H l Hs) as (_ & ? & ?). eauto.
  - destruct (wf_edge _ _ _ _ _ Hwf Hk) as ([Hc _] & _ & Hwfe).
    inversion Hwf as [? _ _ _ He _]; subst. destruct (He k e Hk) as (_ & _ & _ & Hp).
    apply (IH _ Hwfe). rewrite Hp. unfold reverse_wildcards. simpl.
    apply Forall_app. split; [by eapply compile_decoded | done].
Qed.

(** One wildcard: reported, or one entry leaves the map. *)
Lemma substitute_accounts (w : Wildcard) m (missed : list string) :
  exists extra,
    (substitute w m missed).2 = missed ++ extra /\
    extra `sublist_of` [descriptor w] /\
    (length extra + size m = 1 + size (substitute w m missed).1.2)%nat.
Proof.
  unfold substitute. destruct (m !! Name w) as [value|] eqn:Hw;
    [destruct (out_of_bounds w (len value))|]; simpl.
  - exists [descriptor w]. split; [done|]. split; [done | simpl; lia].
  - exists []. rewrite app_nil_r. split; [done|]. split; [apply sublist_nil_l|].
    rewrite map_size_delete_Some by eauto. simpl.
    assert (size m <> 0)%nat; [|lia].
    intros Hz. apply map_size_empty_inv in Hz. subst. by rewrite lookup_empty in Hw.
  - exists [descriptor w]. split; [done|]. split; [done | simpl; lia].
Qed.

Lemma fill_accounts (pads : list string) (ws : list Wildcard) m (missed : list string) :
  exists extra,
    (fill pads ws m missed).2 = missed ++ extra /\
    extra `sublist_of` (descriptor <$> ws) /\
    (length extra + size m = length ws + size (fill pads ws m missed).1.2)%nat.
Proof.
  revert pads m missed. induction ws as [|w ws IH]; intros pads m missed; simpl.
  - exists []. by rewrite app_nil_r.
  - destruct (substitute_accounts w m missed) as (x1 & Hm1 & Hs1 & Hc1).
    destruct (substitute w m missed) as [[item m1] missed1]. cbn [fst snd] in *.
    destruct (IH (tail pads) m1 missed1) as (x2 & Hm2 & Hs2 & Hc2).
    destruct (fill (tail pads) ws m1 missed1) as [[rest m2] missed2]. cbn [fst snd] in *.
    exists (x1 ++ x2). subst. rewrite <- app_assoc. split; [done|]. split.
    + by apply (sublist_app x1 [descriptor w] x2 (descriptor <$> ws)).
    + rewrite length_app. revert Hc1 Hc2.
      generalize (size m) (size m1) (size m2) (length x1) (length x2) (length ws).
      intros. lia.
Qed.

Lemma reverse_spec_accounts (chain : NodeRef) m (missed : list string) :
  exists extra,
    (reverse_spec chain m missed).2 = missed ++ extra /\
    extra `sublist_of` (descriptor <$> reverse_wildcards chain) /\
    (length extra + size m
     = length (reverse_wildcards chain) + size (reverse_spec chain m missed).1.2)%nat.
Proof.
  revert m missed. induction chain as [|u up IH]; intros m missed; simpl.
  - exists []. by rewrite app_nil_r.
  - unfold segment_spec.
    destruct (fill_accounts (firsts (up_padding u)) (up_wildcards u) m missed)
      as (x1 & Hm1 & Hs1 & Hc1).
    destruct (fill _ (up_wildcards u) m missed) as [[text m1] missed1]. cbn [fst snd] in *.
    destruct (IH m1 missed1) as (x2 & Hm2 & Hs2 & Hc2).
    destruct (reverse_spec up m1 missed1) as [[front m2] missed2]. cbn [fst snd] in *.
    exists (x1 ++ x2). subst. rewrite <- app_assoc. split; [done|].
    unfold reverse_wildcards in *. rewrite fmap_cons. cbn [concat].
    rewrite fmap_app, !length_app. split.
    + by apply sublist_app.
    + lia.
Qed.

(** X15.  What [Reverse] reports on a registered leaf.  It works
    through the wildcards of the edges from the leaf up to the root (a
    star is not among them), and every one of them is accounted for:
    it is reported in the missing list or it takes exactly one entry
    out of the caller's map.  The missing list keeps that order — the
    last segment of the pattern first — and each of its strings
    decodes, by [decodeWildcard], to the wildcard it stands for. *)
Theorem Reverse_accounts t l (r : mapref) h m :
  built t -> leaf_in t l -> h !! r = Some m ->
  exists p path missed m',
    parent l = Some p /\
    Reverse t (Some l) r h = Ok (path, r, missed, <[r := m']> h) /\
    (Wildcards l = chain_wildcards p \/
     exists name, Wildcards l = chain_wildcards p ++ [mkWildcard name 0 0]) /\
    missed `sublist_of` (descriptor <$> reverse_wildcards p) /\
    (length missed + size m = length (reverse_wildcards p) + size m')%nat /\
    Forall (fun d => exists w, w ∈ reverse_wildcards p /\ decodeWildcard d = Ok w) missed.
Proof.
  intros Hb Hin Hr. destruct (built_inv t Hb) as (Hwf & _ & Hroot).
  destruct (wf_leaf_in_decoded _ _ _ l Hwf) as (p & Hp & Hdec & Hws);
    [by rewrite Hroot | done |].
  destruct (Reverse_refines t l r h m Hb Hin Hr) as (p' & Hp' & Hrev).
  rewrite Hp in Hp'. simplify_eq.
  destruct (reverse_spec_accounts p' m []) as (extra & Hm & Hsub & Hcount).
  simpl in Hm. exists p'. eexists _, _, _. split; [done|]. split; [exact Hrev|].
  split; [done|]. rewrite Hm. split; [done|]. split; [done|].
  apply Forall_forall. intros d Hd.
  pose proof (elem_of_sublist _ _ _ Hd Hsub) as Hd'.
  apply list_elem_of_fmap in Hd' as (w & -> & Hw). exists w. split; [done|].
  apply decodeWildcard_descriptor. by eapply (proj1 (Forall_forall _ _) Hdec).
Qed.

End Reported.

Lemma Reverse_accounts_witness :
  exists path m',
    Reverse (trie_of [("/:a/x:[2,4]b;", "v")])
      (Add_leaf New "/:a/x:[2,4]b;" "v") 0%nat {[ 0%nat := {[ "a" := "1"; "c" := "3" ]} ]}
    = Ok (path, 0%nat, ["[2,4]b"], {[ 0%nat := m' ]}) /\
    size m' = 1%nat /\ decodeWildcard "[2,4]b" = Ok (mkWildcard "b" 2 4).
Proof.
  set (t := trie_of [("/:a/x:[2,4]b;", "v")]).
  destruct (Add_leaf New "/:a/x:[2,4]b;" "v") as [l|] eqn:Hl; [|discriminate Hl].
  vm_compute in Hl. injection Hl as <-.
  set (l := mkLeaf _ _ _ _ _).
  assert (Hb : built t) by (apply trie_of_built; vm_compute; discriminate).
  assert (Hin : leaf_in t l).
  { eapply (leaf_below _ ":a"); [vm_compute; reflexivity|].
    eapply (leaf_below _ "x:[2,4]b"); [vm_compute; reflexivity|].
    by apply leaf_here. }
  destruct (Reverse_accounts t l 0%nat {[ 0%nat := {[ "a" := "1"; "c" := "3" ]} ]}
              {[ "a" := "1"; "c" := "3" ]} Hb Hin (lookup_singleton_eq _ _))
    as (p & path & missed & m' & Hp & Hrev & _ & _ & Hcount & Hdec).
  injection Hp as <-.
  assert (Hmissed : missed = ["[2,4]b"]).
  { vm_compute in Hrev. by injection Hrev as _ <- _. }
  subst missed. exists path, m'. rewrite Hrev, insert_singleton_eq.
  split; [done|]. split.
  - assert (Hs : size ({[ "a" := "1"; "c" := "3" ]} : gmap string string) = 2%nat)
      by (vm_compute; reflexivity).
    rewrite Hs in Hcount.
    change (length (reverse_wildcards _)) with 2%nat in Hcount. simpl length in Hcount. lia.
  - apply Forall_cons in Hdec as [(w & _ & Hw) _]. vm_compute. reflexivity.
Defined.

(** * [find] with slices as Go has them

    Above, the expansions are lists and [append] makes a new list.  In
    Go a [[]string] is a view of a backing array, and [append(exp, ...)]
    writes into the array of [exp] when its capacity allows: two edges
    of one node that both accept the element append to the same [exp].
    This part models [find] once more, with slices as triples of array,
    length and capacity over a heap of arrays, and compares it with the
    model above. *)

Module Slices.

(** A slice header: backing array (its index in the heap), [len] and
    [cap].  The [nil] slice has capacity [0]. *)
Record Slice : Type := mkSlice {
  sarr : nat;
  slen : nat;
  scap : nat
}.

Definition nil_slice : Slice := mkSlice 0 0 0.

(** The elements a slice shows, in a heap of arrays. *)
Definition contents (H : list (list string)) (s : Slice) : list string :=
  take (slen s) (default [] (H !! sarr s)).

(** How [append] sizes a new backing array is left to the
    implementation: any capacity that fits. *)
Record Growth : Type := mkGrowth {
  grow : nat -> nat -> nat;
  grow_fits : forall (cap needed : nat), (needed <= grow cap needed)%nat
}.

(** [append(s, vs...)]: with nothing to append [s] is returned; when
    the capacity is large enough the values are written into the
    backing array of [s]; otherwise a new array is allocated, at the
    end of the heap, and the elements of [s] are copied. *)
Definition append (G : Growth) (s : Slice) (vs : list string)
    (H : list (list string)) : Slice * list (list string) :=
  match vs with
  | [] => (s, H)
  | _ :: _ =>
      let k := (slen s + length vs)%nat in
      if decide (k <= scap s)%nat then
        (mkSlice (sarr s) k (scap s),
         alter (fun arr => take (slen s) arr ++ vs ++ drop k arr) (sarr s) H)
      else
        let c := grow G (scap s) k in
        (mkSlice (length H) k c,
         H ++ [contents H s ++ vs ++ replicate (c - k) ""])
  end.

Section Find.

Context {V : Type}.

(** The named results [leaf] and [expansions], and the heap. *)
Definition find_state : Type := option (@Leaf V) * Slice * list (list string).

(** The body of [for _, value := range n.edges]. *)
Definition find_step (G : Growth)
    (recur : @Node V -> Slice -> list (list string) -> result find_state)
    (el : string) (exp : Slice)
    (st : find_state) (kv : string * @Edge V) : result find_state :=
  let '(leaf, expansions, H) := st in
  let value := kv.2 in
  if match leaf with
     | Some l => order l <? minorder value
     | None => false
     end
  then Ok st
  else
    m ← find_edge value el;
    match m with
    | None => Ok st
    | Some variables =>
        let '(sl, H) := append G exp variables H in
        '(testleaf, testexpansions, H) ← recur (node value) sl H;
        match testleaf with
        | Some tl =>
            if improves leaf tl then Ok (Some tl, testexpansions, H)
            else Ok (leaf, expansions, H)
        | None => Ok (leaf, expansions, H)
        end
    end.

(** The star of [n], taken before the edges. *)
Definition find_star (G : Growth) (n : @Node V) (elements : list string)
    (exp : Slice) (H : list (list string)) : find_state :=
  match star n with
  | Some s =>
      if improves None s then
        let '(sl, H) := append G exp [Join elements "/"] H in (Some s, sl, H)
      else (None, nil_slice, H)
  | None => (None, nil_slice, H)
  end.

(** [func (n *Node) find(elements, exp []string)] *)
Fixpoint find (G : Growth) (R : MapOrder) (elements : list string) (n : @Node V)
    (exp : Slice) (H : list (list string)) : result find_state :=
  match elements with
  | [] => Ok (leaf n, exp, H)
  | el :: elements' =>
      rfold (find_step G (find G R elements') el exp)
        (find_star G n elements exp H) (range R (edges n))
  end.

(** [func (n *Node) Find(key string)]: the caller reads the slice it
    gets back. *)
Definition Find (G : Growth) (R : MapOrder) (n : @Node V) (key : string)
  : result (option (@Leaf V) * list string) :=
  match key with
  | EmptyString => Ok (None, [])
  | String c _ =>
      if bool_decide (c ≠ "/"%char) then Ok (None, [])
      else
        '(elements, _) ← splitPath key;
        '(leaf, expansions, H) ← find G R elements n nil_slice [];
        Ok (leaf, contents H expansions)
  end.

End Find.

End Slices.

(** ** Heaps of backing arrays *)

Section Heaps.

Import Slices.

Implicit Types (H : list (list string)) (s : Slice).

(** The element [i] of the array [a]. *)
Definition cell H (a i : nat) : option string := arr ← H !! a; arr !! i.

(** A later heap: arrays are never freed or resized. *)
Definition grows H H' : Prop :=
  (length H <= length H')%nat /\
  forall a arr, H !! a = Some arr ->
    exists arr', H' !! a = Some arr' /\ length arr' = length arr.

(** A slice of the heap: within its capacity, which is the size of its
    backing array. *)
Definition valid H s : Prop :=
  (slen s <= scap s)%nat /\
  (scap s = O \/ exists arr, H !! sarr s = Some arr /\ length arr = scap s).

(** Of the arrays of [H] nothing has changed in [H'] but, at most,
    the spare capacity of [s]. *)
Definition frame H H' s : Prop :=
  forall a i, (a < length H)%nat -> (a <> sarr s \/ (i < slen s)%nat) ->
    cell H' a i = cell H a i.

Lemma grows_refl H : grows H H.
Proof. split; [done|]. eauto. Qed.

Lemma grows_trans H1 H2 H3 : grows H1 H2 -> grows H2 H3 -> grows H1 H3.
Proof.
  intros [Hl1 Ha1] [Hl2 Ha2]. split; [lia|]. intros a arr Ha.
  destruct (Ha1 a arr Ha) as (arr1 & Ha' & Hlen1).
  destruct (Ha2 a arr1 Ha') as (arr2 & Ha'' & Hlen2).
  exists arr2. split; [done | congruence].
Qed.

Lemma valid_grows H H' s : valid H s -> grows H H' -> valid H' s.
Proof.
  intros [Hle [Hz|(arr & Ha & Hlen)]] [_ Hg]; (split; [done|]); [by left|].
  right. destruct (Hg _ _ Ha) as (arr' & Ha' & Hlen'). exists arr'. split; [done | congruence].
Qed.

Lemma valid_nil H : valid H nil_slice.
Proof. split; [done | by left]. Qed.

Lemma frame_refl H s : frame H H s.
Proof. by intros a i _ _. Qed.

(** Frames compose along the slices [find] passes down: the slice
    made by [append] shows the array of [s] from further on, or a new
    array. *)
Lemma frame_step H Hj H1 H2 s s1 :
  grows H Hj -> frame H Hj s -> frame Hj H1 s -> grows Hj H1 -> frame H1 H2 s1 ->
  ((sarr s1 = sarr s /\ (slen s <= slen s1)%nat) \/ (length Hj <= sarr s1)%nat) ->
  frame H H2 s.
Proof.
  intros [Hl _] Hf1 Hf2 [Hl1 _] Hf3 Hpos a i Ha Hc.
  rewrite Hf3, Hf2, Hf1; try done; lia.
Qed.

Lemma length_contents H s : valid H s -> length (contents H s) = slen s.
Proof.
  intros [Hle [Hz|(arr & Ha & Hlen)]]; unfold contents.
  - replace (slen s) with O by lia. by rewrite take_0.
  - rewrite Ha. simpl. rewrite length_take. lia.
Qed.

(** What a slice shows does not change while its own elements are
    left alone. *)
Lemma contents_frame H H' s :
  valid H s -> grows H H' -> frame H H' s -> contents H' s = contents H s.
Proof.
  intros [Hle [Hz|(arr & Ha & Hlen)]] [_ Hg] Hf; unfold contents.
  - replace (slen s) with O by lia. by rewrite !take_0.
  - destruct (Hg _ _ Ha) as (arr' & Ha' & Hlen'). rewrite Ha, Ha'. simpl.
    apply list_eq. intros i. destruct (decide (i < slen s)%nat) as [Hi|Hi].
    + rewrite !lookup_take_lt by done.
      pose proof (Hf (sarr s) i (lookup_lt_Some _ _ _ Ha) (or_intror Hi)) as Hc.
      unfold cell in Hc. by rewrite Ha, Ha' in Hc.
    + rewrite !lookup_take_ge by lia. done.
Qed.

(** [append]: the slice it returns shows the elements of [s] and then
    the new values; writing in place touches the spare capacity of [s]
    only. *)
Lemma append_spec (G : Growth) s (vs : list string) H s' H' :
  valid H s -> append G s vs H = (s', H') ->
  valid H' s' /\ grows H H' /\ frame H H' s /\
  contents H' s' = contents H s ++ vs /\
  slen s' = (slen s + length vs)%nat /\
  ((sarr s' = sarr s /\ (slen s <= slen s')%nat) \/ (length H <= sarr s')%nat).
Proof.
  intros Hv Happ. pose proof (length_contents H s Hv) as Hlc.
  unfold append in Happ. destruct vs as [|v vs].
  { simplify_eq. rewrite app_nil_r. simpl. split; [done|].
    split; [apply grows_refl|]. split; [apply frame_refl|]. split; [done|].
    split; [lia|]. left. split; [done | lia]. }
  set (k := (slen s + length (v :: vs))%nat) in *. cbv zeta in Happ.
  destruct (decide (k <= scap s)%nat) as [Hfit|Hfit]; simplify_eq.
  - destruct Hv as [Hle [Hz|(arr & Ha & Hlen)]]; [simpl in *; lia|].
    set (f := fun arr0 : list string => take (slen s) arr0 ++ (v :: vs) ++ drop k arr0).
    assert (Hf : length (f arr) = length arr).
    { unfold f. rewrite !length_app, length_take, length_drop. simpl in *. lia. }
    assert (Hnew : alter f (sarr s) H !! sarr s = Some (f arr))
      by (by rewrite list_lookup_alter_eq, Ha).
    split; [|split; [|split; [|split; [|split]]]]; cbn [sarr slen scap].
    + split; [done|]. right. exists (f arr). split; [done|]. by rewrite Hf.
    + split; [by rewrite length_alter|]. intros a arr0 Ha0.
      destruct (decide (a = sarr s)) as [->|Hne].
      * rewrite Ha in Ha0. simplify_eq. eauto.
      * rewrite list_lookup_alter_ne by (by apply not_eq_sym). eauto.
    + intros a i Hlt [Hne|Hi]; unfold cell.
      * by rewrite list_lookup_alter_ne by (by apply not_eq_sym).
      * destruct (decide (a = sarr s)) as [->|Hne];
          [|by rewrite list_lookup_alter_ne by (by apply not_eq_sym)].
        rewrite Hnew, Ha. simpl. unfold f.
        rewrite lookup_app_l by (rewrite length_take; lia).
        by rewrite lookup_take_lt.
    + unfold contents. simpl. rewrite Hnew, Ha. simpl. unfold f.
      rewrite app_assoc. apply take_app_length'.
      rewrite length_app, length_take. simpl in *. lia.
    + done.
    + left. split; [done | lia].
  - pose proof (grow_fits G (scap s) k) as Hg.
    set (c := grow G (scap s) k) in *.
    set (new := contents H s ++ (v :: vs) ++ replicate (c - k) "").
    assert (Hlnew : length new = c).
    { unfold new. rewrite !length_app, length_replicate, Hlc. simpl in *. lia. }
    assert (Hnew : (H ++ [new]) !! length H = Some new).
    { rewrite lookup_app_r by lia. by rewrite Nat.sub_diag. }
    split; [|split; [|split; [|split; [|split]]]]; simpl.
    + split; [done|]. right. by exists new.
    + split; [rewrite length_app; lia|]. intros a arr0 Ha0. exists arr0.
      split; [|done]. rewrite lookup_app_l; [done | by eapply lookup_lt_Some].
    + intros a i Hlt _. unfold cell. by rewrite lookup_app_l by done.
    + unfold contents at 1. simpl. rewrite Hnew. simpl. unfold new.
      rewrite app_assoc. apply take_app_length'.
      rewrite length_app, Hlc. simpl in *. lia.
    + done.
    + right. done.
Qed.

End Heaps.

(** ** The two models of [find] side by side *)

Section Agreement.

Context {V : Type}.
Implicit Types (n t : @Node V) (e : @Edge V) (l : @Leaf V).
Implicit Types (H : list (list string)) (s sl : Slices.Slice).

#[local] Arguments Slices.append : simpl never.
#[local] Arguments Join : simpl never.

(** Two outcomes agree: both panic, or both return related values. *)
Definition agree {S T : Type} (Rel : S -> T -> Prop)
    (x : result S) (y : result T) : Prop :=
  match x, y with
  | Ok a, Ok b => Rel a b
  | Panic, Panic => True
  | _, _ => False
  end.

(** Two loops over the same list that keep their states related. *)
Lemma rfold_agree {A S T : Type} (Rel : S -> T -> Prop)
    (f : S -> A -> result S) (g : T -> A -> result T) (xs : list A) (a : S) (b : T) :
  (forall x a b, x ∈ xs -> Rel a b -> agree Rel (f a x) (g b x)) ->
  Rel a b -> agree Rel (rfold f a xs) (rfold g b xs).
Proof.
  revert a b. induction xs as [|x xs IH]; intros a b Hstep Hab; simpl; [done|].
  pose proof (Hstep x a b (list_elem_of_here _ _) Hab) as Hx.
  destruct (f a x) as [a'|], (g b x) as [b'|]; simpl in *; try done.
  apply IH; [|done]. intros y a0 b0 Hy. apply Hstep. by apply list_elem_of_further.
Qed.

(** [find] on slices leaves the heap a later heap in which only the
    spare capacity of [exp] may have changed, and returns a slice of
    it. *)
Lemma find_frame (G : Slices.Growth) (R : MapOrder) els n sl H ol sl' H' :
  valid H sl -> Slices.find G R els n sl H = Ok (ol, sl', H') ->
  grows H H' /\ frame H H' sl /\ valid H' sl'.
Proof.
  revert n sl H ol sl' H'. induction els as [|el els IH]; intros n sl H ol sl' H' Hv Hrun.
  - simpl in Hrun. simplify_eq. split; [apply grows_refl|]. split; [apply frame_refl | done].
  - simpl in Hrun.
    refine (rfold_ind (fun _ (st : Slices.find_state) =>
             grows H st.2 /\ frame H st.2 sl /\ valid st.2 st.1.2) _ _ _ _ _ _ Hrun).
    + unfold Slices.find_star. destruct (star n) as [s0|]; simpl.
      * destruct (Slices.append G sl [Join (el :: els) "/"] H) as [s1 H1] eqn:Happ.
        simpl. apply append_spec in Happ as (? & ? & ? & _); done.
      * split; [apply grows_refl|]. split; [apply frame_refl | apply valid_nil].
    + intros j [[b bsl] Hj] [k e] [[b' bsl'] Hj'] _ (Hg & Hf & Hvb) Hstep.
      simpl in Hg, Hf, Hvb. unfold Slices.find_step in Hstep. simpl in Hstep.
      destruct (match b with Some l => _ | None => false end); [by simplify_eq|].
      destruct (find_edge e el) as [[vars|]|]; simpl in Hstep; [|by simplify_eq|done].
      destruct (Slices.append G sl vars Hj) as [s1 H1] eqn:Happ.
      apply append_spec in Happ as (Hv1 & Hg1 & Hf1 & _ & _ & Hpos);
        [|by eapply valid_grows].
      inv_bind Hstep. destruct a as [[tl tsl] H2]. simpl in Hstep.
      destruct (IH _ _ _ _ _ _ Hv1 Ha) as (Hg2 & Hf2 & Hv2).
      assert (Hg' : grows H H2) by (eapply grows_trans; [|done]; by eapply grows_trans).
      assert (Hf' : frame H H2 sl) by exact (frame_step H Hj H1 H2 sl s1 Hg Hf Hf1 Hg1 Hf2 Hpos).
      assert (Hvb' : valid H2 bsl)
        by (eapply valid_grows; [done|]; by eapply grows_trans).
      destruct tl as [tl|]; [destruct (improves b tl)|]; by simplify_eq.
Qed.

(** The states of the two loops: the same leaf, and a slice as long
    as the list. *)
Definition same_leaf H (st : @match_state V) (st' : Slices.find_state) : Prop :=
  st.1 = st'.1.1 /\ Slices.slen st'.1.2 = length st.2 /\
  valid st'.2 st'.1.2 /\ grows H st'.2.

Lemma same_leaf_intro H b (bx : list string) bsl Hj :
  Slices.slen bsl = length bx -> valid Hj bsl -> grows H Hj ->
  same_leaf H (b, bx) (b, bsl, Hj).
Proof. by intros ? ? ?. Qed.

Lemma find_agree (G : Slices.Growth) (R : MapOrder) els n (exp : list string) sl H :
  valid H sl -> Slices.slen sl = length exp ->
  agree (same_leaf H) (find R els n exp) (Slices.find G R els n sl H).
Proof.
  revert n exp sl H. induction els as [|el els IH]; intros n exp sl H Hv Hlen.
  - simpl. split; [done|]. split; [done|]. split; [done | apply grows_refl].
  - simpl find. simpl Slices.find. apply rfold_agree.
    + intros [k e] [b bx] [[b' bsl] Hj] _ (Hb & Hl & Hvb & Hg). simpl in Hb, Hl, Hvb, Hg.
      subst b'. unfold find_step, Slices.find_step. simpl.
      destruct (match b with Some l => _ | None => false end);
        [by apply same_leaf_intro|].
      destruct (find_edge e el) as [[vars|]|]; simpl; [|by apply same_leaf_intro|done].
      destruct (Slices.append G sl vars Hj) as [s1 H1] eqn:Happ.
      apply append_spec in Happ as (Hv1 & Hg1 & _ & _ & Hl1 & _);
        [|by eapply valid_grows].
      specialize (IH (node e) (exp ++ vars) s1 H1 Hv1).
      rewrite length_app, <- Hlen in IH. specialize (IH Hl1).
      destruct (find R els (node e) (exp ++ vars)) as [[tl tx]|],
               (Slices.find G R els (node e) s1 H1) as [[[tl' tsl] H2]|];
        simpl in *; try done.
      destruct IH as (Htl & Htx & Hvt & Hg2). simpl in *. subst tl'.
      assert (Hg' : grows H H2) by (eapply grows_trans; [|done]; by eapply grows_trans).
      assert (Hvb' : valid H2 bsl)
        by (eapply valid_grows; [done|]; by eapply grows_trans).
      destruct tl as [tl|]; [destruct (improves b tl)|]; by apply same_leaf_intro.
    + unfold find_star, Slices.find_star. destruct (star n) as [s0|]; simpl.
      * destruct (Slices.append G sl [Join (el :: els) "/"] H) as [s1 H1] eqn:Happ.
        simpl. apply append_spec in Happ as (Hv1 & Hg1 & _ & _ & Hl1 & _); [|done].
        split; [done|]. simpl. split; [|done]. rewrite length_app, Hl1. simpl. lia.
      * split; [done|]. split; [done|]. split; [apply valid_nil | apply grows_refl].
Qed.

(** X16.  Which leaf [Find] returns, and how many expansions, does
    not depend on how [append] shares backing arrays: for every way of
    sizing new arrays and every order of the edges, [Find] with Go's
    slices returns the leaf and the number of expansions of [Find]
    with lists, and panics when and only when that one does. *)
Theorem Find_leaf_with_slices (G : Slices.Growth) (R : MapOrder) t (key : string) :
  agree (fun (r : @match_state V) (r' : option (@Leaf V) * list string) =>
           r.1 = r'.1 /\ length r'.2 = length r.2)
    (Find R t key) (Slices.Find G R t key).
Proof.
  unfold Find, Slices.Find. destruct key as [|c key]; [done|].
  case_bool_decide; [done|].
  destruct (splitPath (String c key)) as [[els se]|]; [|done]. simpl.
  pose proof (find_agree G R els t [] Slices.nil_slice [] (valid_nil []) eq_refl) as Hag.
  destruct (find R els t []) as [[ol x]|],
           (Slices.find G R els t Slices.nil_slice []) as [[[ol' sl'] H']|];
    simpl in *; try done.
  destruct Hag as (Hol & Hl & Hv & _). simpl in *. split; [done|].
  by rewrite length_contents.
Qed.

End Agreement.

(** ** When the expansions of [Find] are the values of its leaf *)

Section Exact.

Context {V : Type}.
Implicit Types (n t : @Node V) (e : @Edge V) (l : @Leaf V).
Implicit Types (p : list (option string)).
Implicit Types (H : list (list string)) (s sl : Slices.Slice).

#[local] Arguments Slices.append : simpl never.
#[local] Arguments Join : simpl never.
#[local] Arguments find_edge : simpl never.

(** [alone o p n els]: at every node of the route [p], an edge other
    than the one the route takes either holds no registration as early
    as [o], so that [find] passes it by once the terminal of order [o]
    is the best match, or does not accept the element.  At the node of
    a star this is asked of every edge. *)
Fixpoint alone (o : Z) p n (els : list string) : Prop :=
  match p, els with
  | r :: p', el :: els' =>
      map_Forall (fun k e => r = Some k \/ o < minorder e \/ find_edge e el = Ok None)
        (edges n) /\
      match r with
      | Some k =>
          match edges n !! k with
          | Some e => alone o p' (node e) els'
          | None => True
          end
      | None => True
      end
  | _, _ => True
  end.

(** No two terminals below [n] have the same order. *)
Definition distinct n : Prop :=
  forall p1 p2 l1 l2,
    placed p1 n = Some l1 -> placed p2 n = Some l2 -> order l1 = order l2 -> p1 = p2.

Lemma distinct_built t : built t -> distinct t.
Proof. intros Hb p1 p2 l1 l2. by apply placed_order_inj. Qed.

Lemma distinct_edge n k e : distinct n -> edges n !! k = Some e -> distinct (node e).
Proof.
  intros Hd Hk p1 p2 l1 l2 H1 H2 Ho.
  assert (Heq : Some k :: p1 = Some k :: p2); [|by simplify_eq].
  apply (Hd _ _ l1 l2); simpl; rewrite ?Hk; done.
Qed.

Lemma range_NoDup (R : @MapOrder V) (m : gmap string (@Edge V)) : NoDup (range R m).*1.
Proof. rewrite (range_perm R m). apply NoDup_fst_map_to_list. Qed.

(** A leaf that [find] returns on slices is at the end of a route
    whose edges accept the elements. *)
Lemma slices_find_along (G : Slices.Growth) (R : MapOrder) els n sl H lo hi l sl' H' :
  wf lo hi n -> valid H sl ->
  Slices.find G R els n sl H = Ok (Some l, sl', H') ->
  exists p exps, along p n els (Slices.contents H sl) = Some (l, exps).
Proof.
  intros Hwf Hv Hrun.
  destruct (find_spec R els n (Slices.contents H sl) lo hi Hwf) as (res & Hres & Hbest).
  pose proof (find_agree G R els n (Slices.contents H sl) sl H Hv
                (eq_sym (length_contents H sl Hv))) as Hag.
  rewrite Hres, Hrun in Hag. destruct Hag as (Hl & _). simpl in Hl.
  unfold earliest in Hbest. rewrite Hl in Hbest. destruct Hbest as [Hm _].
  apply matches_along in Hm as [p Hp]. eauto.
Qed.

(** The leaf the route leads to keeps its values in the slice [find]
    returns, when no other edge on the route can follow it. *)
Lemma find_exact (G : Slices.Growth) (R : MapOrder) els n p sl H lo hi l exps ol sl' H' :
  wf lo hi n -> distinct n -> valid H sl ->
  along p n els (Slices.contents H sl) = Some (l, exps) ->
  alone (order l) p n els ->
  Slices.find G R els n sl H = Ok (ol, sl', H') -> ol = Some l ->
  Slices.contents H' sl' = exps.
Proof.
  revert n p sl H lo hi exps ol sl' H'.
  induction els as [|el els IH]; intros n p sl H lo hi exps ol sl' H' Hwf Hd Hv Hp Hal Hrun ->.
  { simpl in Hrun. simplify_eq. destruct p as [|[k|] p]; simpl in Hp; [|done|by destruct p].
    destruct (leaf n); by simplify_eq/=. }
  pose proof (along_placed _ _ _ _ _ _ Hp) as Hpl.
  simpl in Hrun.
  set (visited := fun j : nat => forall k, head p = Some (Some k) ->
                    exists i e, (i < j)%nat /\ range R (edges n) !! i = Some (k, e)).
  assert (Hfin : (fun st : Slices.find_state =>
            grows H st.2 /\ frame H st.2 sl /\ valid st.2 st.1.2 /\
            (st.1.1 = Some l ->
             Slices.contents st.2 st.1.2 = exps /\ visited (length (range R (edges n)))))
          (Some l, sl', H')); [|by destruct Hfin as (_ & _ & _ & [? _])].
  refine (rfold_ind (fun j (st : Slices.find_state) =>
            grows H st.2 /\ frame H st.2 sl /\ valid st.2 st.1.2 /\
            (st.1.1 = Some l -> Slices.contents st.2 st.1.2 = exps /\ visited j))
            _ _ _ _ _ _ Hrun).
  - (* the star *)
    unfold Slices.find_star. destruct (star n) as [s0|] eqn:Hs; simpl.
    + destruct (Slices.append G sl [Join (el :: els) "/"] H) as [s1 H1] eqn:Happ.
      simpl. apply append_spec in Happ as (Hv1 & Hg1 & Hf1 & Hc1 & _); [|done].
      split; [done|]. split; [done|]. split; [done|]. intros [= ->].
      assert (Hr : p = [None]).
      { apply (Hd p [None] l l); [done | by simpl | done]. }
      subst p. simpl in Hp. rewrite Hs in Hp. simpl in Hp. simplify_eq.
      split; [done|]. by intros k.
    + split; [apply grows_refl|]. split; [apply frame_refl|].
      split; [apply valid_nil | done].
  - (* an edge *)
    intros j [[b bsl] Hj] [k e] [[b' bsl'] Hj'] Hjk (Hg & Hf & Hvb & Hbest) Hstep.
    simpl in Hg, Hf, Hvb, Hbest.
    assert (Hvis : visited j -> visited (Datatypes.S j)).
    { intros Hvj k0 Hk0. destruct (Hvj k0 Hk0) as (i & e0 & Hi & He0).
      exists i, e0. split; [lia | done]. }
    assert (Hk : edges n !! k = Some e) by (apply (range_lookup R); eauto).
    unfold Slices.find_step in Hstep. cbn [fst snd] in Hstep.
    destruct (match b with Some l0 => order l0 <? minorder e | None => false end) eqn:Hskip.
    { simplify_eq. simpl. repeat (split; [done|]). intros Hb.
      destruct (Hbest Hb) as [? ?]. split; [done | by apply Hvis]. }
    destruct (find_edge e el) as [[vars|]|] eqn:Hfe; simpl in Hstep; [| |done].
    2:{ simplify_eq. simpl. repeat (split; [done|]). intros Hb.
        destruct (Hbest Hb) as [? ?]. split; [done | by apply Hvis]. }
    destruct (Slices.append G sl vars Hj) as [s1 H1] eqn:Happ.
    apply append_spec in Happ as (Hv1 & Hg1 & Hf1 & Hc1 & _ & Hpos);
      [|by eapply valid_grows].
    rewrite (contents_frame H Hj sl Hv Hg Hf) in Hc1.
    inv_bind Hstep. destruct a as [[tl tsl] H2]. simpl in Hstep.
    destruct (find_frame G R els (node e) s1 H1 tl tsl H2 Hv1 Ha) as (Hg2 & Hf2 & Hv2).
    assert (Hg' : grows H H2) by (eapply grows_trans; [|done]; by eapply grows_trans).
    assert (Hf' : frame H H2 sl)
      by exact (frame_step H Hj H1 H2 sl s1 Hg Hf Hf1 Hg1 Hf2 Hpos).
    assert (Hvb' : valid H2 bsl)
      by (eapply valid_grows; [done|]; by eapply grows_trans).
    destruct (wf_edge _ _ _ _ _ Hwf Hk) as (_ & _ & Hwfe).
    (* the leaf kept from before is not [l]: its edge would have been
       passed by, or is the edge of the route, visited once *)
    assert (Hkeep : b <> Some l).
    { intros ->. destruct (Hbest eq_refl) as [_ Hvj].
      destruct p as [|r p']; [done|]. simpl in Hal. destruct Hal as [Hall _].
      destruct (Hall k e Hk) as [->|[Hlt|Hno]].
      - destruct (Hvj k eq_refl) as (i & e0 & Hi & He0).
        pose proof (range_NoDup R (edges n)) as Hnd.
        assert (i = j); [|lia].
        eapply NoDup_lookup; [exact Hnd| |];
          rewrite list_lookup_fmap; [by rewrite He0 | by rewrite Hjk].
      - apply Z.ltb_ge in Hskip. lia.
      - congruence. }
    (* a leaf found below the edge is [l] only on the route *)
    assert (Hnew : tl = Some l -> Slices.contents H2 tsl = exps /\ visited (Datatypes.S j)).
    { intros ->.
      destruct (slices_find_along G R els (node e) s1 H1 _ _ l tsl H2 Hwfe Hv1 Ha)
        as (p'' & x & Hx).
      rewrite Hc1 in Hx.
      assert (Hr : p = Some k :: p'').
      { apply (Hd p (Some k :: p'') l l); [done| |done].
        simpl. rewrite Hk. simpl. by eapply along_placed. }
      subst p. simpl in Hp, Hal. rewrite Hk in Hp, Hal. simpl in Hp. rewrite Hfe in Hp.
      destruct Hal as [_ Hal]. split.
      - eapply (IH (node e) p'' s1 H1); try done.
        + by eapply distinct_edge.
        + by rewrite Hc1.
      - intros k0 [= <-]. exists j, e. split; [lia | done]. }
    destruct tl as [tl|]; [destruct (improves b tl)|]; simplify_eq; simpl;
      repeat (split; [done|]); done.
Qed.

(** X17.  When the expansions are right.  [Find] with Go's slices
    returns the values bound on the way to its leaf, as [Find] with
    lists does, whenever at every node on the way no other edge both
    accepts the element and holds a registration as early as the leaf:
    no later [append] to the shared [exp] can then write over them. *)
Theorem Find_expansions_exact (G : Slices.Growth) (R : MapOrder) t (key : string)
    els se p l exps :
  built t -> splitPath key = Ok (els, se) ->
  Find R t key = Ok (Some l, exps) ->
  placed p t = Some l -> alone (order l) p t els ->
  Slices.Find G R t key = Ok (Some l, exps).
Proof.
  intros Hb Hsp Hfind Hpl Hal.
  destruct (built_inv t Hb) as (Hwf & _).
  destruct (Find_matches R t key l exps Hb Hfind) as (els' & se' & Hsp' & Hm).
  rewrite Hsp in Hsp'. simplify_eq.
  apply matches_along in Hm as [p0 Hp0].
  assert (p0 = p) as ->.
  { apply (distinct_built t Hb p0 p l l); [by eapply along_placed | done | done]. }
  unfold Find in Hfind. unfold Slices.Find.
  destruct key as [|c key]; [done|].
  case_bool_decide as Hc; [done|].
  rewrite Hsp in Hfind |- *. simpl in Hfind |- *.
  pose proof (find_agree G R els' t [] Slices.nil_slice [] (valid_nil []) eq_refl) as Hag.
  rewrite Hfind in Hag.
  destruct (Slices.find G R els' t Slices.nil_slice []) as [[[ol sl'] H']|] eqn:Hrun;
    [|done].
  destruct Hag as (Hol & _). simpl in Hol. subst ol. simpl.
  by rewrite (find_exact G R els' t p Slices.nil_slice [] _ _ l exps _ sl' H'
                Hwf (distinct_built t Hb) (valid_nil []) Hp0 Hal Hrun eq_refl).
Qed.

End Exact.

(** [append] as Go's runtime sizes small slices: the capacity asked
    for when it is more than twice the old one, twice the old one
    otherwise. *)
Definition doubling : Slices.Growth :=
  Slices.mkGrowth (fun cap needed => Nat.max needed (2 * cap))
    (fun cap needed => Nat.le_max_l needed (2 * cap)).

(** Two patterns that part at their fourth element. *)
Definition parting : @Node string :=
  trie_of [("/:a/:b/:c/p:e/y", "1"); ("/:a/:b/:c/:d/x", "2")].

Lemma alone_edge {V : Type} (o : Z) (k : string) (p : list (option string))
    (n : @Node V) (el : string) (els : list string) (e : @Edge V) :
  edges n !! k = Some e ->
  Forall (fun ke => Some k = Some ke.1 \/ o < minorder ke.2 \/ find_edge ke.2 el = Ok None)
    (map_to_list (edges n)) ->
  alone o p (node e) els ->
  alone o (Some k :: p) n (el :: els).
Proof.
  intros Hk Hall Hal. simpl. rewrite Hk. split; [|done].
  apply map_Forall_to_list. eapply Forall_impl; [exact Hall|]. by intros [k' e'].
Qed.

Lemma Find_expansions_exact_witness :
  exists l,
    leaf_for parting "/1/2/3/zq/x" = Some l /\
    Slices.Find doubling reversed_order parting "/1/2/3/zq/x"
    = Ok (Some l, ["1"; "2"; "3"; "zq"]).
Proof.
  destruct (leaf_for parting "/1/2/3/zq/x") as [l|] eqn:Hl;
    [|vm_compute in Hl; discriminate Hl].
  exists l. split; [reflexivity|].
  apply (Find_expansions_exact doubling reversed_order parting "/1/2/3/zq/x"
           ["1"; "2"; "3"; "zq"; "x"] false
           [Some ":a"; Some ":b"; Some ":c"; Some ":d"; Some "x"] l).
  - apply trie_of_built. vm_compute. discriminate.
  - reflexivity.
  - vm_compute in Hl. injection Hl as <-. vm_compute. reflexivity.
  - vm_compute in Hl. injection Hl as <-. vm_compute. reflexivity.
  - vm_compute in Hl. injection Hl as <-.
    repeat (lazymatch goal with
            | |- alone _ (Some ?k :: _) ?n (_ :: _) =>
                let r := eval vm_compute in (edges n !! k) in
                lazymatch r with
                | Some ?e => apply (alone_edge _ k _ n _ _ e)
                end
            end;
            [vm_compute; reflexivity
            |vm_compute map_to_list; repeat constructor; simpl;
             first [left; reflexivity
                   |right; left; reflexivity
                   |right; right; vm_compute; reflexivity]
            |]).
    exact I.
Defined.

(** X18.  The expansions of [Find] can be written over.  There are a
    built trie, a key and two orders of visiting the edges for which
    [Find], with slices sized as Go sizes them, returns the same leaf
    and two different lists of expansions: after the leaf is found, an
    edge that accepts the same element and leads nowhere appends its
    own value to the shared [exp], in the array the returned slice
    still points to.  With lists both orders give the values bound on
    the way to the leaf. *)
Theorem Find_expansions_overwritten :
  exists (t : @Node string) (key : string) (R1 R2 : MapOrder) l x1 x2,
    built t /\
    Find R1 t key = Ok (Some l, x1) /\ Find R2 t key = Ok (Some l, x1) /\
    Slices.Find doubling R1 t key = Ok (Some l, x1) /\
    Slices.Find doubling R2 t key = Ok (Some l, x2) /\
    x1 <> x2.
Proof.
  destruct (leaf_for parting "/1/2/3/pq/x") as [l|] eqn:Hl;
    [|vm_compute in Hl; discriminate Hl].
  exists parting, "/1/2/3/pq/x", reversed_order, sorted_order, l,
    ["1"; "2"; "3"; "pq"], ["1"; "2"; "3"; "q"].
  split; [apply trie_of_built; vm_compute; discriminate|].
  vm_compute in Hl. injection Hl as <-.
  repeat split; try (vm_compute; reflexivity). discriminate.
Qed.

(** * Stars *)

Section Stars.

Context {V : Type}.
Implicit Types (n t : @Node V) (e : @Edge V) (l : @Leaf V).
Implicit Types (ks : list string) (H : list (list string)).

#[local] Arguments Slices.append : simpl never.
#[local] Arguments Join : simpl never.
#[local] Arguments find_edge : simpl never.

(** The descent of [find] through the edges stored under [ks], one
    for each element: the node it reaches and the values bound on the
    way, when every edge accepts its element. *)
Fixpoint walk ks n (els exp : list string) : option (@Node V * list string) :=
  match ks, els with
  | [], [] => Some (n, exp)
  | k :: ks', el :: els' =>
      e ← edges n !! k;
      match find_edge e el with
      | Ok (Some vars) => walk ks' (node e) els' (exp ++ vars)
      | _ => None
      end
  | _, _ => None
  end.

Lemma walk_along ks n (front exp : list string) n' vals l (rest : list string) :
  walk ks n front exp = Some (n', vals) -> star n' = Some l -> rest <> [] ->
  along ((Some <$> ks) ++ [None]) n (front ++ rest) exp
  = Some (l, vals ++ [Join rest "/"]).
Proof.
  revert n front exp. induction ks as [|k ks IH]; intros n front exp Hw Hs Hr.
  - destruct front; simpl in Hw; [|done]. simplify_eq.
    destruct rest as [|r rest]; [done|]. simpl. by rewrite Hs.
  - destruct front as [|el front]; simpl in Hw; [done|].
    destruct (edges n !! k) as [e|] eqn:Hk; [|done]. simpl in Hw.
    destruct (find_edge e el) as [[vars|]|] eqn:Hf; try done.
    simpl. rewrite Hk. simpl. rewrite Hf. by apply IH.
Qed.

Lemma along_star_length (route : list (option string)) n (els exp : list string) r :
  along (route ++ [None]) n els exp = Some r -> (length route < length els)%nat.
Proof.
  revert n els exp. induction route as [|[k|] route IH]; intros n els exp Ha.
  - destruct els; simpl in *; [done | lia].
  - destruct els as [|el els]; simpl in Ha; [done|].
    destruct (edges n !! k) as [e|]; [|done]. simpl in Ha.
    destruct (find_edge e el) as [[vars|]|]; try done.
    apply IH in Ha. simpl. lia.
  - by destruct route, els.
Qed.

(** The leaf [Find] returns with slices is the leaf it returns with
    lists, with as many expansions. *)
Lemma Slices_Find_leaf (G : Slices.Growth) (R : MapOrder) t (key : string) ol xs :
  Slices.Find G R t key = Ok (ol, xs) ->
  exists x, Find R t key = Ok (ol, x) /\ length xs = length x.
Proof.
  unfold Find, Slices.Find. destruct key as [|c key]; [intros ?; simplify_eq; by exists []|].
  case_bool_decide; [intros ?; simplify_eq; by exists []|].
  destruct (splitPath (String c key)) as [[els se]|]; [|done]. simpl.
  pose proof (find_agree G R els t [] Slices.nil_slice [] (valid_nil []) eq_refl) as Hag.
  destruct (find R els t []) as [[ol0 x]|],
           (Slices.find G R els t Slices.nil_slice []) as [[[ol' sl'] H']|];
    simpl in *; try done.
  destruct Hag as (Hol & Hl & Hv & _). simpl in *. intros ?. simplify_eq.
  exists x. split; [done|]. by rewrite length_contents.
Qed.

(** What [Find] with lists returns, [Find] with slices returns: the
    leaf and the number of expansions always, their values when no
    other edge can follow on the way. *)
Lemma Find_slices (G : Slices.Growth) (R : MapOrder) t (key : string) els se l x :
  built t -> splitPath key = Ok (els, se) -> Find R t key = Ok (Some l, x) ->
  exists xs,
    Slices.Find G R t key = Ok (Some l, xs) /\ length xs = length x /\
    forall p, placed p t = Some l -> alone (order l) p t els -> xs = x.
Proof.
  intros Hb Hsp Hfind. destruct (built_inv t Hb) as (Hwf & _).
  destruct (Find_matches R t key l x Hb Hfind) as (els' & se' & Hsp' & Hm).
  rewrite Hsp in Hsp'. simplify_eq. apply matches_along in Hm as [p0 Hp0].
  unfold Find in Hfind. unfold Slices.Find.
  destruct key as [|c key]; [done|]. case_bool_decide as Hc; [done|].
  rewrite Hsp in Hfind |- *. simpl in Hfind |- *.
  pose proof (find_agree G R els' t [] Slices.nil_slice [] (valid_nil []) eq_refl) as Hag.
  rewrite Hfind in Hag.
  destruct (Slices.find G R els' t Slices.nil_slice []) as [[[ol sl'] H']|] eqn:Hrun;
    [|done].
  destruct Hag as (Hol & Hl & Hv & _). simpl in Hol, Hl, Hv. subst ol. simpl.
  eexists. split; [done|]. split; [by rewrite length_contents|].
  intros p Hpl Hal.
  assert (p0 = p) as ->.
  { apply (distinct_built t Hb p0 p l l); [by eapply along_placed | done | done]. }
  exact (find_exact G R els' t p Slices.nil_slice [] _ _ l x _ sl' H'
           Hwf (distinct_built t Hb) (valid_nil []) Hp0 Hal Hrun eq_refl).
Qed.

(** C7.  A star matches one or more elements and never none, at any
    depth.  Let the star of [l] be registered at the node that [find]
    reaches through the edges [ks], on the elements [front].  Whatever
    elements follow, if there is at least one and no other pattern
    that matches was registered earlier, [Find] returns [l] on that
    key, with one expansion more than the values bound on the way; the
    expansions are these values and then the remaining elements joined
    by ['/'] when, further, no other edge on the way can follow (see
    [alone]).  On a key with no element left for the star [Find] never
    returns [l].  This holds for every way of sizing arrays and every
    order of the edges. *)
Theorem C7_star_takes_one_or_more_segments (G : Slices.Growth) (R : MapOrder)
    t ks (front vals : list string) n l :
  built t -> walk ks t front [] = Some (n, vals) -> star n = Some l ->
  (forall (rest : list string) (key : string) se,
     rest <> [] -> begins "/" key = true -> splitPath key = Ok (front ++ rest, se) ->
     (forall l' x', matches t (front ++ rest) [] l' x' -> order l <= order l') ->
     exists xs,
       Slices.Find G R t key = Ok (Some l, xs) /\
       length xs = Datatypes.S (length vals) /\
       (alone (order l) ((Some <$> ks) ++ [None]) t (front ++ rest) ->
        xs = vals ++ [Join rest "/"])) /\
  (forall (key : string) els se xs,
     splitPath key = Ok (els, se) -> (length els <= length ks)%nat ->
     Slices.Find G R t key <> Ok (Some l, xs)).
Proof.
  intros Hb Hw Hs.
  assert (Hpl : placed ((Some <$> ks) ++ [None]) t = Some l).
  { eapply along_placed. apply (walk_along ks t front [] n vals l [""]); done. }
  split.
  - intros rest key se Hr Hbeg Hsp Hmin.
    pose proof (walk_along ks t front [] n vals l rest Hw Hs Hr) as Hal.
    assert (Hm : matches t (front ++ rest) [] l (vals ++ [Join rest "/"])).
    { apply matches_along. eauto. }
    assert (Hfind : Find R t key = Ok (Some l, vals ++ [Join rest "/"])).
    { destruct (Find_spec R t key Hb) as (res & Hres & _ & Hyes).
      destruct (Hyes Hbeg) as (els' & se' & Hsp' & Hbest).
      rewrite Hsp in Hsp'. simplify_eq. destruct res as [[l0|] x0].
      - destruct Hbest as [Hm0 Hmin0]. simpl in Hm0, Hmin0.
        pose proof (Hmin0 _ _ Hm). pose proof (Hmin _ _ Hm0).
        destruct (matches_unique t _ l0 x0 l _ Hb Hm0 Hm) as [-> ->]; [lia | done].
      - by destruct (Hbest _ _ Hm). }
    destruct (Find_slices G R t key _ se l _ Hb Hsp Hfind) as (xs & Hxs & Hlen & Hex).
    exists xs. split; [done|]. split.
    + rewrite Hlen, length_app. simpl. lia.
    + intros Hone. by apply (Hex _ Hpl).
  - intros key els se xs Hsp Hlen Hfind.
    apply Slices_Find_leaf in Hfind as (x & Hfind & _).
    destruct (Find_matches R t key l x Hb Hfind) as (els' & se' & Hsp' & Hm).
    rewrite Hsp in Hsp'. simplify_eq. apply matches_along in Hm as [p0 Hp0].
    assert (p0 = (Some <$> ks) ++ [None]) as ->.
    { apply (distinct_built t Hb _ _ l l); [by eapply along_placed | done | done]. }
    apply along_star_length in Hp0. rewrite length_fmap in Hp0. lia.
Qed.

(** ** Tries without a choice of edges *)

(** Every node down to depth [d] has one edge at most: the order of
    [range] cannot matter. *)
Fixpoint narrow (d : nat) n : Prop :=
  match d with
  | O => True
  | Datatypes.S d' =>
      (size (edges n) <= 1)%nat /\
      Forall (fun ke => narrow d' (node ke.2)) (map_to_list (edges n))
  end.

Lemma rfold_ext {A S : Type} (f g : S -> A -> result S) (xs : list A) (s : S) :
  (forall x s, x ∈ xs -> f s x = g s x) -> rfold f s xs = rfold g s xs.
Proof.
  revert s. induction xs as [|x xs IH]; intros s Hfg; simpl; [done|].
  rewrite (Hfg x s) by apply list_elem_of_here.
  destruct (g s x) as [s'|]; simpl; [|done].
  apply IH. intros y s0 Hy. apply Hfg. by apply list_elem_of_further.
Qed.

Lemma range_small (R : @MapOrder V) (m : gmap string (@Edge V)) :
  (size m <= 1)%nat -> range R m = map_to_list m.
Proof.
  intros Hs. pose proof (range_perm R m) as Hp. rewrite <- length_map_to_list in Hs.
  destruct (map_to_list m) as [|x [|y ys]]; simpl in Hs; [| |lia].
  - by apply Permutation_nil_r.
  - by apply Permutation_singleton_r.
Qed.

Lemma find_narrow (G : Slices.Growth) (R : MapOrder) els n sl H :
  narrow (length els) n ->
  Slices.find G R els n sl H = Slices.find G sorted_order els n sl H.
Proof.
  revert n sl H. induction els as [|el els IH]; intros n sl H Hn; [done|].
  destruct Hn as [Hs Hall]. simpl Slices.find.
  rewrite (range_small R) by done.
  change (range sorted_order (edges n)) with (map_to_list (edges n)).
  apply rfold_ext. intros [k e] [[b bsl] Hj] Hin.
  unfold Slices.find_step. cbn [fst snd].
  destruct (match b with Some l0 => _ | None => false end); [done|].
  destruct (find_edge e el) as [[vars|]|]; simpl; try done.
  destruct (Slices.append G sl vars Hj) as [s1 H1].
  rewrite IH; [done|]. rewrite Forall_forall in Hall. by apply (Hall (k, e)).
Qed.

Lemma Find_narrow (G : Slices.Growth) (R : MapOrder) t (key : string) els se :
  splitPath key = Ok (els, se) -> narrow (length els) t ->
  Slices.Find G R t key = Slices.Find G sorted_order t key.
Proof.
  intros Hsp Hn. unfold Slices.Find. destruct key as [|c key]; [done|].
  case_bool_decide; [done|]. rewrite Hsp. simpl. by rewrite find_narrow.
Qed.

Lemma find_narrow_list (R : MapOrder) els n (exp : list string) :
  narrow (length els) n -> find R els n exp = find sorted_order els n exp.
Proof.
  revert n exp. induction els as [|el els IH]; intros n exp Hn; [done|].
  destruct Hn as [Hs Hall]. simpl find.
  rewrite (range_small R) by done.
  change (range sorted_order (edges n)) with (map_to_list (edges n)).
  apply rfold_ext. intros [k e] [b bx] Hin.
  unfold find_step. cbn [fst snd].
  destruct (match b with Some l0 => _ | None => false end); [done|].
  destruct (find_edge e el) as [[vars|]|]; simpl; try done.
  rewrite IH; [done|]. rewrite Forall_forall in Hall. by apply (Hall (k, e)).
Qed.

Lemma Find_narrow_list (R : MapOrder) t (key : string) els se :
  splitPath key = Ok (els, se) -> narrow (length els) t ->
  Find R t key = Find sorted_order t key.
Proof.
  intros Hsp Hn. unfold Find. destruct key as [|c key]; [done|].
  case_bool_decide; [done|]. rewrite Hsp. simpl. by rewrite find_narrow_list.
Qed.

End Stars.


(** Three wildcards, then a star beside an edge that leads on. *)
Definition star_beside_edge : @Node string :=
  trie_of [("/:a/:b/:c/x:d/zzz", "1"); ("/:a/:b/:c/*rest", "2")].

(** A star at the root, registered after a pattern of three wildcards. *)
Definition star_after_wildcards : @Node string :=
  trie_of [("/:a/:b/:c", "1"); ("/*rest", "2")].

Ltac narrow_by_computation :=
  repeat lazymatch goal with
         | |- True => exact I
         | |- narrow (length _) _ => cbn [length]
         | |- narrow O _ => exact I
         | |- narrow (Datatypes.S _) _ =>
             split; [vm_compute; lia | vm_compute map_to_list]
         | |- Forall _ [] => apply Forall_nil
         | |- Forall _ (_ :: _) => apply Forall_cons; split; [cbn [fst snd]|]
         end.

Lemma C7_counterexample :
  exists l1 l2,
    built star_after_wildcards /\
    placed [Some ":a"; Some ":b"; Some ":c"] star_after_wildcards = Some l1 /\
    star star_after_wildcards = Some l2 /\
    Value l1 = "1" /\ Value l2 = "2" /\ l1 <> l2 /\
    forall R : MapOrder,
      Slices.Find doubling R star_after_wildcards "/a/b/c"
      = Ok (Some l1, ["a"; "b"; "c"]).
Proof.
  let p := eval vm_compute in (placed [Some ":a"; Some ":b"; Some ":c"] star_after_wildcards) in
  let s := eval vm_compute in (star star_after_wildcards) in
  lazymatch p with
  | Some ?l1 => lazymatch s with Some ?l2 => exists l1, l2 end
  end.
  split; [apply trie_of_built; vm_compute; discriminate|].
  split; [vm_compute; reflexivity|]. split; [vm_compute; reflexivity|].
  split; [reflexivity|]. split; [reflexivity|]. split; [discriminate|]. intros R.
  rewrite (Find_narrow doubling R star_after_wildcards "/a/b/c" ["a"; "b"; "c"] false eq_refl).
  - vm_compute. reflexivity.
  - narrow_by_computation.
Qed.

(** X19.  The expansion of a star can be written over, whatever the
    order of the edges.  With "/:a/:b/:c/x:d/zzz" registered before
    "/:a/:b/:c/*rest", [Find] on "/1/2/3/x4/y/z" returns the leaf of
    the star, rightly, and as its last expansion "4" where the rest of
    the path is "x4/y/z": the star's expansion is appended to [exp]
    first, and the edge "x:d", which accepts "x4" and then leads
    nowhere, appends its value into the same array. *)
Theorem star_expansion_overwritten :
  exists n l,
    built star_beside_edge /\
    walk [":a"; ":b"; ":c"] star_beside_edge ["1"; "2"; "3"] [] = Some (n, ["1"; "2"; "3"]) /\
    star n = Some l /\ Value l = "2" /\
    Join ["x4"; "y"; "z"] "/" = "x4/y/z" /\
    forall R : MapOrder,
      Find R star_beside_edge "/1/2/3/x4/y/z" = Ok (Some l, ["1"; "2"; "3"; "x4/y/z"]) /\
      Slices.Find doubling R star_beside_edge "/1/2/3/x4/y/z"
      = Ok (Some l, ["1"; "2"; "3"; "4"]).
Proof.
  let w := eval vm_compute in (walk [":a"; ":b"; ":c"] star_beside_edge ["1"; "2"; "3"] []) in
  lazymatch w with
  | Some (?n0, _) =>
      let s := eval vm_compute in (star n0) in
      lazymatch s with
      | Some ?l0 => exists n0, l0
      end
  end.
  split; [apply trie_of_built; vm_compute; discriminate|].
  split; [vm_compute; reflexivity|]. split; [vm_compute; reflexivity|].
  split; [reflexivity|]. split; [reflexivity|]. intros R.
  assert (Hn : narrow (length ["1"; "2"; "3"; "x4"; "y"; "z"]) star_beside_edge)
    by narrow_by_computation.
  split.
  - rewrite (Find_narrow_list R star_beside_edge "/1/2/3/x4/y/z"
               ["1"; "2"; "3"; "x4"; "y"; "z"] false eq_refl Hn).
    vm_compute. reflexivity.
  - rewrite (Find_narrow doubling R star_beside_edge "/1/2/3/x4/y/z"
               ["1"; "2"; "3"; "x4"; "y"; "z"] false eq_refl Hn).
    vm_compute. reflexivity.
Qed.

Lemma C7_witness :
  (exists t l,
     Add New "/*rest" "v" = Ok (t, Some l, None) /\
     Slices.Find doubling sorted_order t "/a/b/c" = Ok (Some l, ["a/b/c"]) /\
     forall xs, Slices.Find doubling sorted_order t "/" <> Ok (Some l, xs)) /\
  (exists n l,
     walk [":a"; ":b"; ":c"] star_beside_edge ["1"; "2"; "3"] [] = Some (n, ["1"; "2"; "3"]) /\
     star n = Some l /\
     Slices.Find doubling reversed_order star_beside_edge "/1/2/3/y4/z"
     = Ok (Some l, ["1"; "2"; "3"; "y4/z"]) /\
     forall xs,
       Slices.Find doubling reversed_order star_beside_edge "/1/2/3" <> Ok (Some l, xs)).
Proof.
  split.
  - let r := eval vm_compute in (Add New "/*rest" "v") in
    lazymatch r with
    | Ok (?t0, Some ?l0, None) => exists t0, l0
    end.
    split; [vm_compute; reflexivity|].
    match goal with
    | |- Slices.Find _ _ ?t0 _ = Ok (Some ?l0, _) /\ _ => set (t := t0); set (l := l0)
    end.
    assert (Hb : built t).
    { apply (built_Add New "/*rest" "v" t (Some l) None);
        [apply built_New | reflexivity | vm_compute; reflexivity]. }
    destruct (C7_star_takes_one_or_more_segments doubling sorted_order t [] [] [] t l
                Hb eq_refl eq_refl) as [Hone Hzero].
    split.
    + destruct (Hone ["a"; "b"; "c"] "/a/b/c" false) as (xs & Hxs & _ & Hex);
        [discriminate | reflexivity | reflexivity | |].
      * intros l' x' Hm. apply matches_candidates in Hm. vm_compute in Hm.
        apply list_elem_of_In in Hm. simpl in Hm.
        destruct Hm as [Hm|[]]. injection Hm as <- _. reflexivity.
      * rewrite Hxs, Hex; [reflexivity|]. simpl. split; [|exact I].
        intros k e Hk. vm_compute in Hk. discriminate Hk.
    + intros xs. apply (Hzero "/" [] true xs); [reflexivity | simpl; lia].
  - let w := eval vm_compute in (walk [":a"; ":b"; ":c"] star_beside_edge ["1"; "2"; "3"] []) in
    lazymatch w with
    | Some (?n0, _) =>
        let s := eval vm_compute in (star n0) in
        lazymatch s with
        | Some ?l0 => exists n0, l0
        end
    end.
    match goal with
    | |- walk _ _ _ _ = Some (?n0, _) /\ star _ = Some ?l0 /\ _ =>
        set (n := n0); set (l := l0)
    end.
    assert (Hw : walk [":a"; ":b"; ":c"] star_beside_edge ["1"; "2"; "3"] []
                 = Some (n, ["1"; "2"; "3"])) by (vm_compute; reflexivity).
    assert (Hs : star n = Some l) by (vm_compute; reflexivity).
    split; [exact Hw|]. split; [exact Hs|].
    assert (Hb : built star_beside_edge) by (apply trie_of_built; vm_compute; discriminate).
    destruct (C7_star_takes_one_or_more_segments doubling reversed_order star_beside_edge
                [":a"; ":b"; ":c"] ["1"; "2"; "3"] ["1"; "2"; "3"] n l Hb Hw Hs)
      as [Hone Hzero].
    split.
    + destruct (Hone ["y4"; "z"] "/1/2/3/y4/z" false) as (xs & Hxs & _ & Hex);
        [discriminate | reflexivity | reflexivity | |].
      * intros l' x' Hm. apply matches_candidates in Hm. vm_compute in Hm.
        apply list_elem_of_In in Hm. simpl in Hm.
        destruct Hm as [Hm|[]]. injection Hm as <- _. reflexivity.
      * rewrite Hxs, Hex; [reflexivity|].
        cbn [fmap list_fmap app].
        repeat (lazymatch goal with
                | |- alone _ (Some ?k :: _) ?n1 (_ :: _) =>
                    let r := eval vm_compute in (edges n1 !! k) in
                    lazymatch r with
                    | Some ?e => apply (alone_edge _ k _ n1 _ _ e)
                    end
                end;
                [vm_compute; reflexivity
                |vm_compute map_to_list; repeat constructor; simpl;
                 first [left; reflexivity
                       |right; left; reflexivity
                       |right; right; vm_compute; reflexivity]
                |]).
        simpl. split; [|exact I].
        apply map_Forall_to_list. vm_compute map_to_list.
        repeat constructor; simpl; right; right; vm_compute; reflexivity.
    + intros xs. apply (Hzero "/1/2/3" ["1"; "2"; "3"] false xs); [reflexivity | simpl; lia].
Defined.
